(** * Sketch.js (kandinsky-painter): a shallow embedding and its properties

    The sketch is one closure: a handful of mutable variables ([width],
    [height], [shapes], [strokes], [groups], [running], [last], [time]), a
    family of generators that draw from [Math.random], a family of draw
    routines that mutate one record and talk to a Canvas 2D context, the
    [frame] callback that re-arms itself through [requestAnimationFrame],
    and the public API [pause], [resume], [toggle], [destroy].

    Conventions of the embedding.
    - A JavaScript number is [number]: [NaN] or a finite value [Fin r] with
      [r] a real.  Finite doubles are idealised as reals: no rounding and no
      overflow to an infinity.  [NaN] is kept because the code relies on it
      ([time * 0.18 + s.phase || 0] with [s.phase] absent).
    - A record of the scene is a Rocq record with the fields its generator
      writes; the elements of [shapes] are told apart by a constructor in
      place of the [type] string.
    - The Canvas context is observed through the list of calls and property
      writes issued to it ([Cmd]), oldest first.
    - [Math.random] is a sequence of reals consumed in call order.
    - The creation of the canvas element is not embedded: the surface size
      is an [Env], and every statement holds for any size; [resize] is the
      function from the window to that size.
    - Because doubles round, a statement is made on the expression the code
      evaluates wherever a branch hangs on it (the tests of the wrap, on the
      moved centre), a range produced by [rand] is given with both of its
      ends, and a sum built frame after frame is described by its steps and
      its direction, not by a closed form. *)

From Stdlib Require Import Reals Lra Lia ZArith List String Ascii Bool.
From Stdlib Require Import Permutation Sorted.
Import ListNotations.

Local Open Scope R_scope.

(* ------------------------------------------------------------------ *)
(** ** JavaScript numbers *)

Inductive number : Type :=
| NaN
| Fin (r : R).

Coercion Fin : R >-> number.

Definition lift2 (f : R -> R -> R) (a b : number) : number :=
  match a, b with
  | Fin x, Fin y => Fin (f x y)
  | _, _ => NaN
  end.

Definition nadd : number -> number -> number := lift2 Rplus.
Definition nsub : number -> number -> number := lift2 Rminus.
Definition nmul : number -> number -> number := lift2 Rmult.

(** [a / b].  A finite dividend over zero is an infinity (or [NaN]) in
    JavaScript; the embedding has no infinities and answers [NaN]. *)
Definition ndiv (a b : number) : number :=
  match a, b with
  | Fin x, Fin y => if Req_dec_T y 0 then NaN else Fin (x / y)
  | _, _ => NaN
  end.

Definition nneg (a : number) : number :=
  match a with
  | Fin x => Fin (- x)
  | NaN => NaN
  end.

(** [a < b]: false as soon as an operand is [NaN]. *)
Definition nlt (a b : number) : bool :=
  match a, b with
  | Fin x, Fin y => if Rlt_dec x y then true else false
  | _, _ => false
  end.

Definition ngt (a b : number) : bool := nlt b a.

(** ToBoolean on a number: [NaN] and zero are falsy. *)
Definition truthy (a : number) : bool :=
  match a with
  | NaN => false
  | Fin x => if Req_dec_T x 0 then false else true
  end.

(** [a || b] on numbers. *)
Definition js_or (a b : number) : number := if truthy a then a else b.

Definition Math_sin (a : number) : number :=
  match a with Fin x => Fin (sin x) | NaN => NaN end.

Definition Math_cos (a : number) : number :=
  match a with Fin x => Fin (cos x) | NaN => NaN end.

Definition Math_min : number -> number -> number := lift2 Rmin.
Definition Math_max : number -> number -> number := lift2 Rmax.

Definition Math_floor (a : number) : number :=
  match a with Fin x => Fin (IZR (Int_part x)) | NaN => NaN end.

Definition TAU : number := Fin (PI * 2).

(** [Math.round]: the nearest integer, a half going up. *)
Definition Math_round (a : number) : number :=
  match a with Fin x => Fin (IZR (Int_part (x + 0.5))) | NaN => NaN end.

(** The two helpers of the "Utilities" block the sketch defines beside
    [rand]. *)
Definition clamp (v a b : number) : number := Math_max a (Math_min b v).


(** What reading a property gives: the number stored, or [undefined] when
    the object has no such property. *)
Inductive value : Type :=
| Undefined
| Num (n : number).

Definition ToNumber (v : value) : number :=
  match v with
  | Undefined => NaN
  | Num n => n
  end.

(** [a + v] where [a] is a number and [v] a number or [undefined]: both
    operands go through ToNumber. *)
Definition js_plus (a : number) (v : value) : number := nadd a (ToNumber v).

(** Number of iterations of [for (let i = 0; i < bound; i++)]: the naturals
    below [bound], none when the comparison is against [NaN]. *)
Definition loop_count (bound : number) : nat :=
  match bound with
  | NaN => O
  | Fin b => Z.to_nat (- Int_part (- b))
  end.

(* ------------------------------------------------------------------ *)
(** ** Strings and the colour helper

    Strings are sequences of code units below 256. *)

Local Open Scope string_scope.

(** [s.replace(c, '')] for a one-character pattern: the first occurrence
    is dropped. *)
Fixpoint remove_first (c : ascii) (s : string) : string :=
  match s with
  | EmptyString => EmptyString
  | String d s' => if Ascii.eqb c d then s' else String d (remove_first c s')
  end.

(** [s[i]] as a one-character string.  The helper indexes only below a
    length it has just tested, so the out-of-range answer ([undefined] in
    JavaScript, the empty string here) is never produced. *)
Definition char_at (i : nat) (s : string) : string :=
  match String.get i s with
  | Some c => String c EmptyString
  | None => EmptyString
  end.

(** [s.slice(i, j)] for [0 <= i <= j]. *)
Definition slice (i j : nat) (s : string) : string :=
  String.substring i (j - i) s.

Definition hex_digit (c : ascii) : option Z :=
  let n := Z.of_nat (nat_of_ascii c) in
  if ((48 <=? n) && (n <=? 57))%Z then Some (n - 48)%Z
  else if ((65 <=? n) && (n <=? 70))%Z then Some (n - 55)%Z
  else if ((97 <=? n) && (n <=? 102))%Z then Some (n - 87)%Z
  else None.

(** StrWhiteSpaceChar, restricted to code units below 256. *)
Definition is_space (c : ascii) : bool :=
  let n := nat_of_ascii c in
  ((9 <=? n) && (n <=? 13) || (n =? 32) || (n =? 160))%nat.

Fixpoint skip_spaces (s : string) : string :=
  match s with
  | String c s' => if is_space c then skip_spaces s' else s
  | EmptyString => s
  end.

(** Longest prefix of hexadecimal digits, accumulated most significant
    digit first; [None] when there is no digit at all. *)
Fixpoint hex_prefix (acc : option Z) (s : string) : option Z :=
  match s with
  | EmptyString => acc
  | String c s' =>
      match hex_digit c with
      | Some d =>
          hex_prefix (Some (16 * match acc with Some a => a | None => 0 end + d)%Z) s'
      | None => acc
      end
  end.

Definition strip_0x (s : string) : string :=
  match s with
  | String "0" (String "x" s') => s'
  | String "0" (String "X" s') => s'
  | _ => s
  end.

(** [parseInt(s, 16)] as an integer, [None] for [NaN]. *)
Definition parseInt16_Z (s : string) : option Z :=
  let s1 := skip_spaces s in
  let '(sign, s2) :=
    match s1 with
    | String "-" s' => ((-1)%Z, s')
    | String "+" s' => (1%Z, s')
    | _ => (1%Z, s1)
    end in
  option_map (Z.mul sign) (hex_prefix None (strip_0x s2)).

Definition number_of_parse (p : option Z) : number :=
  match p with
  | Some z => Fin (IZR z)
  | None => NaN
  end.

Definition parseInt16 (s : string) : number := number_of_parse (parseInt16_Z s).

(** A CSS colour string: a token passed through as it is, or the text
    [rgba(r,g,b,alpha)] built by the template literal of [hexToRgba], kept
    as its four interpolated numbers. *)
Inductive css : Type :=
| Token (s : string)
| Rgba (r g b alpha : number).

Definition hexToRgba (hex : string) (alpha : number) : css :=
  let h := remove_first "#" hex in
  if Nat.eqb (String.length h) 3 then
    let r := parseInt16 (char_at 0 h ++ char_at 0 h) in
    let g := parseInt16 (char_at 1 h ++ char_at 1 h) in
    let b := parseInt16 (char_at 2 h ++ char_at 2 h) in
    Rgba r g b alpha
  else
    let r := parseInt16 (slice 0 2 h) in
    let g := parseInt16 (slice 2 4 h) in
    let b := parseInt16 (slice 4 6 h) in
    Rgba r g b alpha.

Definition PALETTE : list string :=
  [ "#F23B5A"; "#FFC857"; "#8BD3DD"; "#3A7CA5";
    "#6F2DA8"; "#FFFFFF"; "#000000"; "#FF7AB6" ].

Local Close Scope string_scope.

(* ------------------------------------------------------------------ *)
(** ** A state monad for the two effects of the sketch *)

Definition ST (S A : Type) : Type := S -> A * S.

Definition ret {S A : Type} (a : A) : ST S A := fun s => (a, s).

Definition bind {S A B : Type} (m : ST S A) (k : A -> ST S B) : ST S B :=
  fun s => let (a, s') := m s in k a s'.

Notation "x <- m ;; k" := (bind m (fun x => k))
  (at level 61, m at next level, right associativity).
Notation "m ;;; k" := (bind m (fun _ => k))
  (at level 61, right associativity).

(** [for (const a of l) body(a)], collecting what each round returns. *)
Fixpoint forEach {S A B : Type} (body : A -> ST S B) (l : list A) : ST S (list B) :=
  match l with
  | [] => ret []
  | a :: l' => b <- body a ;; bs <- forEach body l' ;; ret (b :: bs)
  end.

(** The surface size held in the closure variables [width] and [height]. *)
Record Env : Type := mkEnv { width : number; height : number }.

(** [Math.max(1, window.devicePixelRatio || 1)]; the property read may be
    [undefined]. *)
Definition DPR (devicePixelRatio : value) : number :=
  Math_max 1 (match devicePixelRatio with
              | Undefined => Fin 1
              | Num n => js_or n 1
              end).

(** What [resize] writes on the canvas element: its size in device pixels
    and, through [ctx.setTransform(DPR, 0, 0, DPR, 0, 0)], the scale of the
    context.  The two [style] strings, [width + 'px'] and [height + 'px'],
    repeat [width] and [height] and are not represented. *)
Record Canvas : Type := mkCanvas {
  canvas_width : number; canvas_height : number; scale_x : number; scale_y : number }.

(** [resize()], lines 33-41; [innerWidth] and [innerHeight] are what
    [window] reports during the call. *)
Definition resize (dpr innerWidth innerHeight : number) : Env * Canvas :=
  let w := Math_max 300 innerWidth in
  let h := Math_max 200 innerHeight in
  (mkEnv w h,
   mkCanvas (Math_round (nmul w dpr)) (Math_round (nmul h dpr)) dpr dpr).

(* ------------------------------------------------------------------ *)
(** ** Math.random and the generators *)

(** The state of the sampler is the sequence of values it has yet to
    return. *)
Definition Source : Type := nat -> R.
Definition Gen (A : Type) : Type := ST Source A.

Definition Math_random : Gen number :=
  fun src => (Fin (src O), fun n => src (S n)).

Definition rand (a b : number) : Gen number :=
  u <- Math_random ;; ret (nadd a (nmul u (nsub b a))).

(** A source is admissible when every value lies in [0, 1). *)
Definition unit_source (src : Source) : Prop := forall n, 0 <= src n < 1.

(** [PALETTE[i]] for a number [i].  The generators index with
    [Math.floor(rand(0, PALETTE.length))], which is within range for an
    admissible source; outside it (JavaScript: [undefined]) the empty token
    is returned. *)
Definition palette_at (i : number) : string :=
  match i with
  | Fin x => if (Int_part x <? 0)%Z then EmptyString
             else nth (Z.to_nat (Int_part x)) PALETTE EmptyString
  | NaN => EmptyString
  end.

Definition PALETTE_length : number := Fin (INR (List.length PALETTE)).

Definition pick_colour : Gen string :=
  i <- rand 0 PALETTE_length ;; ret (palette_at (Math_floor i)).

Module Circle.
Record t : Type := mk {
  x : number; y : number; r : number;
  fill : string; stroke : option string; strokeWidth : number;
  vx : number; vy : number; wobble : number; phase : number }.
Definition set_x (v : number) (s : t) : t :=
  mk v (y s) (r s) (fill s) (stroke s) (strokeWidth s) (vx s) (vy s) (wobble s) (phase s).
Definition set_y (v : number) (s : t) : t :=
  mk (x s) v (r s) (fill s) (stroke s) (strokeWidth s) (vx s) (vy s) (wobble s) (phase s).
End Circle.

Module Triangle.
(** [phase] is what [s.phase] reads.  [makeTriangle] stores no such
    property, so on its records the read is [Undefined]. *)
Record t : Type := mk {
  x : number; y : number; size : number;
  rotation : number; rotationSpeed : number;
  fill : string; stroke : option string; strokeWidth : number;
  skew : number; phase : value }.
Definition set_x (v : number) (s : t) : t :=
  mk v (y s) (size s) (rotation s) (rotationSpeed s) (fill s) (stroke s)
     (strokeWidth s) (skew s) (phase s).
Definition set_rotation (v : number) (s : t) : t :=
  mk (x s) (y s) (size s) v (rotationSpeed s) (fill s) (stroke s)
     (strokeWidth s) (skew s) (phase s).
End Triangle.

Module Rect.
Record t : Type := mk {
  x : number; y : number; w : number; h : number;
  rotation : number; rotationSpeed : number;
  fill : string; stroke : option string; strokeWidth : number }.
Definition set_rotation (v : number) (s : t) : t :=
  mk (x s) (y s) (w s) (h s) v (rotationSpeed s) (fill s) (stroke s) (strokeWidth s).
End Rect.

(** An element of [shapes], discriminated by its [type] property. *)
Inductive Shape : Type :=
| SCircle (c : Circle.t)
| STriangle (t : Triangle.t)
| SRect (r : Rect.t).

Definition shape_x (s : Shape) : number :=
  match s with
  | SCircle c => Circle.x c
  | STriangle t => Triangle.x t
  | SRect r => Rect.x r
  end.

Definition shape_y (s : Shape) : number :=
  match s with
  | SCircle c => Circle.y c
  | STriangle t => Triangle.y t
  | SRect r => Rect.y r
  end.

Record Point : Type := mkPoint { px : number; py : number }.

Module Stroke.
Record t : Type := mk {
  points : list Point; color : string;
  width : number; drift : number; phase : number }.
End Stroke.

Inductive Kind : Type := KCircle | KRect | KTriangle.

Module Child.
Record t : Type := mk {
  kind : Kind; x : number; y : number;
  r : number; w : number; h : number;
  fill : string; stroke : option string; strokeWidth : number }.
End Child.

Module Group.
Record t : Type := mk {
  x : number; y : number; rotation : number; speed : number;
  scale : number; children : list Child.t }.
Definition set_rotation (v : number) (g : t) : t :=
  mk (x g) (y g) v (speed g) (scale g) (children g).
End Group.

Section Generators.
Variable env : Env.

(** The sketch calls every generator without [opts]; the embedding is of
    those calls, so [Object.assign] returns its first argument. *)
Definition makeCircle : Gen Circle.t :=
  x <- rand (nmul 0.1 (width env)) (nmul 0.9 (width env)) ;;
  y <- rand (nmul 0.12 (height env)) (nmul 0.88 (height env)) ;;
  r <- rand 18 120 ;;
  fill <- pick_colour ;;
  strokeWidth <- rand 0 6 ;;
  vx <- rand (-6) 6 ;;
  vy <- rand (-6) 6 ;;
  wobble <- rand 0.2 1.2 ;;
  phase <- rand 0 TAU ;;
  ret (Circle.mk x y r fill None strokeWidth
         (ndiv vx 200) (ndiv vy 200) wobble phase).

Definition makeTriangle : Gen Triangle.t :=
  x <- rand (nmul 0.12 (width env)) (nmul 0.88 (width env)) ;;
  y <- rand (nmul 0.12 (height env)) (nmul 0.88 (height env)) ;;
  size <- rand 40 220 ;;
  rotation <- rand 0 TAU ;;
  rotationSpeed <- rand (-0.01) 0.01 ;;
  fill <- pick_colour ;;
  strokeWidth <- rand 1 4 ;;
  skew <- rand (-0.3) 0.3 ;;
  ret (Triangle.mk x y size rotation rotationSpeed fill
         (Some "#000000"%string) strokeWidth skew Undefined).

Definition makeRect : Gen Rect.t :=
  x <- rand (nmul 0.05 (width env)) (nmul 0.95 (width env)) ;;
  y <- rand (nmul 0.05 (height env)) (nmul 0.95 (height env)) ;;
  w <- rand 30 240 ;;
  h <- rand 20 160 ;;
  rotation <- rand 0 TAU ;;
  rotationSpeed <- rand (-0.008) 0.008 ;;
  fill <- pick_colour ;;
  strokeWidth <- rand 1 4 ;;
  ret (Rect.mk x y w h rotation rotationSpeed fill
         (Some "#000000"%string) strokeWidth).

(** One round of the loop of [buildWavyLine]: the vertex pushed for
    index [i]. *)
Definition wavy_point (cx cy segs length angle : number) (i : nat) : Gen Point :=
  let t := ndiv (INR i) segs in
  jx <- rand (-40) 40 ;;
  jy <- rand (-40) 40 ;;
  ret (mkPoint
         (nadd (nadd cx (nmul (nmul (Math_cos angle) (nsub t 0.5)) length)) jx)
         (nadd (nadd cy (nmul (nmul (Math_sin angle) (nsub t 0.5)) length)) jy)).

Definition buildWavyLine (cx cy scale : number) : Gen (list Point) :=
  s <- rand 3 8 ;;
  let segs := Math_floor s in
  l <- rand 120 (nmul (Math_min (width env) (height env)) 0.8) ;;
  let length := nmul l scale in
  angle <- rand 0 TAU ;;
  forEach (wavy_point cx cy segs length angle)
          (seq 0 (loop_count (nadd segs 1))).

Definition makeStroke : Gen Stroke.t :=
  cx <- rand 100 (nsub (width env) 100) ;;
  cy <- rand 100 (nsub (height env) 100) ;;
  scale <- rand 0.3 1.5 ;;
  points <- buildWavyLine cx cy scale ;;
  color <- pick_colour ;;
  w <- rand 1.2 6 ;;
  drift <- rand 0.001 0.006 ;;
  phase <- rand 0 TAU ;;
  ret (Stroke.mk points color w drift phase).

(** One round of the loop of [makeGroup]; [scale] is [g.scale]. *)
Definition makeChild (count scale : number) (i : nat) : Gen Child.t :=
  j <- rand (-0.2) 0.2 ;;
  let ang := nadd (nmul (ndiv (INR i) count) TAU) j in
  d <- rand 30 140 ;;
  let dist := nmul d scale in
  u1 <- Math_random ;;
  kind <- (if ngt u1 0.5 then ret KCircle
           else u2 <- Math_random ;;
                ret (if ngt u2 0.5 then KRect else KTriangle)) ;;
  r <- rand 8 48 ;;
  w <- rand 18 80 ;;
  h <- rand 12 60 ;;
  fill <- pick_colour ;;
  u3 <- Math_random ;;
  strokeWidth <- rand 0.5 3 ;;
  ret (Child.mk kind
         (nmul (Math_cos ang) dist) (nmul (Math_sin ang) dist)
         (nmul r scale) (nmul w scale) (nmul h scale)
         fill (if ngt u3 0.6 then Some "#000"%string else None) strokeWidth).

(** [makeGroup(count)]: the sketch passes neither [cx] nor [cy], so both
    centres come from [rand]. *)
Definition makeGroup (count : number) : Gen Group.t :=
  centerX <- rand (nmul (width env) 0.2) (nmul (width env) 0.8) ;;
  centerY <- rand (nmul (height env) 0.2) (nmul (height env) 0.8) ;;
  rotation <- rand 0 TAU ;;
  speed <- rand (-0.003) 0.003 ;;
  scale <- rand 0.6 1.4 ;;
  children <- forEach (makeChild count scale) (seq 0 (loop_count count)) ;;
  ret (Group.mk centerX centerY rotation speed scale children).

(** [for (let i = 0; i < n; i++) arr.push(make())]. *)
Definition replicateM {A : Type} (n : nat) (make : Gen A) : Gen (list A) :=
  forEach (fun _ => make) (seq 0 n).

(** The three collections after the "Populate scene" loops. *)
Definition populate : Gen (list Shape * list Stroke.t * list Group.t) :=
  cs <- replicateM 9 makeCircle ;;
  ts <- replicateM 8 makeTriangle ;;
  rs <- replicateM 6 makeRect ;;
  ss <- replicateM 5 makeStroke ;;
  gs <- replicateM 3 (c <- rand 5 10 ;; makeGroup c) ;;
  ret (map SCircle cs ++ map STriangle ts ++ map SRect rs, ss, gs).

End Generators.

(* ------------------------------------------------------------------ *)
(** ** The Canvas 2D context as a recorder *)

Inductive Style : Type :=
| Solid (c : css)
| LinearGradient (x0 y0 x1 y1 : number) (stops : list (number * css))
| RadialGradient (x0 y0 r0 x1 y1 r1 : number) (stops : list (number * css)).

(** One constructor per context method or property the sketch uses.
    [createLinearGradient], [createRadialGradient] and [addColorStop] build
    a [Style] and leave the context alone, so they are not recorded. *)
Inductive Cmd : Type :=
| Save
| Restore
| Translate (x y : number)
| Rotate (a : number)
| Scale (sx sy : number)
| BeginPath
| ClosePath
| MoveTo (x y : number)
| LineTo (x y : number)
| QuadraticCurveTo (cpx cpy x y : number)
| Arc (x y r a0 a1 : number)
| RectPath (x y w h : number)
| Fill
| StrokePath
| FillRect (x y w h : number)
| StrokeRect (x y w h : number)
| ClearRect (x y w h : number)
| SetFillStyle (s : Style)
| SetStrokeStyle (s : Style)
| SetLineWidth (w : number)
| SetGlobalAlpha (a : number)
| SetGlobalCompositeOperation (op : string)
| SetLineJoin (j : string)
| SetLineCap (c : string).

(** The state of a draw routine is everything issued to [ctx] so far.  The
    recorder accepts every call: exceptions a browser raises on malformed
    arguments are outside the embedding. *)
Definition Draw (A : Type) : Type := ST (list Cmd) A.

Definition emit (c : Cmd) : Draw unit := fun log => (tt, log ++ [c]).

(** [if (b) body]. *)
Definition when (b : bool) (body : Draw unit) : Draw unit :=
  if b then body else ret tt.

(** ToBoolean on [s.stroke]: [null] and the empty string are falsy. *)
Definition truthy_str (s : option string) : bool :=
  match s with
  | Some EmptyString => false
  | Some _ => true
  | None => false
  end.

Definition colour_of (s : option string) : Style :=
  match s with
  | Some c => Solid (Token c)
  | None => Solid (Token EmptyString)
  end.

Section Renderer.
Variable env : Env.

(** The hatch loop [for (let x = -height; x < width; x += step)]: [n]
    rounds starting from [x]. *)
Fixpoint hatch (step : number) (n : nat) (x : number) : Draw unit :=
  match n with
  | O => ret tt
  | S n' =>
      emit BeginPath ;;;
      emit (MoveTo x 0) ;;;
      emit (LineTo (nadd x (height env)) (height env)) ;;;
      emit StrokePath ;;;
      hatch step n' (nadd x step)
  end.

(** Soft wash: the full-surface gradient fill. *)
Definition drawWash : Draw unit :=
  let g := LinearGradient 0 0 (width env) (height env)
             [ (Fin 0, Token "#FFF9F2"); (Fin 1, Token "#F0F7FF") ] in
  emit (SetFillStyle g) ;;;
  emit (FillRect 0 0 (width env) (height env)).

(** Light diagonal hatch.  With [step] positive, [x] stays below [width]
    for exactly the naturals below [(width + height) / step]
    (lemma [hatch_rounds]). *)
Definition drawHatch : Draw unit :=
  emit Save ;;;
  emit (SetGlobalAlpha 0.04) ;;;
  emit (SetStrokeStyle (Solid (Token "#000"))) ;;;
  emit (SetLineWidth 1) ;;;
  let step := Math_max 20 (Math_min 60
                (Math_floor (ndiv (nadd (width env) (height env)) 60))) in
  hatch step (loop_count (ndiv (nadd (width env) (height env)) step))
        (nneg (height env)) ;;;
  emit Restore.

Definition drawBackgroundTexture : Draw unit :=
  drawWash ;;; drawHatch.

(** Lines 207-213 of [drawCircle]: drift, then wrap-around. *)
Definition drawCircle_move (s : Circle.t) : Circle.t :=
  let s := Circle.set_x (nadd (Circle.x s) (Circle.vx s)) s in
  let s := Circle.set_y (nadd (Circle.y s) (Circle.vy s)) s in
  let s := if nlt (Circle.x s) (nneg (Circle.r s))
           then Circle.set_x (nadd (width env) (Circle.r s)) s else s in
  let s := if ngt (Circle.x s) (nadd (width env) (Circle.r s))
           then Circle.set_x (nneg (Circle.r s)) s else s in
  let s := if nlt (Circle.y s) (nneg (Circle.r s))
           then Circle.set_y (nadd (height env) (Circle.r s)) s else s in
  let s := if ngt (Circle.y s) (nadd (height env) (Circle.r s))
           then Circle.set_y (nneg (Circle.r s)) s else s in
  s.

(** Line 206: [const wobble]. *)
Definition drawCircle_wobble (s : Circle.t) (t : number) : number :=
  nmul (Math_sin (nadd (Circle.phase s) (nmul t (Circle.wobble s)))) 0.08.

(** Line 215: [const rad]. *)
Definition drawCircle_rad (s : Circle.t) (t : number) : number :=
  nmul (Circle.r s)
       (nadd 1 (nmul 0.06 (Math_sin (nadd (nmul t 0.9) (Circle.phase s))))).

Definition drawCircle (s : Circle.t) (t : number) : Draw Circle.t :=
  let wobble := drawCircle_wobble s t in
  let s := drawCircle_move s in
  let rad := drawCircle_rad s t in
  emit Save ;;;
  emit (Translate (Circle.x s) (Circle.y s)) ;;;
  emit (SetGlobalCompositeOperation "lighter") ;;;
  let grad := RadialGradient 0 0 (nmul rad 0.1) 0 0 (nmul rad 1.1)
                [ (Fin 0, Token (Circle.fill s));
                  (Fin 1, hexToRgba (Circle.fill s) 0.05) ] in
  emit (SetFillStyle grad) ;;;
  emit BeginPath ;;;
  emit (Arc 0 0 rad 0 TAU) ;;;
  emit Fill ;;;
  emit (SetGlobalCompositeOperation "source-over") ;;;
  emit BeginPath ;;;
  emit (SetFillStyle (Solid (Token (Circle.fill s)))) ;;;
  emit (Arc 0 0 (nmul (nmul rad 0.6) (nadd 1 (nmul wobble 0.6))) 0 TAU) ;;;
  emit Fill ;;;
  when (ngt (Circle.strokeWidth s) 0)
       (emit (SetLineWidth (Circle.strokeWidth s)) ;;;
        emit (SetStrokeStyle (Solid (hexToRgba "#000000" 0.12))) ;;;
        emit StrokePath) ;;;
  emit Restore ;;;
  ret s.

Definition drawTriangle (s : Triangle.t) (t : number) : Draw Triangle.t :=
  emit Save ;;;
  emit (Translate (Triangle.x s) (Triangle.y s)) ;;;
  let s := Triangle.set_rotation
             (nadd (js_or (Triangle.rotation s) 0) (Triangle.rotationSpeed s)) s in
  emit (Rotate (Triangle.rotation s)) ;;;
  let size := Triangle.size s in
  let skew := js_or (Triangle.skew s) 0 in
  emit BeginPath ;;;
  emit (MoveTo 0 (nmul (nneg size) 0.6)) ;;;
  emit (LineTo (nadd (nmul size 0.6) (nmul skew size)) (nmul size 0.4)) ;;;
  emit (LineTo (nadd (nmul (nneg size) 0.6) (nmul skew size)) (nmul size 0.4)) ;;;
  emit ClosePath ;;;
  let g := LinearGradient (nneg size) (nneg size) size size
             [ (Fin 0, Token (Triangle.fill s));
               (Fin 1, hexToRgba (Triangle.fill s) 0.6) ] in
  emit (SetFillStyle g) ;;;
  emit Fill ;;;
  when (truthy_str (Triangle.stroke s))
       (emit (SetLineWidth (Triangle.strokeWidth s)) ;;;
        emit (SetStrokeStyle (colour_of (Triangle.stroke s))) ;;;
        emit StrokePath) ;;;
  emit Restore ;;;
  ret s.

Definition drawRect (s : Rect.t) (t : number) : Draw Rect.t :=
  emit Save ;;;
  emit (Translate (Rect.x s) (Rect.y s)) ;;;
  let s := Rect.set_rotation
             (nadd (js_or (Rect.rotation s) 0) (Rect.rotationSpeed s)) s in
  emit (Rotate (Rect.rotation s)) ;;;
  emit BeginPath ;;;
  emit (RectPath (ndiv (nneg (Rect.w s)) 2) (ndiv (nneg (Rect.h s)) 2)
                 (Rect.w s) (Rect.h s)) ;;;
  let g := LinearGradient (ndiv (nneg (Rect.w s)) 2) (ndiv (nneg (Rect.h s)) 2)
                          (ndiv (Rect.w s) 2) (ndiv (Rect.h s) 2)
             [ (Fin 0, Token (Rect.fill s));
               (Fin 1, hexToRgba (Rect.fill s) 0.6) ] in
  emit (SetFillStyle g) ;;;
  emit Fill ;;;
  when (truthy_str (Rect.stroke s))
       (emit (SetLineWidth (Rect.strokeWidth s)) ;;;
        emit (SetStrokeStyle (colour_of (Rect.stroke s))) ;;;
        emit StrokePath) ;;;
  emit Restore ;;;
  ret s.

(** One round of the loop of [drawStroke]. *)
Definition drawStroke_segment (dx dy : number) (p : Point) : Draw unit :=
  emit (QuadraticCurveTo
          (nadd (nsub (px p) 10) dx) (nadd (nsub (py p) 10) dy)
          (nadd (px p) dx) (nadd (py p) dy)).

(** [drawStroke] reads [pts[0].x] without a guard: on an empty [points]
    that read throws a TypeError, which ends the routine and every caller
    up to the frame callback.  The result says whether the routine
    returned ([true]) or threw ([false]). *)
Definition drawStroke (st : Stroke.t) (t : number) : Draw bool :=
  emit Save ;;;
  emit (SetLineJoin "round") ;;;
  emit (SetLineCap "round") ;;;
  emit BeginPath ;;;
  let dx := nmul (Math_sin (nadd (nmul t (Stroke.drift st)) (Stroke.phase st))) 6 in
  let dy := nmul (Math_cos (nadd (nmul t (Stroke.drift st)) (Stroke.phase st))) 6 in
  match Stroke.points st with
  | [] => ret false
  | p0 :: rest =>
      emit (MoveTo (nadd (px p0) dx) (nadd (py p0) dy)) ;;;
      forEach (drawStroke_segment dx dy) rest ;;;
      emit (SetStrokeStyle (Solid (Token (Stroke.color st)))) ;;;
      emit (SetLineWidth (Stroke.width st)) ;;;
      emit (SetGlobalAlpha 0.9) ;;;
      emit StrokePath ;;;
      emit Restore ;;;
      ret true
  end.

(** The drawn radius of a circle child, line 325. *)
Definition child_radius (c : Child.t) (t : number) : number :=
  nmul (Child.r c)
       (nadd 1 (nmul 0.08 (Math_sin (nadd (nmul t 0.9)
                          (nmul (nadd (Child.x c) (Child.y c)) 0.01))))).

(** The body of the loop over [g.children]. *)
Definition drawChild (t : number) (c : Child.t) : Draw unit :=
  emit Save ;;;
  emit (Translate (Child.x c) (Child.y c)) ;;;
  match Child.kind c with
  | KCircle =>
      let r := child_radius c t in
      emit BeginPath ;;;
      emit (SetFillStyle (Solid (Token (Child.fill c)))) ;;;
      emit (Arc 0 0 r 0 TAU) ;;;
      emit Fill ;;;
      when (truthy_str (Child.stroke c))
           (emit (SetLineWidth (Child.strokeWidth c)) ;;;
            emit (SetStrokeStyle (colour_of (Child.stroke c))) ;;;
            emit StrokePath)
  | KRect =>
      emit (SetFillStyle (Solid (Token (Child.fill c)))) ;;;
      emit (FillRect (ndiv (nneg (Child.w c)) 2) (ndiv (nneg (Child.h c)) 2)
                     (Child.w c) (Child.h c)) ;;;
      when (truthy_str (Child.stroke c))
           (emit (SetLineWidth (Child.strokeWidth c)) ;;;
            emit (SetStrokeStyle (colour_of (Child.stroke c))) ;;;
            emit (StrokeRect (ndiv (nneg (Child.w c)) 2) (ndiv (nneg (Child.h c)) 2)
                             (Child.w c) (Child.h c)))
  | KTriangle =>
      emit BeginPath ;;;
      emit (MoveTo 0 (nneg (Child.r c))) ;;;
      emit (LineTo (Child.r c) (Child.r c)) ;;;
      emit (LineTo (nneg (Child.r c)) (Child.r c)) ;;;
      emit ClosePath ;;;
      emit (SetFillStyle (Solid (Token (Child.fill c)))) ;;;
      emit Fill ;;;
      when (truthy_str (Child.stroke c))
           (emit (SetLineWidth (Child.strokeWidth c)) ;;;
            emit (SetStrokeStyle (colour_of (Child.stroke c))) ;;;
            emit StrokePath)
  end ;;;
  emit Restore.

Definition drawGroup (g : Group.t) (t : number) : Draw Group.t :=
  let g := Group.set_rotation (nadd (Group.rotation g) (Group.speed g)) g in
  emit Save ;;;
  emit (Translate (Group.x g) (Group.y g)) ;;;
  emit (Rotate (nadd (Group.rotation g) (nmul (Math_sin (nmul t 0.2)) 0.03))) ;;;
  emit (Scale (Group.scale g) (Group.scale g)) ;;;
  forEach (drawChild t) (Group.children g) ;;;
  emit Restore ;;;
  ret g.

End Renderer.

(* ------------------------------------------------------------------ *)
(** ** The closure state, the frame callback and the public API *)

Record State : Type := mkState {
  env : Env;                   (* [width], [height] *)
  shapes : list Shape;
  strokes : list Stroke.t;
  groups : list Group.t;
  running : bool;
  last : number;
  time : number;
  ctx : list Cmd;              (* everything issued to the context so far *)
  raf : nat;                   (* [frame] callbacks queued for the next display frame *)
  resizeListening : bool;      (* [resize] registered on [window] *)
  canvasAttached : bool;       (* [canvas.parentNode] is set *)
  apiInstalled : bool          (* [window.__kandinskyPainter] exists *)
}.

Definition set_shapes (v : list Shape) (s : State) : State :=
  mkState (env s) v (strokes s) (groups s) (running s) (last s) (time s)
          (ctx s) (raf s) (resizeListening s) (canvasAttached s) (apiInstalled s).
Definition set_groups (v : list Group.t) (s : State) : State :=
  mkState (env s) (shapes s) (strokes s) v (running s) (last s) (time s)
          (ctx s) (raf s) (resizeListening s) (canvasAttached s) (apiInstalled s).
Definition set_running (v : bool) (s : State) : State :=
  mkState (env s) (shapes s) (strokes s) (groups s) v (last s) (time s)
          (ctx s) (raf s) (resizeListening s) (canvasAttached s) (apiInstalled s).
Definition set_last (v : number) (s : State) : State :=
  mkState (env s) (shapes s) (strokes s) (groups s) (running s) v (time s)
          (ctx s) (raf s) (resizeListening s) (canvasAttached s) (apiInstalled s).
Definition set_time (v : number) (s : State) : State :=
  mkState (env s) (shapes s) (strokes s) (groups s) (running s) (last s) v
          (ctx s) (raf s) (resizeListening s) (canvasAttached s) (apiInstalled s).
Definition set_ctx (v : list Cmd) (s : State) : State :=
  mkState (env s) (shapes s) (strokes s) (groups s) (running s) (last s) (time s)
          v (raf s) (resizeListening s) (canvasAttached s) (apiInstalled s).
Definition set_raf (v : nat) (s : State) : State :=
  mkState (env s) (shapes s) (strokes s) (groups s) (running s) (last s) (time s)
          (ctx s) v (resizeListening s) (canvasAttached s) (apiInstalled s).

(** [requestAnimationFrame(frame)]: one more callback in the queue. *)
Definition requestAnimationFrame (s : State) : State := set_raf (S (raf s)) s.

(** Run a draw routine against the context of the state. *)
Definition run {A : Type} (m : Draw A) (s : State) : A * State :=
  let (a, log) := m (ctx s) in (a, set_ctx log s).

(** The comparator handed to [shapes.sort]. *)
Definition compare_y (a b : Shape) : number :=
  nsub (js_or (shape_y a) 0) (js_or (shape_y b) 0).

(** [Array.prototype.sort] is stable, and this comparator is a difference
    of finite keys, hence consistent: the result is the one list every
    stable sort returns, computed here by insertion. *)
Fixpoint insert_shape (a : Shape) (l : list Shape) : list Shape :=
  match l with
  | [] => [a]
  | b :: l' => if ngt (compare_y a b) 0 then b :: insert_shape a l' else a :: l
  end.

Fixpoint sort_shapes (l : list Shape) : list Shape :=
  match l with
  | [] => []
  | a :: l' => insert_shape a (sort_shapes l')
  end.

Section Frame.
Variable e : Env.
Variable t : number.      (* the clock [time] of this frame *)

(** Deep background ring, lines 391-400. *)
Definition drawRing : Draw unit :=
  emit Save ;;;
  emit (SetGlobalAlpha 0.12) ;;;
  emit (Translate (nmul (width e) 0.5) (nmul (height e) 0.45)) ;;;
  emit (Rotate (nmul (Math_sin (nmul t 0.1)) 0.4)) ;;;
  emit BeginPath ;;;
  emit (Arc 0 0 (nmul (Math_min (width e) (height e)) 0.28) 0 TAU) ;;;
  emit (SetLineWidth (nmul (Math_min (width e) (height e)) 0.1)) ;;;
  emit (SetStrokeStyle (Solid (Token "#FFC857"))) ;;;
  emit StrokePath ;;;
  emit Restore.

(** [for (const s of strokes) drawStroke(s, time)], stopping at the first
    call that throws. *)
Fixpoint drawStrokes (l : list Stroke.t) : Draw bool :=
  match l with
  | [] => ret true
  | s :: l' =>
      ok <- drawStroke s t ;;
      if ok then drawStrokes l' else ret false
  end.

(** The parallax factor, line 412. *)
Definition parallax (s : Shape) : number :=
  nadd 1 (nmul (nsub (ndiv (shape_y s) (height e)) 0.5) 0.08).

(** The increment added to a triangle's [x], line 419:
    [Math.sin(time * 0.18 + s.phase || 0) * 0.01 * par]. *)
Definition triangle_drift (s : Triangle.t) (par : number) : number :=
  nmul (nmul (Math_sin (js_or (js_plus (nmul t 0.18) (Triangle.phase s)) 0)) 0.01) par.

(** The body of the loop over [shapes], lines 412-423. *)
Definition frame_shape (s : Shape) : Draw Shape :=
  let par := parallax s in
  match s with
  | SCircle c =>
      let c := Circle.set_x
                 (nadd (Circle.x c)
                    (nmul (nmul (Math_sin (nadd (nmul t 0.2)
                                   (nmul (nadd (Circle.x c) (Circle.y c)) 0.001)))
                                0.02) par)) c in
      let c := Circle.set_y
                 (nadd (Circle.y c)
                    (nmul (nmul (Math_cos (nadd (nmul t 0.14)
                                   (nmul (nsub (Circle.x c) (Circle.y c)) 0.001)))
                                0.02) par)) c in
      c' <- drawCircle e c t ;; ret (SCircle c')
  | STriangle s =>
      let s := Triangle.set_x (nadd (Triangle.x s) (triangle_drift s par)) s in
      s' <- drawTriangle s t ;; ret (STriangle s')
  | SRect s =>
      s' <- drawRect s t ;; ret (SRect s')
  end.

(** Small overlay accent, lines 427-440. *)
Definition drawAccent : Draw unit :=
  emit Save ;;;
  emit (SetGlobalAlpha 0.95) ;;;
  emit (Translate (nmul (width e) 0.85) (nmul (height e) 0.18)) ;;;
  emit (Rotate (nmul (Math_sin (nmul t 0.6)) 0.6)) ;;;
  emit BeginPath ;;;
  emit (SetFillStyle (Solid (Token "#000"))) ;;;
  emit (Arc 0 0 22 0 TAU) ;;;
  emit Fill ;;;
  emit BeginPath ;;;
  emit (SetFillStyle (Solid (Token "#fff"))) ;;;
  emit (Arc (-6) (-6) 6 0 TAU) ;;;
  emit Fill ;;;
  emit Restore.

(** Signature mark, lines 443-458. *)
Definition drawSignature : Draw unit :=
  emit Save ;;;
  emit (Translate (nmul (width e) 0.06) (nmul (height e) 0.92)) ;;;
  emit (Rotate (nadd (-0.12) (nmul (Math_sin (nmul t 0.4)) 0.02))) ;;;
  emit (SetGlobalAlpha 0.9) ;;;
  emit (SetFillStyle (Solid (Token "#3A7CA5"))) ;;;
  emit (FillRect 0 0 10 36) ;;;
  emit BeginPath ;;;
  emit (MoveTo 8 18) ;;;
  emit (LineTo 34 0) ;;;
  emit (LineTo 34 6) ;;;
  emit (LineTo 12 22) ;;;
  emit (LineTo 34 36) ;;;
  emit (LineTo 34 42) ;;;
  emit ClosePath ;;;
  emit Fill ;;;
  emit Restore.

End Frame.

(** The callback handed to [requestAnimationFrame]. *)
Definition frame (now : number) (s : State) : State :=
  let dt := Math_min 40 (nsub now (last s)) in
  let s := set_last now s in
  if negb (running s) then requestAnimationFrame s
  else
    let s := set_time (nadd (time s) (nmul dt 0.001)) s in
    let e := env s in
    let t := time s in
    let (_, s) := run (emit (ClearRect 0 0 (width e) (height e))) s in
    let (_, s) := run (drawBackgroundTexture e) s in
    let (_, s) := run (drawRing e t) s in
    let (gs, s) := run (forEach (fun g => drawGroup g t) (groups s)) s in
    let s := set_groups gs s in
    let (ok, s) := run (drawStrokes t (strokes s)) s in
    if ok then
      let s := set_shapes (sort_shapes (shapes s)) s in
      let (ss, s) := run (forEach (frame_shape e t) (shapes s)) s in
      let s := set_shapes ss s in
      let (_, s) := run (drawAccent e t) s in
      let (_, s) := run (drawSignature e t) s in
      requestAnimationFrame s
    else
      (* a TypeError left the callback: nothing after the strokes runs *)
      s.

(** One display frame: the browser runs the callbacks queued before it;
    what they queue is for the next one. *)
Definition tick (now : number) (s : State) : State :=
  Nat.iter (raf s) (frame now) (set_raf O s).

(** [window.__kandinskyPainter]; [now] is what [performance.now()]
    returns during the call. *)
Definition pause (s : State) : State := set_running false s.

Definition resume (now : number) (s : State) : State :=
  set_last now (set_running true s).

Definition toggle (now : number) (s : State) : State :=
  set_last now (set_running (negb (running s)) s).

Definition destroy (s : State) : State :=
  let s := set_running false s in
  mkState (env s) (shapes s) (strokes s) (groups s) (running s) (last s) (time s)
          (ctx s) (raf s) false false false.

(** The state once the script has run to its end: the scene populated
    from [src], the first callback queued. *)
Definition start (e : Env) (src : Source) (now : number) : State :=
  let '(ss, sks, gs) := fst (populate e src) in
  mkState e ss sks gs true now 0 [] 1 true true true.

Definition set_env (v : Env) (s : State) : State :=
  mkState v (shapes s) (strokes s) (groups s) (running s) (last s) (time s)
          (ctx s) (raf s) (resizeListening s) (canvasAttached s) (apiInstalled s).

(** The [resize] listener of [window]: it runs only while registered. *)
Definition on_resize (dpr innerWidth innerHeight : number) (s : State) : State :=
  if resizeListening s then set_env (fst (resize dpr innerWidth innerHeight)) s
  else s.

(** The [click] listener of the canvas, lines 479-481.  It is never
    removed; it reads [window.__kandinskyPainter] anew at each click, and
    once that property is deleted the read of [.toggle] throws a TypeError
    before anything is changed. *)
Definition on_click (now : number) (s : State) : State :=
  if apiInstalled s then toggle now s else s.

(* ------------------------------------------------------------------ *)
(** ** Vocabulary of the statements *)

(** What a draw routine issues and returns when started on an empty log;
    [appends] says that this is all there is to it: the routine never
    looks at, nor rewrites, what was issued before. *)
Definition log_of {A : Type} (m : Draw A) : list Cmd := snd (m []).
Definition result_of {A : Type} (m : Draw A) : A := fst (m []).

Definition appends {A : Type} (m : Draw A) : Prop :=
  forall log, m log = (result_of m, log ++ log_of m).

(** The clock after a running frame called at [now]. *)
Definition frame_time (now : number) (s : State) : number :=
  nadd (time s) (nmul (Math_min 40 (nsub now (last s))) 0.001).

(** A stroke [drawStroke] can draw: its polyline has a first point. *)
Definition stroke_ok (k : Stroke.t) : Prop := Stroke.points k <> [].

(** The key of a shape under the comparator of [shapes.sort]: [s.y || 0]. *)
Definition sort_key (s : Shape) : R :=
  match js_or (shape_y s) 0 with
  | Fin r => r
  | NaN => 0
  end.

(** A run of display frames, at the given times. *)
Definition ticks (nows : list number) (s : State) : State :=
  fold_left (fun st now => tick now st) nows s.

(** A triangle as [makeTriangle] leaves it in what the drift reads: no
    [phase] property, a finite [y].  Other shapes are not constrained. *)
Definition triangle_as_made (sh : Shape) : Prop :=
  match sh with
  | STriangle t => Triangle.phase t = Undefined /\ exists y, Triangle.y t = Fin y
  | _ => True
  end.

(** The positions of the triangles of a list of shapes, in list order. *)
Definition triangle_xy (l : list Shape) : list (number * number) :=
  flat_map (fun sh => match sh with
                      | STriangle t => [(Triangle.x t, Triangle.y t)]
                      | _ => []
                      end) l.

(** A generator keeps an admissible source admissible. *)
Definition keeps_unit {A : Type} (m : Gen A) : Prop :=
  forall src, unit_source src -> unit_source (snd (m src)).

(** What can happen to a running sketch: a display frame, or a call of the
    public API. *)
Inductive Event : Type :=
| Tick (now : number)
| Pause
| Resume (now : number)
| Toggle (now : number)
| Destroy.

Definition step (s : State) (ev : Event) : State :=
  match ev with
  | Tick now => tick now s
  | Pause => pause s
  | Resume now => resume now s
  | Toggle now => toggle now s
  | Destroy => destroy s
  end.

Definition run_events (evs : list Event) (s : State) : State :=
  fold_left step evs s.

(** The scene as the generators leave it, on a surface of finite non-zero
    height [h]: drawable strokes, triangles as made. *)
Definition well_formed (h : R) (s : State) : Prop :=
  height (env s) = Fin h /\ h <> 0 /\
  Forall stroke_ok (strokes s) /\ Forall triangle_as_made (shapes s).

(** What the host can do to the page without holding the API object: let
    a display frame pass, click the canvas, resize the window. *)
Inductive HostEvent : Type :=
| HTick (now : number)
| HClick (now : number)
| HResize (dpr innerWidth innerHeight : number).

Definition host_step (s : State) (ev : HostEvent) : State :=
  match ev with
  | HTick now => tick now s
  | HClick now => on_click now s
  | HResize d w h => on_resize d w h s
  end.

Definition run_host (evs : list HostEvent) (s : State) : State :=
  fold_left host_step evs s.

(** Depth of the [save]/[restore] stack after a list of commands, started
    at depth [d]; [None] when a [restore] meets an empty stack. *)
Fixpoint depth_after (d : nat) (log : list Cmd) : option nat :=
  match log with
  | [] => Some d
  | Save :: log' => depth_after (S d) log'
  | Restore :: log' =>
      match d with
      | O => None
      | S d' => depth_after d' log'
      end
  | _ :: log' => depth_after d log'
  end.

(** A list of commands that leaves the stack as it found it, at every
    starting depth. *)
Definition balanced (log : list Cmd) : Prop :=
  forall d, depth_after d log = Some d.

Definition is_circle (sh : Shape) : bool :=
  match sh with SCircle _ => true | _ => false end.
Definition is_triangle (sh : Shape) : bool :=
  match sh with STriangle _ => true | _ => false end.
Definition is_rect (sh : Shape) : bool :=
  match sh with SRect _ => true | _ => false end.

(** The fields of the rectangles of a list of shapes that say where they
    are and how large, in list order. *)
Definition rect_geometry (l : list Shape) : list (number * number * number * number) :=
  flat_map (fun sh => match sh with
                      | SRect r => [(Rect.x r, Rect.y r, Rect.w r, Rect.h r)]
                      | _ => []
                      end) l.

(** The fields of a circle that no routine writes. *)
Definition circle_core (c : Circle.t) :=
  (Circle.r c, Circle.fill c, Circle.stroke c, Circle.strokeWidth c,
   Circle.vx c, Circle.vy c, Circle.wobble c, Circle.phase c).

Definition circle_cores (l : list Shape) :=
  flat_map (fun sh => match sh with
                      | SCircle c => [circle_core c]
                      | _ => []
                      end) l.

(** One more frame of rotation for a group. *)
Definition turn (g : Group.t) : Group.t :=
  Group.set_rotation (nadd (Group.rotation g) (Group.speed g)) g.

(** A child as [makeGroup] places and sizes it in a group of scale [sc]:
    at a distance between [30 sc] and [140 sc] from the centre of the
    group, every size proportional to [sc]; every interval with both
    ends. *)
Definition child_as_made (sc : R) (c : Child.t) : Prop :=
  exists x y d r w h sw,
    Child.x c = Fin x /\ Child.y c = Fin y /\
    x * x + y * y = d * d /\ 30 * sc <= d <= 140 * sc /\
    Child.r c = Fin r /\ 8 * sc <= r <= 48 * sc /\
    Child.w c = Fin w /\ 18 * sc <= w <= 80 * sc /\
    Child.h c = Fin h /\ 12 * sc <= h <= 60 * sc /\
    Child.strokeWidth c = Fin sw /\ 0.5 <= sw <= 3 /\
    In (Child.fill c) PALETTE /\
    (Child.stroke c = None \/ Child.stroke c = Some "#000"%string).

(** A hatch line as [drawBackgroundTexture] draws it on a surface of size
    [w] by [h]: from the top edge, left of [w], down to the bottom edge,
    [h] further to the right. *)
Definition hatch_cmd_ok (w h : R) (c : Cmd) : Prop :=
  match c with
  | MoveTo (Fin x) (Fin y) => - h <= x < w /\ y = 0
  | LineTo (Fin x) (Fin y) => 0 <= x < w + h /\ y = h
  | MoveTo _ _ | LineTo _ _ => False
  | _ => True
  end.

Definition is_stroke_cmd (c : Cmd) : bool :=
  match c with StrokePath => true | _ => false end.

(** A circle whose centre lies in the surface padded by its radius. *)
Definition circle_in_view (w h : R) (sh : Shape) : Prop :=
  match sh with
  | SCircle c =>
      exists x y r vx vy,
        Circle.x c = Fin x /\ Circle.y c = Fin y /\ Circle.r c = Fin r /\
        Circle.vx c = Fin vx /\ Circle.vy c = Fin vy /\
        0 <= r /\ - r <= x <= w + r /\ - r <= y <= h + r
  | _ => True
  end.


(** An event whose timestamp is a finite number. *)
Definition finite_event (ev : Event) : Prop :=
  match ev with
  | Tick (Fin _) | Resume (Fin _) | Toggle (Fin _) | Pause | Destroy => True
  | Tick NaN | Resume NaN | Toggle NaN => False
  end.

(** A state on a surface of finite size [w] by [h] whose clock and last
    timestamp are finite and whose circles are all in view. *)
Definition in_view_state (w h : R) (s : State) : Prop :=
  width (env s) = Fin w /\ height (env s) = Fin h /\
  (exists l, last s = Fin l) /\ (exists c, time s = Fin c) /\
  Forall (circle_in_view w h) (shapes s).

(** What a channel returned by [hexToRgba] can be: [NaN], or an integer
    from -15 to 255. *)
Definition channel_ok (n : number) : Prop :=
  n = NaN \/ exists z, n = Fin (IZR z) /\ (-15 <= z <= 255)%Z.

(** A command that, if it is an arc, has a finite radius above 0 and
    below [m]. *)
Definition arc_below (m : R) (c : Cmd) : Prop :=
  match c with
  | Arc _ _ (Fin rho) _ _ => 0 < rho < m
  | Arc _ _ NaN _ _ => False
  | _ => True
  end.

(* ================================================================== *)
(** * Properties *)

(** ** Numbers *)

Lemma nlt_Fin (a b : R) : nlt (Fin a) (Fin b) = true <-> a < b.
Proof.
  unfold nlt. destruct (Rlt_dec a b); split; intros; try easy; try discriminate.
Qed.

Lemma nlt_Fin_false (a b : R) : nlt (Fin a) (Fin b) = false <-> b <= a.
Proof.
  unfold nlt. destruct (Rlt_dec a b); split; intros; try easy; try lra.
Qed.

Lemma ngt_Fin (a b : R) : ngt (Fin a) (Fin b) = true <-> b < a.
Proof. apply nlt_Fin. Qed.

Lemma ngt_Fin_false (a b : R) : ngt (Fin a) (Fin b) = false <-> a <= b.
Proof. apply nlt_Fin_false. Qed.

Lemma nadd_zero_r (a : number) : nadd a (Fin 0) = a.
Proof. destruct a; simpl; [reflexivity | f_equal; lra]. Qed.

Lemma Int_part_IZR (z : Z) : Int_part (IZR z) = z.
Proof. symmetry. apply Int_part_spec. lra. Qed.

Lemma loop_count_IZR (z : Z) : loop_count (Fin (IZR z)) = Z.to_nat z.
Proof.
  unfold loop_count. rewrite <- opp_IZR, Int_part_IZR. f_equal. lia.
Qed.

(** [loop_count] counts what the loop header says: round [k] is run
    exactly when [k < bound]. *)
Lemma loop_count_spec (b : R) (k : nat) :
  (k < loop_count (Fin b))%nat <-> INR k < b.
Proof.
  unfold loop_count. destruct (base_Int_part (- b)) as [Hle Hgt].
  set (c := (- Int_part (- b))%Z).
  assert (Hc : IZR c = - IZR (Int_part (- b))) by (unfold c; apply opp_IZR).
  rewrite INR_IZR_INZ.
  assert (Hk : (k < Z.to_nat c)%nat <-> (Z.of_nat k < c)%Z) by lia.
  rewrite Hk. split; intros H.
  - assert (H1 : (Z.of_nat k <= c - 1)%Z) by lia.
    apply IZR_le in H1. rewrite minus_IZR in H1. lra.
  - apply lt_IZR. lra.
Qed.

(** The hatch loop: with a positive [step], round [k] starts at
    [x = -height + k * step], and it is run exactly when that [x] is below
    [width]. *)
Lemma hatch_rounds (w h st : R) (k : nat) :
  0 < st ->
  (k < loop_count (ndiv (nadd (Fin w) (Fin h)) (Fin st)))%nat
  <-> - h + INR k * st < w.
Proof.
  intros Hst. cbn [nadd lift2 ndiv].
  destruct (Req_dec_T st 0) as [Hz|_]; [lra|].
  rewrite loop_count_spec. split; intros H.
  - apply (Rmult_lt_compat_r st) in H; [|exact Hst].
    unfold Rdiv in H. rewrite Rmult_assoc, Rinv_l in H by lra. lra.
  - apply (Rmult_lt_reg_r st); [exact Hst|].
    unfold Rdiv. rewrite Rmult_assoc, Rinv_l by lra. lra.
Qed.

(** Case analysis on every comparison of reals left in the goal. *)
Ltac decide_lt :=
  repeat match goal with
  | |- context [Rlt_dec ?a ?b] => destruct (Rlt_dec a b); cbn
  end.

(** ** The draw routines only append to the context log *)

Lemma appends_ret {A : Type} (a : A) : appends (ret (S := list Cmd) a).
Proof. intros log. unfold ret, result_of, log_of. simpl. now rewrite app_nil_r. Qed.

Lemma appends_emit (c : Cmd) : appends (emit c).
Proof. intros log. reflexivity. Qed.

Lemma appends_bind {A B : Type} (m : Draw A) (k : A -> Draw B) :
  appends m -> (forall a, appends (k a)) -> appends (bind m k).
Proof.
  intros Hm Hk log. unfold bind, result_of, log_of.
  rewrite (Hm log), (Hm []). simpl.
  rewrite (Hk (result_of m) (log ++ log_of m)), (Hk (result_of m) (log_of m)).
  simpl. now rewrite app_assoc.
Qed.

Lemma appends_when (b : bool) (m : Draw unit) : appends m -> appends (when b m).
Proof. destruct b; simpl; [easy | intros _; apply appends_ret]. Qed.

Lemma appends_forEach {A B : Type} (body : A -> Draw B) (l : list A) :
  (forall a, appends (body a)) -> appends (forEach body l).
Proof.
  intros Hb. induction l as [|a l IH]; simpl.
  - apply appends_ret.
  - apply appends_bind; [apply Hb|]. intros b.
    apply appends_bind; [apply IH|]. intros bs. apply appends_ret.
Qed.

Lemma appends_if {A : Type} (b : bool) (m1 m2 : Draw A) :
  appends m1 -> appends m2 -> appends (if b then m1 else m2).
Proof. now destruct b. Qed.

Create HintDb draw.
#[local] Hint Resolve appends_ret appends_emit : draw.

Ltac appends_tac :=
  repeat first
    [ solve [auto with draw]
    | apply appends_when | apply appends_if
    | apply appends_forEach; intros ?
    | apply appends_bind; [| intros ?] ].

Lemma appends_hatch (e : Env) (step : number) (n : nat) (x : number) :
  appends (hatch e step n x).
Proof.
  revert x. induction n as [|n IH]; intros x; simpl; appends_tac.
Qed.
#[local] Hint Resolve appends_hatch : draw.

Lemma appends_drawWash (e : Env) : appends (drawWash e).
Proof. unfold drawWash. appends_tac. Qed.

Example drawWash_log (e : Env) :
  log_of (drawWash e)
  = [ SetFillStyle (LinearGradient 0 0 (width e) (height e)
                      [ (Fin 0, Token "#FFF9F2"); (Fin 1, Token "#F0F7FF") ]);
      FillRect 0 0 (width e) (height e) ].
Proof. reflexivity. Qed.

Lemma appends_drawHatch (e : Env) : appends (drawHatch e).
Proof. unfold drawHatch. appends_tac. Qed.
#[local] Hint Resolve appends_drawWash appends_drawHatch : draw.

Lemma appends_drawBackgroundTexture (e : Env) : appends (drawBackgroundTexture e).
Proof. unfold drawBackgroundTexture. appends_tac. Qed.

Lemma appends_drawCircle (e : Env) (s : Circle.t) (t : number) :
  appends (drawCircle e s t).
Proof. unfold drawCircle. appends_tac. Qed.

Lemma appends_drawTriangle (s : Triangle.t) (t : number) : appends (drawTriangle s t).
Proof. unfold drawTriangle. appends_tac. Qed.

Lemma appends_drawRect (s : Rect.t) (t : number) : appends (drawRect s t).
Proof. unfold drawRect. appends_tac. Qed.

Lemma appends_drawStroke_segment (dx dy : number) (p : Point) :
  appends (drawStroke_segment dx dy p).
Proof. unfold drawStroke_segment. appends_tac. Qed.
#[local] Hint Resolve appends_drawStroke_segment : draw.

Lemma appends_drawStroke (s : Stroke.t) (t : number) : appends (drawStroke s t).
Proof.
  unfold drawStroke. appends_tac.
  destruct (Stroke.points s); appends_tac.
Qed.

Lemma appends_drawChild (t : number) (c : Child.t) : appends (drawChild t c).
Proof. unfold drawChild. appends_tac. destruct (Child.kind c); appends_tac. Qed.
#[local] Hint Resolve appends_drawBackgroundTexture appends_drawCircle
  appends_drawTriangle appends_drawRect appends_drawStroke appends_drawChild : draw.

Lemma appends_drawGroup (g : Group.t) (t : number) : appends (drawGroup g t).
Proof. unfold drawGroup. appends_tac. Qed.

Lemma appends_drawRing (e : Env) (t : number) : appends (drawRing e t).
Proof. unfold drawRing. appends_tac. Qed.

Lemma appends_drawAccent (e : Env) (t : number) : appends (drawAccent e t).
Proof. unfold drawAccent. appends_tac. Qed.

Lemma appends_drawSignature (e : Env) (t : number) : appends (drawSignature e t).
Proof. unfold drawSignature. appends_tac. Qed.

Lemma appends_frame_shape (e : Env) (t : number) (s : Shape) :
  appends (frame_shape e t s).
Proof. unfold frame_shape. destruct s; appends_tac. Qed.

Lemma appends_drawStrokes (t : number) (l : list Stroke.t) : appends (drawStrokes t l).
Proof.
  induction l as [|s l IH]; simpl; appends_tac.
Qed.
#[local] Hint Resolve appends_drawGroup appends_drawRing appends_drawAccent
  appends_drawSignature appends_frame_shape appends_drawStrokes : draw.

(** ** Wrap-around of circles *)

Lemma drawCircle_result (e : Env) (s : Circle.t) (t : number) (log : list Cmd) :
  fst (drawCircle e s t log) = drawCircle_move e s.
Proof.
  rewrite (appends_drawCircle e s t log). unfold result_of, drawCircle.
  unfold bind, emit, when, ret.
  destruct (ngt (Circle.strokeWidth (drawCircle_move e s)) (Fin 0)); reflexivity.
Qed.

(** ** The pulsing radius *)

Lemma drawCircle_move_keeps (e : Env) (c : Circle.t) :
  Circle.r (drawCircle_move e c) = Circle.r c /\
  Circle.phase (drawCircle_move e c) = Circle.phase c /\
  Circle.vx (drawCircle_move e c) = Circle.vx c /\
  Circle.vy (drawCircle_move e c) = Circle.vy c /\
  Circle.wobble (drawCircle_move e c) = Circle.wobble c /\
  Circle.fill (drawCircle_move e c) = Circle.fill c /\
  Circle.strokeWidth (drawCircle_move e c) = Circle.strokeWidth c.
Proof.
  unfold drawCircle_move.
  repeat match goal with
         | |- context [if ?b then _ else _] => destruct b
         end; repeat split; reflexivity.
Qed.

Lemma drawCircle_rad_move (e : Env) (c : Circle.t) (t : number) :
  drawCircle_rad (drawCircle_move e c) t = drawCircle_rad c t.
Proof.
  unfold drawCircle_rad.
  destruct (drawCircle_move_keeps e c) as (-> & -> & _). reflexivity.
Qed.

(** ** The colour helper *)

(** [parseInt(s, 16)] on a few inputs, as a JavaScript engine answers. *)
Example parseInt16_samples :
  parseInt16_Z "FF" = Some 255%Z /\ parseInt16_Z "5a" = Some 90%Z /\
  parseInt16_Z "1g" = Some 1%Z /\ parseInt16_Z "g1" = None /\
  parseInt16_Z "-1" = Some (-1)%Z /\ parseInt16_Z " 7" = Some 7%Z /\
  parseInt16_Z "0x" = None /\ parseInt16_Z EmptyString = None.
Proof. repeat split; reflexivity. Qed.

Example hexToRgba_palette :
  hexToRgba "#F23B5A" 0.6 = Rgba 242 59 90 0.6 /\
  hexToRgba "#3A7CA5" 0.05 = Rgba 58 124 165 0.05 /\
  hexToRgba "#000000" 0.12 = Rgba 0 0 0 0.12.
Proof. repeat split; reflexivity. Qed.

Lemma parseInt16_Z_doubled (c : ascii) (v : Z) :
  hex_digit c = Some v ->
  parseInt16_Z (String c (String c EmptyString)) = Some (17 * v)%Z.
Proof.
  intros H.
  destruct c as [[] [] [] [] [] [] [] []]; vm_compute in H;
    first [ discriminate H | injection H as <-; vm_compute; reflexivity ].
Qed.

(** ** Point count of strokes *)


Lemma forEach_length {S A B : Type} (body : A -> ST S B) (l : list A) (s : S) :
  List.length (fst (forEach body l s)) = List.length l.
Proof.
  revert s. induction l as [|a l IH]; intros s; [reflexivity|].
  cbn [forEach]. unfold bind at 1. destruct (body a s) as [b s1].
  unfold bind at 1. specialize (IH s1).
  destruct (forEach body l s1) as [bs s2]. cbn in *. now rewrite IH.
Qed.

Lemma Int_part_rand_3_8 (u : R) :
  0 <= u < 1 -> (3 <= Int_part (3 + u * (8 - 3)) <= 7)%Z.
Proof.
  intros Hu. set (x := 3 + u * (8 - 3)).
  destruct (base_Int_part x) as [Hle Hgt].
  assert (Hx : 3 <= x < 8) by (unfold x; lra).
  split.
  - assert (H : (2 < Int_part x)%Z) by (apply lt_IZR; lra). lia.
  - assert (H : (Int_part x < 8)%Z) by (apply lt_IZR; lra). lia.
Qed.

Lemma buildWavyLine_length (e : Env) (cx cy scale : number) (src : Source) :
  0 <= src O < 1 ->
  List.length (fst (buildWavyLine e cx cy scale src))
  = Z.to_nat (Int_part (3 + src O * (8 - 3)) + 1).
Proof.
  intros Hu. unfold buildWavyLine.
  unfold bind at 1. unfold rand at 1, bind at 1, Math_random at 1, ret at 1.
  unfold bind at 1.
  destruct (rand (Fin 120) (nmul (Math_min (width e) (height e)) (Fin 0.8))
                 (fun n => src (S n))) as [l s1].
  unfold bind at 1. destruct (rand (Fin 0) TAU s1) as [angle s2].
  rewrite forEach_length, length_seq.
  cbn [nadd nmul nsub lift2 Math_floor].
  rewrite <- (plus_IZR _ 1). apply loop_count_IZR.
Qed.

Lemma makeStroke_points (e : Env) (src : Source) :
  exists cx cy scale,
    Stroke.points (fst (makeStroke e src))
    = fst (buildWavyLine e cx cy scale (fun n => src (3 + n)%nat)).
Proof.
  unfold makeStroke.
  unfold bind at 1. destruct (rand (Fin 100) (nsub (width e) (Fin 100)) src) as [cx s1] eqn:E1.
  unfold bind at 1. destruct (rand (Fin 100) (nsub (height e) (Fin 100)) s1) as [cy s2] eqn:E2.
  unfold bind at 1. destruct (rand (Fin 0.3) (Fin 1.5) s2) as [sc s3] eqn:E3.
  exists cx, cy, sc.
  assert (Hs3 : s3 = fun n => src (3 + n)%nat).
  { unfold rand, bind, Math_random, ret in E1, E2, E3.
    injection E1 as _ <-. injection E2 as _ <-. injection E3 as _ <-. reflexivity. }
  subst s3.
  unfold bind at 1.
  destruct (buildWavyLine e cx cy sc (fun n => src (3 + n)%nat)) as [pts s4].
  unfold bind at 1. destruct (pick_colour s4) as [col s5].
  unfold bind at 1. destruct (rand (Fin 1.2) (Fin 6) s5) as [w s6].
  unfold bind at 1. destruct (rand (Fin 0.001) (Fin 0.006) s6) as [dr s7].
  unfold bind at 1. destruct (rand (Fin 0) TAU s7) as [ph s8].
  reflexivity.
Qed.

(** ** The frame callback, step by step *)

Lemma bind_result {A B : Type} (m : Draw A) (k : A -> Draw B) :
  appends m -> (forall a, appends (k a)) ->
  result_of (bind m k) = result_of (k (result_of m)).
Proof.
  intros Hm Hk. unfold result_of at 1. unfold bind.
  rewrite (Hm []). cbn [app]. now rewrite (Hk (result_of m) (log_of m)).
Qed.

Lemma bind_log {A B : Type} (m : Draw A) (k : A -> Draw B) :
  appends m -> (forall a, appends (k a)) ->
  log_of (bind m k) = log_of m ++ log_of (k (result_of m)).
Proof.
  intros Hm Hk. unfold log_of at 1. unfold bind.
  rewrite (Hm []). cbn [app]. now rewrite (Hk (result_of m) (log_of m)).
Qed.

Lemma forEach_result {A B : Type} (body : A -> Draw B) (l : list A) :
  (forall a, appends (body a)) ->
  result_of (forEach body l) = map (fun a => result_of (body a)) l.
Proof.
  intros Hb. induction l as [|a l IH]; [reflexivity|]. cbn [forEach map].
  rewrite bind_result; [| apply Hb | intros; appends_tac; now apply appends_forEach].
  rewrite bind_result; [| now apply appends_forEach | intros; appends_tac].
  now rewrite IH.
Qed.

Lemma forEach_log {A B : Type} (body : A -> Draw B) (l : list A) :
  (forall a, appends (body a)) ->
  log_of (forEach body l) = flat_map (fun a => log_of (body a)) l.
Proof.
  intros Hb. induction l as [|a l IH]; [reflexivity|]. cbn [forEach flat_map].
  rewrite bind_log; [| apply Hb | intros; appends_tac; now apply appends_forEach].
  rewrite bind_log; [| now apply appends_forEach | intros; appends_tac].
  rewrite IH. unfold log_of at 3. cbn. now rewrite app_nil_r.
Qed.

Lemma drawStroke_returns (k : Stroke.t) (t : number) :
  stroke_ok k -> result_of (drawStroke k t) = true.
Proof.
  unfold stroke_ok, result_of, drawStroke, bind, emit, ret. intros Hk.
  destruct (Stroke.points k) as [|p0 rest]; [contradiction|]. cbn.
  match goal with |- context [forEach ?b ?l ?s] => destruct (forEach b l s) end.
  reflexivity.
Qed.

Lemma drawStroke_throws (k : Stroke.t) (t : number) :
  Stroke.points k = [] -> result_of (drawStroke k t) = false.
Proof.
  unfold result_of, drawStroke, bind, emit, ret. intros ->. reflexivity.
Qed.

Lemma drawStrokes_returns (t : number) (l : list Stroke.t) :
  Forall stroke_ok l ->
  result_of (drawStrokes t l) = true /\
  log_of (drawStrokes t l) = flat_map (fun k => log_of (drawStroke k t)) l.
Proof.
  induction 1 as [|k l Hk Hl [IHr IHl]]; [split; reflexivity|].
  cbn [drawStrokes flat_map].
  rewrite bind_result, bind_log; auto with draw;
    try (intros []; auto with draw).
  rewrite (drawStroke_returns k t Hk). now rewrite IHr, IHl.
Qed.

Lemma frame_paused (now : number) (s : State) :
  running s = false -> frame now s = requestAnimationFrame (set_last now s).
Proof. intros H. unfold frame. cbn [running set_last]. now rewrite H. Qed.

(** The context log once the strokes are done. *)
Lemma frame_running (now : number) (s : State) :
  running s = true ->
  let e := env s in
  let t := frame_time now s in
  let gs := result_of (forEach (fun g => drawGroup g t) (groups s)) in
  let log1 := ctx s ++ [ClearRect 0 0 (width e) (height e)]
                ++ log_of (drawBackgroundTexture e)
                ++ log_of (drawRing e t)
                ++ log_of (forEach (fun g => drawGroup g t) (groups s))
                ++ log_of (drawStrokes t (strokes s)) in
  frame now s =
  if result_of (drawStrokes t (strokes s)) then
    mkState e (result_of (forEach (frame_shape e t) (sort_shapes (shapes s))))
            (strokes s) gs true now t
            (log1 ++ log_of (forEach (frame_shape e t) (sort_shapes (shapes s)))
                  ++ log_of (drawAccent e t) ++ log_of (drawSignature e t))
            (S (raf s)) (resizeListening s) (canvasAttached s) (apiInstalled s)
  else
    mkState e (shapes s) (strokes s) gs true now t log1
            (raf s) (resizeListening s) (canvasAttached s) (apiInstalled s).
Proof.
  intros Hrun.
  destruct s as [e0 sh sk g run0 l0 t0 c q rl ca api]. cbn in Hrun. subst run0.
  cbv zeta. unfold frame_time, frame, run.
  cbn [ctx set_time set_last set_ctx set_groups set_shapes env time last negb
       shapes strokes groups raf resizeListening canvasAttached apiInstalled running].
  set (t := nadd t0 (nmul (Math_min (Fin 40) (nsub now l0)) (Fin 0.001))).
  cbn [emit].
  rewrite (appends_drawBackgroundTexture e0 _).
  cbn [ctx set_time set_last set_ctx set_groups set_shapes env time last
       shapes strokes groups raf resizeListening canvasAttached apiInstalled running].
  rewrite (appends_drawRing e0 t _).
  cbn [ctx set_time set_last set_ctx set_groups set_shapes env time last
       shapes strokes groups raf resizeListening canvasAttached apiInstalled running].
  rewrite (appends_forEach (fun g => drawGroup g t) g (fun a => appends_drawGroup a t) _).
  cbn [ctx set_time set_last set_ctx set_groups set_shapes env time last
       shapes strokes groups raf resizeListening canvasAttached apiInstalled running].
  rewrite (appends_drawStrokes t sk _).
  cbn [ctx set_time set_last set_ctx set_groups set_shapes env time last
       shapes strokes groups raf resizeListening canvasAttached apiInstalled running].
  destruct (result_of (drawStrokes t sk)).
  - rewrite (appends_forEach (frame_shape e0 t) (sort_shapes sh)
               (appends_frame_shape e0 t) _).
    cbn [ctx set_time set_last set_ctx set_groups set_shapes env time last
         shapes strokes groups raf resizeListening canvasAttached apiInstalled running].
    rewrite (appends_drawAccent e0 t _).
    cbn [ctx set_time set_last set_ctx set_groups set_shapes env time last
         shapes strokes groups raf resizeListening canvasAttached apiInstalled running].
    rewrite (appends_drawSignature e0 t _).
    unfold requestAnimationFrame, set_raf.
    cbn [ctx set_time set_last set_ctx set_groups set_shapes env time last
         shapes strokes groups raf resizeListening canvasAttached apiInstalled running].
    f_equal. now rewrite <- !app_assoc.
  - f_equal. now rewrite <- !app_assoc.
Qed.

(** ** What each routine issues *)

Lemma flat_map_singleton {A B : Type} (f : A -> B) (l : list A) :
  flat_map (fun a => [f a]) l = map f l.
Proof. induction l as [|a l IH]; cbn; [reflexivity | now rewrite IH]. Qed.

Lemma drawHatch_log (e : Env) :
  exists st n,
    log_of (drawHatch e)
    = [Save; SetGlobalAlpha 0.04; SetStrokeStyle (Solid (Token "#000"));
       SetLineWidth 1]
        ++ log_of (hatch e st n (nneg (height e))) ++ [Restore].
Proof.
  do 2 eexists. unfold log_of at 1, drawHatch. unfold bind, emit. cbn [app snd].
  rewrite (appends_hatch e _ _ (nneg (height e)) _). cbn [snd].
  rewrite <- app_assoc. reflexivity.
Qed.

Lemma drawStroke_log (k : Stroke.t) (t : number) (p0 : Point) (rest : list Point) :
  Stroke.points k = p0 :: rest ->
  let dx := nmul (Math_sin (nadd (nmul t (Stroke.drift k)) (Stroke.phase k))) 6 in
  let dy := nmul (Math_cos (nadd (nmul t (Stroke.drift k)) (Stroke.phase k))) 6 in
  log_of (drawStroke k t)
  = [Save; SetLineJoin "round"; SetLineCap "round"; BeginPath;
     MoveTo (nadd (px p0) dx) (nadd (py p0) dy)]
      ++ map (fun p => QuadraticCurveTo
                         (nadd (nsub (px p) 10) dx) (nadd (nsub (py p) 10) dy)
                         (nadd (px p) dx) (nadd (py p) dy)) rest
      ++ [SetStrokeStyle (Solid (Token (Stroke.color k)));
          SetLineWidth (Stroke.width k); SetGlobalAlpha 0.9; StrokePath; Restore].
Proof.
  intros Hp dx dy. unfold log_of at 1, drawStroke. rewrite Hp.
  unfold bind, emit, ret. cbn [app snd]. fold dx dy.
  rewrite (appends_forEach (drawStroke_segment dx dy) rest
             (appends_drawStroke_segment dx dy) _).
  cbn [snd]. rewrite forEach_log by apply appends_drawStroke_segment.
  unfold drawStroke_segment, log_of at 1, emit. cbn [snd app].
  rewrite flat_map_singleton. rewrite <- !app_assoc. reflexivity.
Qed.

Lemma drawGroup_log (g : Group.t) (t : number) :
  log_of (drawGroup g t)
  = [Save; Translate (Group.x g) (Group.y g);
     Rotate (nadd (nadd (Group.rotation g) (Group.speed g))
                  (nmul (Math_sin (nmul t 0.2)) 0.03));
     Scale (Group.scale g) (Group.scale g)]
      ++ flat_map (fun c => log_of (drawChild t c)) (Group.children g)
      ++ [Restore].
Proof.
  unfold log_of at 1, drawGroup. unfold bind, emit, ret. cbn [app snd].
  cbn [Group.x Group.y Group.rotation Group.scale Group.children Group.set_rotation].
  rewrite (appends_forEach (drawChild t) (Group.children g) (appends_drawChild t) _).
  cbn [snd]. rewrite forEach_log by apply appends_drawChild.
  rewrite <- !app_assoc. reflexivity.
Qed.

Lemma frame_shape_log (e : Env) (t : number) (sh : Shape) :
  let sh' := result_of (frame_shape e t sh) in
  exists cmds,
    log_of (frame_shape e t sh)
    = Save :: Translate (shape_x sh') (shape_y sh') :: cmds ++ [Restore] /\
    In Fill cmds.
Proof.
  cbv zeta. destruct sh as [c|s|s];
    unfold log_of, result_of, frame_shape, drawCircle, drawTriangle, drawRect,
      bind, emit, when, ret;
    match goal with
    | |- context [if ?b then _ else _] => destruct b
    end;
    cbn [fst snd app shape_x shape_y];
    match goal with
    | |- exists cmds, Save :: Translate _ _ :: ?rest = _ /\ _ =>
        exists (removelast rest)
    end;
    cbn [removelast app]; (split; [reflexivity | cbn [In]; tauto]).
Qed.

(** ** What a frame leaves alone *)

Lemma frame_strokes (now : number) (s : State) : strokes (frame now s) = strokes s.
Proof.
  destruct (running s) eqn:Hrun.
  - rewrite (frame_running now s Hrun). cbv zeta.
    now destruct (result_of (drawStrokes (frame_time now s) (strokes s))).
  - now rewrite (frame_paused now s Hrun).
Qed.

Lemma frame_env (now : number) (s : State) : env (frame now s) = env s.
Proof.
  destruct (running s) eqn:Hrun.
  - rewrite (frame_running now s Hrun). cbv zeta.
    now destruct (result_of (drawStrokes (frame_time now s) (strokes s))).
  - now rewrite (frame_paused now s Hrun).
Qed.

Lemma iter_preserves {A B : Type} (f : A -> A) (p : A -> B) (n : nat) (x : A) :
  (forall a, p (f a) = p a) -> p (Nat.iter n f x) = p x.
Proof.
  intros Hf. induction n as [|n IH]; [reflexivity|]. cbn. now rewrite Hf.
Qed.

Lemma tick_strokes (now : number) (s : State) : strokes (tick now s) = strokes s.
Proof.
  unfold tick. now rewrite (iter_preserves _ strokes _ _ (frame_strokes now)).
Qed.

Lemma tick_env (now : number) (s : State) : env (tick now s) = env s.
Proof.
  unfold tick. now rewrite (iter_preserves _ env _ _ (frame_env now)).
Qed.

Lemma ticks_preserves {B : Type} (p : State -> B) (nows : list number) (s : State) :
  (forall now a, p (tick now a) = p a) -> p (ticks nows s) = p s.
Proof.
  intros Hp. revert s. induction nows as [|n nows IH]; intros s; [reflexivity|].
  cbn. unfold ticks in IH. now rewrite IH.
Qed.

(** ** The scheduler *)

Lemma frame_last (now : number) (s : State) : last (frame now s) = now.
Proof.
  destruct (running s) eqn:Hrun.
  - rewrite (frame_running now s Hrun). cbv zeta.
    now destruct (result_of (drawStrokes (frame_time now s) (strokes s))).
  - now rewrite (frame_paused now s Hrun).
Qed.

(** ** Teardown *)

Lemma iter_frame_paused (now : number) (n : nat) (s : State) :
  running s = false ->
  running (Nat.iter n (frame now) s) = false /\
  raf (Nat.iter n (frame now) s) = (n + raf s)%nat /\
  ctx (Nat.iter n (frame now) s) = ctx s /\
  shapes (Nat.iter n (frame now) s) = shapes s /\
  strokes (Nat.iter n (frame now) s) = strokes s /\
  groups (Nat.iter n (frame now) s) = groups s /\
  time (Nat.iter n (frame now) s) = time s /\
  env (Nat.iter n (frame now) s) = env s.
Proof.
  intros Hrun. induction n as [|n IH]; [now repeat split|].
  rewrite !Nat.iter_succ.
  destruct IH as (Hr & Hq & Hc & Hsh & Hsk & Hg & Ht & He).
  rewrite (frame_paused now _ Hr).
  unfold requestAnimationFrame, set_raf, set_last. cbn.
  rewrite Hq. now repeat split.
Qed.

Lemma tick_paused (now : number) (s : State) :
  running s = false ->
  running (tick now s) = false /\ raf (tick now s) = raf s /\
  ctx (tick now s) = ctx s /\ shapes (tick now s) = shapes s /\
  strokes (tick now s) = strokes s /\ groups (tick now s) = groups s /\
  time (tick now s) = time s /\ env (tick now s) = env s.
Proof.
  intros Hrun. unfold tick.
  destruct (iter_frame_paused now (raf s) (set_raf O s)) as (H1 & H2 & H3);
    [exact Hrun|].
  split; [exact H1|]. split; [|exact H3].
  rewrite H2. cbn. lia.
Qed.

(** ** Groups *)

Lemma drawGroup_result (g : Group.t) (t : number) (log : list Cmd) :
  fst (drawGroup g t log)
  = Group.set_rotation (nadd (Group.rotation g) (Group.speed g)) g.
Proof.
  rewrite (appends_drawGroup g t log). unfold result_of, drawGroup.
  unfold bind, emit, ret. cbn.
  match goal with |- context [forEach ?b ?l ?s] => destruct (forEach b l s) end.
  reflexivity.
Qed.

Lemma frame_groups (now : number) (s : State) :
  groups (frame now s) = groups s \/
  groups (frame now s)
  = map (fun g => Group.set_rotation (nadd (Group.rotation g) (Group.speed g)) g)
        (groups s).
Proof.
  destruct (running s) eqn:Hrun.
  - right. rewrite (frame_running now s Hrun). cbv zeta.
    assert (H : result_of (forEach (fun g => drawGroup g (frame_time now s)) (groups s))
                = map (fun g => Group.set_rotation
                                  (nadd (Group.rotation g) (Group.speed g)) g)
                      (groups s)).
    { rewrite forEach_result by (intros; apply appends_drawGroup).
      apply map_ext. intros g. unfold result_of. apply drawGroup_result. }
    destruct (result_of (drawStrokes _ _)); cbn [groups]; exact H.
  - left. now rewrite (frame_paused now s Hrun).
Qed.

Lemma frame_children (now : number) (s : State) :
  map Group.children (groups (frame now s)) = map Group.children (groups s).
Proof.
  destruct (frame_groups now s) as [-> | ->]; [reflexivity|].
  rewrite map_map. reflexivity.
Qed.

Lemma child_arc (c : Child.t) (t : number) :
  Child.kind c = KCircle ->
  In (Arc 0 0 (child_radius c t) 0 TAU) (log_of (drawChild t c)).
Proof.
  intros Hk. unfold log_of, drawChild. rewrite Hk.
  unfold bind, emit, when, ret.
  destruct (truthy_str (Child.stroke c)); cbn; tauto.
Qed.

(** ** Sorting the shapes *)

Lemma js_or_key (s : Shape) : js_or (shape_y s) (Fin 0) = Fin (sort_key s).
Proof.
  unfold sort_key, js_or, truthy. destruct (shape_y s) as [|r]; [reflexivity|].
  destruct (Req_dec_T r 0); reflexivity.
Qed.

Lemma sort_key_finite (s : Shape) (y : R) : shape_y s = Fin y -> sort_key s = y.
Proof.
  intros H. unfold sort_key, js_or, truthy. rewrite H.
  destruct (Req_dec_T y 0); [now subst | reflexivity].
Qed.

Lemma compare_y_gt (a b : Shape) :
  ngt (compare_y a b) (Fin 0) = true <-> sort_key b < sort_key a.
Proof.
  unfold compare_y. rewrite !js_or_key. cbn [nsub lift2].
  rewrite ngt_Fin. lra.
Qed.

Lemma compare_y_not_gt (a b : Shape) :
  ngt (compare_y a b) (Fin 0) = false <-> sort_key a <= sort_key b.
Proof.
  unfold compare_y. rewrite !js_or_key. cbn [nsub lift2].
  rewrite ngt_Fin_false. lra.
Qed.

Lemma insert_shape_perm (a : Shape) (l : list Shape) :
  Permutation (insert_shape a l) (a :: l).
Proof.
  induction l as [|b l IH]; cbn [insert_shape]; [reflexivity|].
  destruct (ngt (compare_y a b) (Fin 0)); [|reflexivity].
  rewrite IH. apply perm_swap.
Qed.

Lemma sort_shapes_perm (l : list Shape) : Permutation (sort_shapes l) l.
Proof.
  induction l as [|a l IH]; cbn [sort_shapes]; [reflexivity|].
  rewrite insert_shape_perm. now constructor.
Qed.

Lemma insert_shape_sorted (a : Shape) (l : list Shape) :
  Sorted (fun u v => sort_key u <= sort_key v) l ->
  Sorted (fun u v => sort_key u <= sort_key v) (insert_shape a l).
Proof.
  induction 1 as [|b l Hl IH Hb]; cbn [insert_shape]; [repeat constructor|].
  destruct (ngt (compare_y a b) (Fin 0)) eqn:Hc.
  - apply compare_y_gt in Hc. constructor; [exact IH|].
    destruct l as [|c l]; cbn [insert_shape].
    + constructor. lra.
    + destruct (ngt (compare_y a c) (Fin 0)); constructor;
        [now inversion Hb | lra].
  - apply compare_y_not_gt in Hc.
    constructor; [constructor; assumption | constructor; exact Hc].
Qed.

Lemma sort_shapes_sorted (l : list Shape) :
  StronglySorted (fun u v => sort_key u <= sort_key v) (sort_shapes l).
Proof.
  apply Sorted_StronglySorted; [intros x y z; lra|].
  induction l as [|a l IH]; cbn [sort_shapes]; [constructor|].
  now apply insert_shape_sorted.
Qed.

(** ** Triangles *)

Lemma triangle_drift_zero (t : number) (tri : Triangle.t) (p : R) :
  Triangle.phase tri = Undefined -> triangle_drift t tri (Fin p) = Fin 0.
Proof.
  intros H. unfold triangle_drift, js_plus. rewrite H. cbn [ToNumber].
  assert (Hn : nadd (nmul t (Fin 0.18)) NaN = NaN)
    by (destruct (nmul t (Fin 0.18)); reflexivity).
  rewrite Hn. cbn. rewrite sin_0. f_equal. lra.
Qed.

Lemma parallax_finite (e : Env) (sh : Shape) (y h : R) :
  shape_y sh = Fin y -> height e = Fin h -> h <> 0 ->
  parallax e sh = Fin (1 + (y / h - 0.5) * 0.08).
Proof.
  intros Hy Hh Hz. unfold parallax. rewrite Hy, Hh. cbn.
  destruct (Req_dec_T h 0); [contradiction | reflexivity].
Qed.

Lemma frame_shape_triangle (e : Env) (t : number) (tri : Triangle.t) :
  result_of (frame_shape e t (STriangle tri))
  = STriangle
      (Triangle.set_rotation
         (nadd (js_or (Triangle.rotation tri) (Fin 0)) (Triangle.rotationSpeed tri))
         (Triangle.set_x
            (nadd (Triangle.x tri) (triangle_drift t tri (parallax e (STriangle tri))))
            tri)).
Proof.
  unfold result_of, frame_shape, drawTriangle, bind, emit, when, ret.
  cbn [Triangle.stroke Triangle.set_rotation Triangle.set_x].
  destruct (truthy_str (Triangle.stroke tri)); reflexivity.
Qed.

Lemma frame_shape_kind (e : Env) (t : number) (sh : Shape) :
  match sh with
  | SCircle _ => exists c, result_of (frame_shape e t sh) = SCircle c
  | STriangle _ => exists c, result_of (frame_shape e t sh) = STriangle c
  | SRect _ => exists c, result_of (frame_shape e t sh) = SRect c
  end.
Proof.
  destruct sh; cbn [frame_shape]; rewrite bind_result by auto with draw;
    eexists; reflexivity.
Qed.

Lemma frame_shape_keeps_triangle (e : Env) (t : number) (tri : Triangle.t) (h : R) :
  height e = Fin h -> h <> 0 -> triangle_as_made (STriangle tri) ->
  exists tri',
    result_of (frame_shape e t (STriangle tri)) = STriangle tri' /\
    Triangle.x tri' = Triangle.x tri /\ Triangle.y tri' = Triangle.y tri /\
    Triangle.phase tri' = Undefined.
Proof.
  intros Hh Hz [Hph [y Hy]]. eexists. split; [apply frame_shape_triangle|].
  cbn [Triangle.x Triangle.y Triangle.phase Triangle.set_rotation Triangle.set_x].
  rewrite (parallax_finite e (STriangle tri) y h Hy Hh Hz).
  rewrite (triangle_drift_zero t tri _ Hph), nadd_zero_r. now repeat split.
Qed.

Lemma frame_shapes_keep_triangles (e : Env) (t : number) (l : list Shape) (h : R) :
  height e = Fin h -> h <> 0 -> Forall triangle_as_made l ->
  triangle_xy (map (fun sh => result_of (frame_shape e t sh)) l) = triangle_xy l /\
  Forall triangle_as_made (map (fun sh => result_of (frame_shape e t sh)) l).
Proof.
  intros Hh Hz. induction 1 as [|sh l Hsh Hl [IHxy IHok]]; [split; constructor|].
  cbn [map]. unfold triangle_xy in *. cbn [flat_map]. rewrite IHxy.
  destruct sh as [c|tri|r].
  - destruct (frame_shape_kind e t (SCircle c)) as [c' ->].
    split; [reflexivity | now constructor].
  - destruct (frame_shape_keeps_triangle e t tri h Hh Hz Hsh)
      as (tri' & -> & Hx & Hy & Hph).
    rewrite Hx, Hy. split; [reflexivity|]. constructor; [|exact IHok].
    cbn. split; [exact Hph|]. destruct Hsh as [_ [y Hy']]. exists y. congruence.
  - destruct (frame_shape_kind e t (SRect r)) as [r' ->].
    split; [reflexivity | now constructor].
Qed.

Lemma frame_keeps_triangles (now : number) (s : State) (h : R) :
  height (env s) = Fin h -> h <> 0 -> Forall triangle_as_made (shapes s) ->
  Permutation (triangle_xy (shapes (frame now s))) (triangle_xy (shapes s)) /\
  Forall triangle_as_made (shapes (frame now s)).
Proof.
  intros Hh Hz Hok. destruct (running s) eqn:Hrun.
  - rewrite (frame_running now s Hrun). cbv zeta.
    destruct (result_of (drawStrokes _ _)); cbn [shapes]; [|now split].
    rewrite forEach_result by apply appends_frame_shape.
    assert (Hsorted : Forall triangle_as_made (sort_shapes (shapes s))).
    { eapply Permutation_Forall; [|exact Hok]. symmetry. apply sort_shapes_perm. }
    destruct (frame_shapes_keep_triangles (env s) (frame_time now s) _ h Hh Hz Hsorted)
      as [-> Hok'].
    split; [|exact Hok'].
    unfold triangle_xy. apply Permutation_flat_map, sort_shapes_perm.
  - rewrite (frame_paused now s Hrun). now split.
Qed.

Lemma tick_keeps_triangles (now : number) (s : State) (h : R) :
  height (env s) = Fin h -> h <> 0 -> Forall triangle_as_made (shapes s) ->
  Permutation (triangle_xy (shapes (tick now s))) (triangle_xy (shapes s)) /\
  Forall triangle_as_made (shapes (tick now s)).
Proof.
  intros Hh Hz Hok. unfold tick.
  change (triangle_xy (shapes s)) with (triangle_xy (shapes (set_raf O s))).
  assert (Hh0 : height (env (set_raf O s)) = Fin h) by exact Hh.
  assert (Hok0 : Forall triangle_as_made (shapes (set_raf O s))) by exact Hok.
  generalize dependent (set_raf O s). intros a Ha Hoka.
  induction (raf s) as [|n [IHp IHf]]; [now split|].
  rewrite Nat.iter_succ.
  assert (He : height (env (Nat.iter n (frame now) a)) = Fin h).
  { rewrite (iter_preserves _ env _ _ (frame_env now)). exact Ha. }
  destruct (frame_keeps_triangles now _ h He Hz IHf) as [Hp Hf].
  split; [|exact Hf]. now rewrite Hp.
Qed.

Lemma ticks_keep_triangles (nows : list number) (s : State) (h : R) :
  height (env s) = Fin h -> h <> 0 -> Forall triangle_as_made (shapes s) ->
  Permutation (triangle_xy (shapes (ticks nows s))) (triangle_xy (shapes s)).
Proof.
  revert s. induction nows as [|n nows IH]; intros s Hh Hz Hok; [reflexivity|].
  cbn. destruct (tick_keeps_triangles n s h Hh Hz Hok) as [Hp Hf].
  unfold ticks in IH. rewrite IH; [exact Hp | | exact Hz | exact Hf].
  now rewrite tick_env.
Qed.

Lemma makeTriangle_as_made (e : Env) (src : Source) (h : R) :
  height e = Fin h -> triangle_as_made (STriangle (fst (makeTriangle e src))).
Proof.
  intros Hh. unfold makeTriangle.
  unfold bind at 1. destruct (rand _ _ src) as [x s1].
  unfold bind at 1. destruct (rand _ _ s1) as [y s2] eqn:Ey.
  unfold bind at 1. destruct (rand _ _ s2) as [sz s3].
  unfold bind at 1. destruct (rand _ _ s3) as [ro s4].
  unfold bind at 1. destruct (rand _ _ s4) as [rs s5].
  unfold bind at 1. destruct (pick_colour s5) as [col s6].
  unfold bind at 1. destruct (rand _ _ s6) as [sw s7].
  unfold bind at 1. destruct (rand _ _ s7) as [sk s8].
  cbn. split; [reflexivity|].
  unfold rand, bind, Math_random, ret in Ey. rewrite Hh in Ey. cbn in Ey.
  injection Ey as <- _. eexists. reflexivity.
Qed.

(** ** The scene the script starts from, and what every event keeps *)

Lemma keeps_unit_ret {A : Type} (a : A) : keeps_unit (ret a).
Proof. intros src H. exact H. Qed.

Lemma keeps_unit_random : keeps_unit Math_random.
Proof. intros src H n. apply H. Qed.

Lemma keeps_unit_bind {A B : Type} (m : Gen A) (k : A -> Gen B) :
  keeps_unit m -> (forall a, keeps_unit (k a)) -> keeps_unit (bind m k).
Proof.
  intros Hm Hk src H. unfold bind. specialize (Hm src H).
  destruct (m src) as [a s1]. now apply Hk.
Qed.

Lemma keeps_unit_if {A : Type} (b : bool) (m1 m2 : Gen A) :
  keeps_unit m1 -> keeps_unit m2 -> keeps_unit (if b then m1 else m2).
Proof. now destruct b. Qed.

Lemma keeps_unit_forEach {A B : Type} (body : A -> Gen B) (l : list A) :
  (forall a, keeps_unit (body a)) -> keeps_unit (forEach body l).
Proof.
  intros Hb. induction l as [|a l IH]; cbn [forEach].
  - apply keeps_unit_ret.
  - apply keeps_unit_bind; [apply Hb|]. intros b.
    apply keeps_unit_bind; [apply IH|]. intros bs. apply keeps_unit_ret.
Qed.

Create HintDb gen.
#[local] Hint Resolve keeps_unit_ret keeps_unit_random : gen.

Ltac keeps_unit_tac :=
  repeat first
    [ solve [auto with gen]
    | apply keeps_unit_if
    | apply keeps_unit_forEach; intros ?
    | apply keeps_unit_bind; [| intros ?] ].

Lemma keeps_unit_rand (a b : number) : keeps_unit (rand a b).
Proof. unfold rand. keeps_unit_tac. Qed.
#[local] Hint Resolve keeps_unit_rand : gen.

Lemma keeps_unit_pick_colour : keeps_unit pick_colour.
Proof. unfold pick_colour. keeps_unit_tac. Qed.
#[local] Hint Resolve keeps_unit_pick_colour : gen.

Lemma keeps_unit_makeCircle (e : Env) : keeps_unit (makeCircle e).
Proof. unfold makeCircle. keeps_unit_tac. Qed.

Lemma keeps_unit_makeTriangle (e : Env) : keeps_unit (makeTriangle e).
Proof. unfold makeTriangle. keeps_unit_tac. Qed.

Lemma keeps_unit_makeRect (e : Env) : keeps_unit (makeRect e).
Proof. unfold makeRect. keeps_unit_tac. Qed.

Lemma keeps_unit_wavy_point (cx cy segs length angle : number) (i : nat) :
  keeps_unit (wavy_point cx cy segs length angle i).
Proof. unfold wavy_point. keeps_unit_tac. Qed.
#[local] Hint Resolve keeps_unit_wavy_point : gen.

Lemma keeps_unit_buildWavyLine (e : Env) (cx cy scale : number) :
  keeps_unit (buildWavyLine e cx cy scale).
Proof. unfold buildWavyLine. keeps_unit_tac. Qed.
#[local] Hint Resolve keeps_unit_buildWavyLine : gen.

Lemma keeps_unit_makeStroke (e : Env) : keeps_unit (makeStroke e).
Proof. unfold makeStroke. keeps_unit_tac. Qed.
#[local] Hint Resolve keeps_unit_makeCircle keeps_unit_makeTriangle
  keeps_unit_makeRect keeps_unit_makeStroke : gen.

Lemma forEach_Forall {A B : Type} (P : B -> Prop) (body : A -> Gen B) (l : list A) :
  (forall a, keeps_unit (body a)) ->
  (forall a src, unit_source src -> P (fst (body a src))) ->
  forall src, unit_source src -> Forall P (fst (forEach body l src)).
Proof.
  intros Hk HP. induction l as [|a l IH]; intros src Hsrc; [constructor|].
  cbn [forEach]. unfold bind at 1.
  pose proof (HP a src Hsrc) as Ha. pose proof (Hk a src Hsrc) as Hs.
  destruct (body a src) as [b s1]. cbn [fst snd] in Ha, Hs.
  unfold bind at 1. specialize (IH s1 Hs).
  destruct (forEach body l s1) as [bs s2]. cbn in *. now constructor.
Qed.

Lemma makeStroke_ok (e : Env) (src : Source) :
  unit_source src -> stroke_ok (fst (makeStroke e src)).
Proof.
  intros Hsrc. unfold stroke_ok.
  destruct (makeStroke_points e src) as (cx & cy & sc & ->).
  intros Hnil. apply (f_equal (@List.length Point)) in Hnil.
  rewrite buildWavyLine_length in Hnil by apply (Hsrc (3 + 0)%nat).
  pose proof (Int_part_rand_3_8 _ (Hsrc (3 + 0)%nat)) as Hb.
  cbn [List.length] in Hnil. lia.
Qed.

Lemma populate_well_formed (e : Env) (src : Source) (h : R) :
  unit_source src -> height e = Fin h ->
  let '(ss, sks, gs) := fst (populate e src) in
  Forall stroke_ok sks /\ Forall triangle_as_made ss.
Proof.
  intros Hsrc Hh. unfold populate.
  unfold bind at 1.
  pose proof (keeps_unit_forEach (fun _ : nat => makeCircle e) (seq 0 9)
                (fun _ => keeps_unit_makeCircle e) src Hsrc) as H1.
  unfold replicateM at 1. destruct (forEach _ (seq 0 9) src) as [cs s1].
  cbn [snd] in H1.
  unfold bind at 1.
  pose proof (keeps_unit_forEach (fun _ : nat => makeTriangle e) (seq 0 8)
                (fun _ => keeps_unit_makeTriangle e) s1 H1) as H2.
  pose proof (forEach_Forall (fun t => triangle_as_made (STriangle t))
                (fun _ : nat => makeTriangle e) (seq 0 8)
                (fun _ => keeps_unit_makeTriangle e)
                (fun _ s _ => makeTriangle_as_made e s h Hh) s1 H1) as Ht.
  unfold replicateM at 1. destruct (forEach _ (seq 0 8) s1) as [ts s2].
  cbn [fst snd] in H2, Ht.
  unfold bind at 1.
  pose proof (keeps_unit_forEach (fun _ : nat => makeRect e) (seq 0 6)
                (fun _ => keeps_unit_makeRect e) s2 H2) as H3.
  unfold replicateM at 1. destruct (forEach _ (seq 0 6) s2) as [rs s3].
  cbn [snd] in H3.
  unfold bind at 1.
  pose proof (forEach_Forall stroke_ok (fun _ : nat => makeStroke e) (seq 0 5)
                (fun _ => keeps_unit_makeStroke e)
                (fun _ s Hs => makeStroke_ok e s Hs) s3 H3) as Hk.
  unfold replicateM at 1. destruct (forEach _ (seq 0 5) s3) as [sks s4].
  cbn [fst] in Hk.
  unfold bind at 1. destruct (replicateM 3 _ s4) as [gs s5].
  cbn [ret fst]. split; [exact Hk|].
  rewrite !Forall_app. repeat split.
  - apply Forall_forall. intros sh Hin. apply in_map_iff in Hin.
    destruct Hin as (c & <- & _). exact I.
  - apply Forall_forall. intros sh Hin. apply in_map_iff in Hin.
    destruct Hin as (t & <- & Hin). rewrite Forall_forall in Ht. now apply Ht.
  - apply Forall_forall. intros sh Hin. apply in_map_iff in Hin.
    destruct Hin as (c & <- & _). exact I.
Qed.

Lemma start_well_formed (e : Env) (src : Source) (now : number) (h : R) :
  unit_source src -> height e = Fin h -> h <> 0 ->
  well_formed h (start e src now).
Proof.
  intros Hsrc Hh Hz. pose proof (populate_well_formed e src h Hsrc Hh) as H.
  unfold start. destruct (fst (populate e src)) as [[ss sks] gs].
  destruct H as [Hk Ht]. now repeat split.
Qed.

Lemma step_well_formed (h : R) (s : State) (ev : Event) :
  well_formed h s -> well_formed h (step s ev).
Proof.
  intros (Hh & Hz & Hk & Ht). destruct ev as [now| |now|now|]; cbn [step];
    try (now repeat split).
  destruct (tick_keeps_triangles now s h Hh Hz Ht) as [_ Ht'].
  repeat split; try assumption.
  - now rewrite tick_env.
  - now rewrite tick_strokes.
Qed.

(** Every state the sketch can reach from its start is well formed: the
    hypotheses about strokes and triangles made in this file hold of it. *)
Lemma reachable_well_formed
    (e : Env) (src : Source) (now : number) (h : R) (evs : list Event) :
  unit_source src -> height e = Fin h -> h <> 0 ->
  well_formed h (run_events evs (start e src now)).
Proof.
  intros Hsrc Hh Hz. pose proof (start_well_formed e src now h Hsrc Hh Hz) as H.
  revert H. generalize (start e src now). unfold run_events.
  induction evs as [|ev evs IH]; intros s Hs; [exact Hs|].
  cbn [fold_left]. apply IH. now apply step_well_formed.
Qed.

Lemma run_events_keep_triangles (h : R) (evs : list Event) (s : State) :
  well_formed h s ->
  Permutation (triangle_xy (shapes (run_events evs s))) (triangle_xy (shapes s)).
Proof.
  revert s. unfold run_events.
  induction evs as [|ev evs IH]; intros s Hs; [reflexivity|].
  cbn [fold_left]. rewrite (IH _ (step_well_formed h s ev Hs)).
  destruct Hs as (Hh & Hz & _ & Ht).
  destruct ev as [now| |now|now|]; cbn [step]; try reflexivity.
  apply (tick_keeps_triangles now s h Hh Hz Ht).
Qed.

Lemma run_events_strokes (evs : list Event) (s : State) :
  strokes (run_events evs s) = strokes s.
Proof.
  revert s. unfold run_events.
  induction evs as [|ev evs IH]; intros s; [reflexivity|].
  cbn [fold_left]. rewrite IH.
  destruct ev; cbn [step]; try reflexivity. apply tick_strokes.
Qed.

(* ================================================================== *)
(** * The claims *)




(** C2, as the code has it.  [destroy] clears the flag and cancels
    nothing: through any run of display frames that follows (no call of
    [resume] or [toggle] in between) the context receives no command, the
    scene and the clock keep their values, and every callback queued
    before a frame is queued again after it, so the chain stays armed. *)
Theorem destroy_then_ticks (s : State) (nows : list number) :
  let s' := ticks nows (destroy s) in
  ctx s' = ctx s /\ shapes s' = shapes s /\ strokes s' = strokes s /\
  groups s' = groups s /\ time s' = time s /\
  running s' = false /\ raf s' = raf s.
Proof.
  cbv zeta.
  assert (H : forall a, running a = false ->
            let a' := ticks nows a in
            ctx a' = ctx a /\ shapes a' = shapes a /\ strokes a' = strokes a /\
            groups a' = groups a /\ time a' = time a /\
            running a' = false /\ raf a' = raf a).
  { induction nows as [|n nows IH]; intros a Ha; [now repeat split|].
    cbn. destruct (tick_paused n a Ha) as (H1 & H2 & H3 & H4 & H5 & H6 & H7 & _).
    destruct (IH (tick n a) H1) as (I1 & I2 & I3 & I4 & I5 & I6 & I7).
    unfold ticks in *. rewrite I1, I2, I3, I4, I5, I6, I7.
    now repeat split. }
  apply (H (destroy s)). reflexivity.
Qed.

(** C2 as worded fails: after [destroy] a callback is still queued, and
    it is queued again after each display frame. *)
Lemma destroy_leaves_callback_armed :
  let s := mkState (mkEnv 300 200) [] [] [] true 0 0 [] 1 true true true in
  raf (destroy s) = 1%nat /\
  raf (tick 16 (destroy s)) = 1%nat /\
  raf (tick 32 (tick 16 (destroy s))) = 1%nat.
Proof. repeat split; reflexivity. Qed.

(** The flag alone decides: a [resume] on a retained API object after
    [destroy] makes the next frame draw again. *)
Lemma resume_after_destroy_draws :
  let s := mkState (mkEnv 300 200) [] [] [] true 0 0 [] 1 true true true in
  exists cmds,
    ctx (tick 16 (resume 0 (destroy s))) = ClearRect 0 0 300 200 :: cmds.
Proof.
  cbv zeta. unfold tick. cbn [raf resume destroy set_last set_running set_raf
    env shapes strokes groups running last time ctx resizeListening
    canvasAttached apiInstalled Nat.iter nat_rect].
  rewrite frame_running by reflexivity. cbv zeta.
  destruct (result_of (drawStrokes _ _)); cbn [ctx app env width height];
    eexists; reflexivity.
Qed.

(** C3.  The polyline of a stroke built by [makeStroke] has [segs + 1]
    points, [segs] being the floor of the fourth sample drawn from
    [3, 8): [segs] lies in [3, 8] (indeed in [3, 7]) and the point count in
    [4, 9].  No frame, run of frames or API call writes to [strokes], so
    the count stays what it was at creation. *)
Theorem makeStroke_point_count (e : Env) (src : Source) :
  unit_source src ->
  let k := fst (makeStroke e src) in
  let segs := Int_part (3 + src 3%nat * (8 - 3)) in
  Math_floor (fst (rand 3 8 (fun n => src (3 + n)%nat))) = Fin (IZR segs) /\
  (3 <= segs <= 8)%Z /\ (segs <= 7)%Z /\
  List.length (Stroke.points k) = Z.to_nat (segs + 1) /\
  (4 <= List.length (Stroke.points k) <= 9)%nat /\
  (forall now s, strokes (frame now s) = strokes s) /\
  (forall nows s, strokes (ticks nows s) = strokes s) /\
  (forall now s, strokes (pause s) = strokes s /\
                 strokes (resume now s) = strokes s /\
                 strokes (toggle now s) = strokes s /\
                 strokes (destroy s) = strokes s).
Proof.
  intros Hsrc k segs.
  pose proof (Int_part_rand_3_8 (src 3%nat) (Hsrc 3%nat)) as Hsegs. fold segs in Hsegs.
  assert (Hlen : List.length (Stroke.points k) = Z.to_nat (segs + 1)).
  { unfold k. destruct (makeStroke_points e src) as (cx & cy & sc & ->).
    rewrite buildWavyLine_length; [reflexivity | apply (Hsrc (3 + 0)%nat)]. }
  repeat split; try reflexivity; try lia.
  - apply frame_strokes.
  - intros nows s. apply ticks_preserves. apply tick_strokes.
Qed.

Lemma makeStroke_point_count_witness :
  List.length (Stroke.points (fst (makeStroke (mkEnv 300 200) (fun _ => 0))))
  = Z.to_nat (Int_part (3 + 0 * (8 - 3)) + 1).
Proof.
  apply (makeStroke_point_count (mkEnv 300 200) (fun _ => 0)).
  intros n. lra.
Defined.

(** C4.  For a triangle without a [phase] property (what [makeTriangle]
    builds) and with a finite [y], on a surface of finite non-zero height:
    [time * 0.18 + s.phase] is [NaN], [NaN || 0] is [0], so the increment
    [Math.sin(0) * 0.01 * par] is [0]; the loop body of the frame returns
    the triangle with the same [x] and [y]; over any run of frames the
    triangles of such a scene keep their positions (the list being only
    reordered by the sort); and so do, through any run of frames and API
    calls, the triangles of the scene the script starts from. *)
Theorem triangle_never_drifts
    (e : Env) (t : number) (tri : Triangle.t) (y h : R) (log : list Cmd) :
  Triangle.phase tri = Undefined -> Triangle.y tri = Fin y ->
  height e = Fin h -> h <> 0 ->
  triangle_drift t tri (parallax e (STriangle tri)) = Fin 0 /\
  (exists tri',
     fst (frame_shape e t (STriangle tri) log) = STriangle tri' /\
     Triangle.x tri' = Triangle.x tri /\ Triangle.y tri' = Triangle.y tri /\
     Triangle.phase tri' = Undefined) /\
  (forall src, triangle_as_made (STriangle (fst (makeTriangle e src)))) /\
  (forall nows s,
     env s = e -> Forall triangle_as_made (shapes s) ->
     Permutation (triangle_xy (shapes (ticks nows s))) (triangle_xy (shapes s))) /\
  (forall src now0 evs,
     unit_source src ->
     Permutation (triangle_xy (shapes (run_events evs (start e src now0))))
                 (triangle_xy (shapes (start e src now0)))).
Proof.
  intros Hph Hy Hh Hz. split; [|split; [|split; [|split]]].
  - rewrite (parallax_finite e (STriangle tri) y h Hy Hh Hz).
    now apply triangle_drift_zero.
  - rewrite (appends_frame_shape e t (STriangle tri) log). cbn [fst].
    apply (frame_shape_keeps_triangle e t tri h Hh Hz).
    split; [exact Hph | now exists y].
  - intros src. now apply (makeTriangle_as_made e src h).
  - intros nows s He Hok. apply (ticks_keep_triangles nows s h); subst; assumption.
  - intros src now0 evs Hsrc. apply (run_events_keep_triangles h).
    now apply start_well_formed.
Qed.

Lemma triangle_never_drifts_witness :
  triangle_drift 1
    (Triangle.mk 50 60 40 0 0.01 "#FFFFFF" (Some "#000000"%string) 1 0 Undefined)
    (parallax (mkEnv 300 200)
       (STriangle (Triangle.mk 50 60 40 0 0.01 "#FFFFFF"
                     (Some "#000000"%string) 1 0 Undefined)))
  = Fin 0.
Proof.
  apply (triangle_never_drifts (mkEnv 300 200) 1
           (Triangle.mk 50 60 40 0 0.01 "#FFFFFF" (Some "#000000"%string) 1 0 Undefined)
           60 200 []); try reflexivity. lra.
Defined.

(** With a [phase] stored on the record the same increment is not zero:
    the result of C4 rests on the property being absent. *)
Lemma triangle_with_phase_drifts :
  triangle_drift 0
    (Triangle.mk 50 60 40 0 0.01 "#FFFFFF" (Some "#000000"%string) 1 0
                 (Num (Fin (PI / 2))))
    (Fin 1)
  = Fin 0.01.
Proof.
  unfold triangle_drift, js_plus. cbn [ToNumber Triangle.phase nmul nadd lift2].
  replace (0 * 0.18 + PI / 2) with (PI / 2) by lra.
  unfold js_or, truthy.
  destruct (Req_dec_T (PI / 2) 0) as [Hz|_].
  - pose proof PI_RGT_0. lra.
  - cbn. rewrite sin_PI2. f_equal. lra.
Qed.

(** C5.  A token [#abc] of three hexadecimal digits is read as [#aabbcc]:
    each channel is the doubled digit, 17 times its value, and the opacity
    handed in is the alpha channel.  [#FFFFFF] at opacity 1 is white at
    alpha 1; [#000] at opacity 0.5 is black at alpha 0.5. *)
Theorem hexToRgba_shorthand (a b c : ascii) (va vb vc : Z) (alpha : number) :
  hex_digit a = Some va -> hex_digit b = Some vb -> hex_digit c = Some vc ->
  hexToRgba (String "#" (String a (String b (String c EmptyString)))) alpha
    = Rgba (IZR (17 * va)) (IZR (17 * vb)) (IZR (17 * vc)) alpha /\
  hexToRgba (String "#" (String a (String b (String c EmptyString)))) alpha
    = hexToRgba (String "#" (String a (String a (String b (String b
                   (String c (String c EmptyString))))))) alpha /\
  hexToRgba "#FFFFFF" 1 = Rgba 255 255 255 1 /\
  hexToRgba "#000" 0.5 = Rgba 0 0 0 0.5.
Proof.
  intros Ha Hb Hc.
  assert (H3 : hexToRgba (String "#" (String a (String b (String c EmptyString)))) alpha
               = Rgba (IZR (17 * va)) (IZR (17 * vb)) (IZR (17 * vc)) alpha).
  { unfold hexToRgba, parseInt16. cbn [remove_first Ascii.eqb Bool.eqb].
    cbn [String.length Nat.eqb char_at String.get String.append].
    now rewrite (parseInt16_Z_doubled a va Ha), (parseInt16_Z_doubled b vb Hb),
      (parseInt16_Z_doubled c vc Hc). }
  split; [exact H3|]. split.
  - rewrite H3. unfold hexToRgba, parseInt16. cbn [remove_first Ascii.eqb Bool.eqb].
    cbn [String.length Nat.eqb slice String.substring Nat.sub].
    now rewrite (parseInt16_Z_doubled a va Ha), (parseInt16_Z_doubled b vb Hb),
      (parseInt16_Z_doubled c vc Hc).
  - split; reflexivity.
Qed.

Lemma hexToRgba_shorthand_witness :
  hexToRgba "#0af" 0.5 = Rgba (IZR (17 * 0)) (IZR (17 * 10)) (IZR (17 * 15)) 0.5.
Proof.
  apply (proj1 (hexToRgba_shorthand "0" "a" "f" 0 10 15 0.5 eq_refl eq_refl eq_refl)).
Defined.

(** C6.  A running frame on drawable strokes (those of every reachable
    state, lemma [reachable_well_formed]), after clearing the surface,
    issues exactly, in this order: the wash (a gradient fill of the whole
    surface); the hatch (its lines between a [save] with alpha 0.04 and a
    [restore]); the ring (one stroked arc of radius [0.28 min(w, h)] about
    [(0.5 w, 0.45 h)] at alpha 0.12, rotated by [0.4 sin(0.1 t)]); every
    group in the order of [groups], each between a [save] with a
    translation to its centre and a [restore]; every stroke in the order
    of [strokes], each from a [save] to a [stroke] and a [restore]; every
    shape in the order [shapes.sort] gives to the [shapes] of this very
    state (a rearrangement of them with non-decreasing key [y || 0], the
    key being [y] for a finite [y]), each between a [save] with a
    translation to the centre it is left at and a [restore], with a [fill]
    in between; the accent (two filled discs about [(0.85 w, 0.18 h)]);
    the signature mark (a filled bar and a filled six-point path about
    [(0.06 w, 0.92 h)]). *)
Theorem frame_draw_order (now : number) (s : State) :
  running s = true -> Forall stroke_ok (strokes s) ->
  let e := env s in
  let w := width e in
  let h := height e in
  let t := frame_time now s in
  let sorted := sort_shapes (shapes s) in
  let wash :=
    [SetFillStyle (LinearGradient 0 0 w h
                     [(Fin 0, Token "#FFF9F2"); (Fin 1, Token "#F0F7FF")]);
     FillRect 0 0 w h] in
  let ring :=
    [Save; SetGlobalAlpha 0.12;
     Translate (nmul w 0.5) (nmul h 0.45);
     Rotate (nmul (Math_sin (nmul t 0.1)) 0.4);
     BeginPath;
     Arc 0 0 (nmul (Math_min w h) 0.28) 0 TAU;
     SetLineWidth (nmul (Math_min w h) 0.1);
     SetStrokeStyle (Solid (Token "#FFC857"));
     StrokePath; Restore] in
  let accent :=
    [Save; SetGlobalAlpha 0.95;
     Translate (nmul w 0.85) (nmul h 0.18);
     Rotate (nmul (Math_sin (nmul t 0.6)) 0.6);
     BeginPath; SetFillStyle (Solid (Token "#000")); Arc 0 0 22 0 TAU; Fill;
     BeginPath; SetFillStyle (Solid (Token "#fff")); Arc (-6) (-6) 6 0 TAU; Fill;
     Restore] in
  let signature :=
    [Save;
     Translate (nmul w 0.06) (nmul h 0.92);
     Rotate (nadd (-0.12) (nmul (Math_sin (nmul t 0.4)) 0.02));
     SetGlobalAlpha 0.9; SetFillStyle (Solid (Token "#3A7CA5"));
     FillRect 0 0 10 36;
     BeginPath; MoveTo 8 18; LineTo 34 0; LineTo 34 6; LineTo 12 22;
     LineTo 34 36; LineTo 34 42; ClosePath; Fill;
     Restore] in
  ctx (frame now s)
    = ctx s ++ [ClearRect 0 0 w h]
        ++ wash
        ++ log_of (drawHatch e)
        ++ ring
        ++ flat_map (fun g => log_of (drawGroup g t)) (groups s)
        ++ flat_map (fun k => log_of (drawStroke k t)) (strokes s)
        ++ flat_map (fun sh => log_of (frame_shape e t sh)) sorted
        ++ accent
        ++ signature /\
  (exists lines,
     log_of (drawHatch e)
     = [Save; SetGlobalAlpha 0.04; SetStrokeStyle (Solid (Token "#000"));
        SetLineWidth 1] ++ lines ++ [Restore]) /\
  (forall g, exists cmds,
     log_of (drawGroup g t)
     = Save :: Translate (Group.x g) (Group.y g) :: cmds ++ [Restore]) /\
  (forall k, stroke_ok k -> exists cmds,
     log_of (drawStroke k t) = Save :: cmds ++ [StrokePath; Restore]) /\
  (forall sh, exists cmds,
     log_of (frame_shape e t sh)
     = Save :: Translate (shape_x (result_of (frame_shape e t sh)))
                         (shape_y (result_of (frame_shape e t sh)))
            :: cmds ++ [Restore] /\
     In Fill cmds) /\
  Permutation sorted (shapes s) /\
  StronglySorted (fun a b => sort_key a <= sort_key b) sorted /\
  (forall sh y, shape_y sh = Fin y -> sort_key sh = y).
Proof.
  intros Hrun Hok e w h t sorted wash ring accent signature.
  split; [| split; [| split; [| split; [| split; [| split; [| split]]]]]].
  - rewrite (frame_running now s Hrun). cbv zeta. fold e t sorted.
    destruct (drawStrokes_returns t (strokes s) Hok) as [-> ->].
    cbn [ctx].
    rewrite !forEach_log by auto with draw.
    unfold drawBackgroundTexture.
    rewrite bind_log by auto with draw.
    change (log_of (drawWash e)) with wash.
    change (log_of (drawRing e t)) with ring.
    change (log_of (drawAccent e t)) with accent.
    change (log_of (drawSignature e t)) with signature.
    now rewrite <- !app_assoc.
  - destruct (drawHatch_log e) as (st & n & H). eexists. exact H.
  - intros g. rewrite drawGroup_log. eexists (_ :: _ :: _). reflexivity.
  - intros k Hk. unfold stroke_ok in Hk.
    destruct (Stroke.points k) as [|p0 rest] eqn:Hp; [contradiction|].
    rewrite (drawStroke_log k t p0 rest Hp). cbv zeta.
    eexists (_ :: _ :: _ :: _ :: _ ++ [_; _; _]). cbn [app].
    rewrite <- app_assoc. reflexivity.
  - intros sh. apply frame_shape_log.
  - apply sort_shapes_perm.
  - apply sort_shapes_sorted.
  - apply sort_key_finite.
Qed.

Lemma frame_draw_order_witness :
  let s := (mkState (mkEnv 300 200)
             [SRect (Rect.mk 10 50 30 20 0 0 "#FFFFFF" None 1);
              SCircle (Circle.mk 40 20 25 "#000000" None 2 0.01 0 1 0)]
             [Stroke.mk [mkPoint 5 5; mkPoint 60 40] "#3A7CA5" 3 0.2 0]
             [Group.mk 100 80 0 0.001 1
                [Child.mk KCircle 30 40 10 20 15 "#000000" None 1]]
             true 0 0 [] 1 true true true) in
  let now := Fin 16 in
  (running s = true /\ Forall stroke_ok (strokes s)) /\
  let e := env s in
  let w := width e in
  let h := height e in
  let t := frame_time now s in
  let sorted := sort_shapes (shapes s) in
  let wash :=
    [SetFillStyle (LinearGradient 0 0 w h
                     [(Fin 0, Token "#FFF9F2"); (Fin 1, Token "#F0F7FF")]);
     FillRect 0 0 w h] in
  let ring :=
    [Save; SetGlobalAlpha 0.12;
     Translate (nmul w 0.5) (nmul h 0.45);
     Rotate (nmul (Math_sin (nmul t 0.1)) 0.4);
     BeginPath;
     Arc 0 0 (nmul (Math_min w h) 0.28) 0 TAU;
     SetLineWidth (nmul (Math_min w h) 0.1);
     SetStrokeStyle (Solid (Token "#FFC857"));
     StrokePath; Restore] in
  let accent :=
    [Save; SetGlobalAlpha 0.95;
     Translate (nmul w 0.85) (nmul h 0.18);
     Rotate (nmul (Math_sin (nmul t 0.6)) 0.6);
     BeginPath; SetFillStyle (Solid (Token "#000")); Arc 0 0 22 0 TAU; Fill;
     BeginPath; SetFillStyle (Solid (Token "#fff")); Arc (-6) (-6) 6 0 TAU; Fill;
     Restore] in
  let signature :=
    [Save;
     Translate (nmul w 0.06) (nmul h 0.92);
     Rotate (nadd (-0.12) (nmul (Math_sin (nmul t 0.4)) 0.02));
     SetGlobalAlpha 0.9; SetFillStyle (Solid (Token "#3A7CA5"));
     FillRect 0 0 10 36;
     BeginPath; MoveTo 8 18; LineTo 34 0; LineTo 34 6; LineTo 12 22;
     LineTo 34 36; LineTo 34 42; ClosePath; Fill;
     Restore] in
  ctx (frame now s)
    = ctx s ++ [ClearRect 0 0 w h]
        ++ wash
        ++ log_of (drawHatch e)
        ++ ring
        ++ flat_map (fun g => log_of (drawGroup g t)) (groups s)
        ++ flat_map (fun k => log_of (drawStroke k t)) (strokes s)
        ++ flat_map (fun sh => log_of (frame_shape e t sh)) sorted
        ++ accent
        ++ signature /\
  (exists lines,
     log_of (drawHatch e)
     = [Save; SetGlobalAlpha 0.04; SetStrokeStyle (Solid (Token "#000"));
        SetLineWidth 1] ++ lines ++ [Restore]) /\
  (forall g, exists cmds,
     log_of (drawGroup g t)
     = Save :: Translate (Group.x g) (Group.y g) :: cmds ++ [Restore]) /\
  (forall k, stroke_ok k -> exists cmds,
     log_of (drawStroke k t) = Save :: cmds ++ [StrokePath; Restore]) /\
  (forall sh, exists cmds,
     log_of (frame_shape e t sh)
     = Save :: Translate (shape_x (result_of (frame_shape e t sh)))
                         (shape_y (result_of (frame_shape e t sh)))
            :: cmds ++ [Restore] /\
     In Fill cmds) /\
  Permutation sorted (shapes s) /\
  StronglySorted (fun a b => sort_key a <= sort_key b) sorted /\
  (forall sh y, shape_y sh = Fin y -> sort_key sh = y).
Proof.
  intros s now.
  assert (Hrun : running s = true) by reflexivity.
  assert (Hok : Forall stroke_ok (strokes s))
    by (apply Forall_cons; [discriminate | apply Forall_nil]).
  split; [split; [exact Hrun | exact Hok]|].
  exact (frame_draw_order now s Hrun Hok).
Defined.

(** C7.  Every call of [frame] stores [now] in [last].  When running, the
    clock advances by [min(40, now - last) * 0.001] and the redraw starts
    (the surface is cleared and the layers follow); with drawable strokes
    the callback re-arms itself.  When paused, the context, the scene and
    the clock are left as they were and the callback re-arms itself.
    [resume] sets the flag and stores the current time in [last]. *)
Theorem frame_clock_and_running_flag (now : number) (s : State) :
  last (frame now s) = now /\
  (running s = true ->
     time (frame now s)
       = nadd (time s) (nmul (Math_min 40 (nsub now (last s))) 0.001) /\
     (forall n l c : R, now = Fin n -> last s = Fin l -> time s = Fin c ->
        time (frame now s) = Fin (c + Rmin 40 (n - l) * 0.001)) /\
     (exists cmds,
        ctx (frame now s)
          = ctx s ++ ClearRect 0 0 (width (env s)) (height (env s)) :: cmds) /\
     (Forall stroke_ok (strokes s) -> raf (frame now s) = S (raf s))) /\
  (running s = false ->
     ctx (frame now s) = ctx s /\
     shapes (frame now s) = shapes s /\
     strokes (frame now s) = strokes s /\
     groups (frame now s) = groups s /\
     time (frame now s) = time s /\
     running (frame now s) = false /\
     raf (frame now s) = S (raf s)) /\
  (forall n, running (resume n s) = true /\ last (resume n s) = n).
Proof.
  split; [apply frame_last|]. split; [|split].
  - intros Hrun. rewrite (frame_running now s Hrun). cbv zeta.
    assert (Ht : forall a b : State,
               time a = frame_time now s -> time b = frame_time now s ->
               time (if result_of (drawStrokes (frame_time now s) (strokes s))
                     then a else b) = frame_time now s)
      by (intros a b; now destruct (result_of _)).
    split; [now apply Ht|]. split; [|split].
    + intros n l c -> Hl Hc. rewrite Ht by reflexivity.
      unfold frame_time. now rewrite Hl, Hc.
    + destruct (result_of (drawStrokes (frame_time now s) (strokes s)));
        cbn [ctx]; rewrite <- ?app_assoc; cbn [app]; eexists; reflexivity.
    + intros Hok.
      destruct (drawStrokes_returns (frame_time now s) (strokes s) Hok) as [-> _].
      reflexivity.
  - intros Hrun. rewrite (frame_paused now s Hrun).
    destruct s; cbn in *. now subst.
  - intros n. now destruct s.
Qed.

Lemma frame_clock_and_running_flag_witness :
  let s := mkState (mkEnv 300 200) [] [] [] true 100 2 [] 1 true true true in
  time (frame 116 s) = Fin (2 + Rmin 40 (116 - 100) * 0.001).
Proof.
  cbv zeta.
  apply (proj1 (proj2 (proj1 (proj2 (frame_clock_and_running_flag 116
           (mkState (mkEnv 300 200) [] [] [] true 100 2 [] 1 true true true)))
           eq_refl)) 116 100 2 eq_refl eq_refl eq_refl).
Defined.

(** C8.  Pausing twice is pausing once and leaves the flag off; toggling
    twice gives back the flag it started from (only [last] is left changed,
    to the time of the second call). *)
Theorem pause_twice_toggle_twice (s : State) (n1 n2 : number) :
  pause (pause s) = pause s /\
  running (pause (pause s)) = false /\
  running (toggle n2 (toggle n1 s)) = running s /\
  toggle n2 (toggle n1 s) = set_last n2 s.
Proof.
  destruct s as [e sh sk g run l t c q rl ca api]. unfold pause, toggle. cbn.
  repeat split; try reflexivity; unfold set_last; cbn; now rewrite negb_involutive.
Qed.

(** C9.  [drawGroup] returns the group with [rotation] advanced by
    [speed] and every other field, the list of children included, as it
    was; so the children of every group are the same records after a
    frame, and after any run of frames.  What changes over time is the
    drawing: a circle child is drawn with the radius
    [r * (1 + 0.08 * sin (0.9 * t + (x + y) * 0.01))]. *)
Theorem drawGroup_leaves_children (g : Group.t) (t : number) (log : list Cmd) :
  let g' := fst (drawGroup g t log) in
  Group.children g' = Group.children g /\
  Group.x g' = Group.x g /\ Group.y g' = Group.y g /\
  Group.scale g' = Group.scale g /\ Group.speed g' = Group.speed g /\
  Group.rotation g' = nadd (Group.rotation g) (Group.speed g) /\
  (forall now s,
     map Group.children (groups (frame now s)) = map Group.children (groups s)) /\
  (forall nows s,
     map Group.children (groups (ticks nows s)) = map Group.children (groups s)) /\
  (forall (c : Child.t) (r x y u : R),
     Child.kind c = KCircle ->
     Child.r c = Fin r -> Child.x c = Fin x -> Child.y c = Fin y ->
     In (Arc 0 0 (Fin (r * (1 + 0.08 * sin (0.9 * u + (x + y) * 0.01)))) 0 TAU)
        (log_of (drawChild u c))).
Proof.
  cbv zeta. rewrite drawGroup_result. cbn.
  repeat split; try reflexivity.
  - apply frame_children.
  - intros nows s.
    apply (ticks_preserves (fun a => map Group.children (groups a))).
    intros now a. unfold tick.
    rewrite (iter_preserves _ (fun a => map Group.children (groups a)) _ _
               (frame_children now)).
    now destruct a.
  - intros c r x y u Hk Hr Hx Hy.
    pose proof (child_arc c u Hk) as H.
    unfold child_radius in H. rewrite Hr, Hx, Hy in H. cbn in H.
    now rewrite (Rmult_comm u) in H.
Qed.

Lemma drawGroup_leaves_children_witness :
  In (Arc 0 0 (Fin (10 * (1 + 0.08 * sin (0.9 * 2 + (3 + 4) * 0.01)))) 0 TAU)
     (log_of (drawChild 2 (Child.mk KCircle 3 4 10 20 30 "#FFFFFF" None 1))).
Proof.
  apply (drawGroup_leaves_children (Group.mk 0 0 0 0 1 []) 0 []); reflexivity.
Defined.

(** C10.  The radius [rad] of [drawCircle] is
    [r * (1 + 0.06 * sin (0.9 * t + phase))]: it is fixed by [t] and the
    fields [r] and [phase] alone, whatever the other fields, the surface
    size and the context hold; it is the radius of the arc the routine
    issues, and the record the routine returns gives the same radius
    again. *)
Theorem drawCircle_rad_pure
    (r ph t : R) (x y sw vx vy wob : number) (fill : string)
    (stroke : option string) (e : Env) (log : list Cmd) :
  let c := Circle.mk x y r fill stroke sw vx vy wob ph in
  let rad := Fin (r * (1 + 0.06 * sin (0.9 * t + ph))) in
  drawCircle_rad c t = rad /\
  drawCircle_rad (fst (drawCircle e c t log)) t = rad /\
  exists pre post,
    snd (drawCircle e c t log) = log ++ pre ++ Arc 0 0 rad 0 TAU :: post.
Proof.
  intros c rad.
  assert (Hrad : drawCircle_rad c t = rad).
  { unfold drawCircle_rad, rad, c. cbn. now rewrite (Rmult_comm t). }
  split; [exact Hrad|]. split.
  - rewrite drawCircle_result, drawCircle_rad_move. exact Hrad.
  - rewrite (appends_drawCircle e c t log). cbn [snd].
    unfold log_of, drawCircle, bind, emit, when, ret.
    rewrite drawCircle_rad_move, Hrad.
    destruct (ngt (Circle.strokeWidth (drawCircle_move e c)) (Fin 0)).
    + eexists [_; _; _; _; _], _. cbn [snd app]. reflexivity.
    + eexists [_; _; _; _; _], _. cbn [snd app]. reflexivity.
Qed.

(* ================================================================== *)
(** * Further properties of the code *)

(** ** The sampler and the shape generators *)

Lemma ndiv_Fin (x y : R) : y <> 0 -> ndiv (Fin x) (Fin y) = Fin (x / y).
Proof. intros H. cbn. destruct (Req_dec_T y 0); [contradiction | reflexivity]. Qed.





Lemma makeCircle_value (e : Env) (src : Source) (w h : R) :
  width e = Fin w -> height e = Fin h ->
  fst (makeCircle e src)
  = Circle.mk (Fin (0.1 * w + src 0%nat * (0.9 * w - 0.1 * w)))
              (Fin (0.12 * h + src 1%nat * (0.88 * h - 0.12 * h)))
              (Fin (18 + src 2%nat * (120 - 18)))
              (fst (pick_colour (fun n => src (3 + n)%nat)))
              None
              (Fin (0 + src 4%nat * (6 - 0)))
              (Fin ((-6 + src 5%nat * (6 - -6)) / 200))
              (Fin ((-6 + src 6%nat * (6 - -6)) / 200))
              (Fin (0.2 + src 7%nat * (1.2 - 0.2)))
              (Fin (0 + src 8%nat * (PI * 2 - 0))).
Proof.
  intros Hw Hh. unfold makeCircle, pick_colour, rand, bind, Math_random, ret.
  rewrite Hw, Hh. cbn [fst snd nadd nmul nsub lift2 TAU].
  rewrite !ndiv_Fin by lra. reflexivity.
Qed.









(** ** Groups as generated *)









(** ** The census of the scene *)

Lemma run_events_inv {B : Type} (p : State -> B) (evs : list Event) (s : State) :
  (forall now a, p (frame now a) = p a) ->
  (forall a, p (set_raf O a) = p a /\ p (pause a) = p a /\ p (destroy a) = p a /\
             forall n, p (resume n a) = p a /\ p (toggle n a) = p a) ->
  p (run_events evs s) = p s.
Proof.
  intros Hf Ho. revert s. unfold run_events.
  induction evs as [|ev evs IH]; intros s; [reflexivity|].
  cbn [fold_left]. rewrite IH.
  destruct (Ho s) as (H0 & Hp & Hd & Hn).
  destruct ev as [now| |now|now|]; cbn [step]; try assumption; try apply Hn.
  unfold tick. now rewrite (iter_preserves _ p _ _ (Hf now)).
Qed.

Lemma frame_flat_map {B : Type} (f : Shape -> list B) (now : number) (s : State) :
  (forall e t sh, f (result_of (frame_shape e t sh)) = f sh) ->
  Permutation (flat_map f (shapes (frame now s))) (flat_map f (shapes s)).
Proof.
  intros Hf. destruct (running s) eqn:Hrun.
  - rewrite (frame_running now s Hrun). cbv zeta.
    destruct (result_of (drawStrokes _ _)); cbn [shapes]; [|reflexivity].
    rewrite forEach_result by apply appends_frame_shape.
    rewrite flat_map_concat_map, map_map, <- flat_map_concat_map.
    rewrite (flat_map_ext _ f) by (intros; apply Hf).
    apply Permutation_flat_map, sort_shapes_perm.
  - rewrite (frame_paused now s Hrun). reflexivity.
Qed.

Lemma run_events_flat_map {B : Type} (f : Shape -> list B) (evs : list Event) (s : State) :
  (forall e t sh, f (result_of (frame_shape e t sh)) = f sh) ->
  Permutation (flat_map f (shapes (run_events evs s))) (flat_map f (shapes s)).
Proof.
  intros Hf. revert s. unfold run_events.
  induction evs as [|ev evs IH]; intros s; [reflexivity|].
  cbn [fold_left]. rewrite IH.
  destruct ev as [now| |now|now|]; cbn [step]; try reflexivity.
  unfold tick. change (shapes s) with (shapes (set_raf O s)).
  generalize (set_raf O s). intros a.
  induction (raf s) as [|n IHn]; [reflexivity|].
  rewrite Nat.iter_succ. now rewrite frame_flat_map.
Qed.

Lemma filter_length_flat_map (p : Shape -> bool) (l : list Shape) :
  List.length (filter p l)
  = List.length (flat_map (fun sh => if p sh then [tt] else []) l).
Proof.
  induction l as [|a l IH]; [reflexivity|]. cbn [filter flat_map].
  destruct (p a); cbn; now rewrite IH.
Qed.

Lemma frame_shape_same_kind (e : Env) (t : number) (sh : Shape) :
  is_circle (result_of (frame_shape e t sh)) = is_circle sh /\
  is_triangle (result_of (frame_shape e t sh)) = is_triangle sh /\
  is_rect (result_of (frame_shape e t sh)) = is_rect sh.
Proof.
  pose proof (frame_shape_kind e t sh) as H.
  destruct sh as [c0|t0|r0]; destruct H as [c1 ->]; now repeat split.
Qed.

Lemma run_events_count (p : Shape -> bool) (evs : list Event) (s : State) :
  (forall e t sh, p (result_of (frame_shape e t sh)) = p sh) ->
  List.length (filter p (shapes (run_events evs s))) = List.length (filter p (shapes s)).
Proof.
  intros Hp. rewrite !filter_length_flat_map. apply Permutation_length.
  apply run_events_flat_map. intros e t sh. now rewrite Hp.
Qed.

Lemma frame_groups_length (now : number) (s : State) :
  List.length (groups (frame now s)) = List.length (groups s).
Proof.
  destruct (frame_groups now s) as [-> | ->]; [reflexivity | apply length_map].
Qed.

Lemma populate_census (e : Env) (src : Source) :
  exists cs ts rs sks gs,
    fst (populate e src)
    = (map SCircle cs ++ map STriangle ts ++ map SRect rs, sks, gs) /\
    List.length cs = 9%nat /\ List.length ts = 8%nat /\ List.length rs = 6%nat /\
    List.length sks = 5%nat /\ List.length gs = 3%nat.
Proof.
  unfold populate, replicateM.
  unfold bind at 1.
  pose proof (forEach_length (fun _ : nat => makeCircle e) (seq 0 9) src) as H1.
  destruct (forEach _ (seq 0 9) src) as [cs s1].
  unfold bind at 1.
  pose proof (forEach_length (fun _ : nat => makeTriangle e) (seq 0 8) s1) as H2.
  destruct (forEach _ (seq 0 8) s1) as [ts s2].
  unfold bind at 1.
  pose proof (forEach_length (fun _ : nat => makeRect e) (seq 0 6) s2) as H3.
  destruct (forEach _ (seq 0 6) s2) as [rs s3].
  unfold bind at 1.
  pose proof (forEach_length (fun _ : nat => makeStroke e) (seq 0 5) s3) as H4.
  destruct (forEach _ (seq 0 5) s3) as [sks s4].
  unfold bind at 1.
  pose proof (forEach_length
                (fun _ : nat => c <- rand (Fin 5) (Fin 10);; makeGroup e c)
                (seq 0 3) s4) as H5.
  destruct (forEach _ (seq 0 3) s4) as [gs s5].
  cbn [fst snd ret] in *.
  exists cs, ts, rs, sks, gs. now repeat split.
Qed.

Lemma filter_kind_app (cs : list Circle.t) (ts : list Triangle.t) (rs : list Rect.t) :
  List.length (filter is_circle (map SCircle cs ++ map STriangle ts ++ map SRect rs))
    = List.length cs /\
  List.length (filter is_triangle (map SCircle cs ++ map STriangle ts ++ map SRect rs))
    = List.length ts /\
  List.length (filter is_rect (map SCircle cs ++ map STriangle ts ++ map SRect rs))
    = List.length rs.
Proof.
  rewrite !filter_app, !length_app.
  assert (Hc : forall (p : Shape -> bool) (A : Type) (k : A -> Shape) (l : list A) (b : bool),
             (forall a, p (k a) = b) ->
             List.length (filter p (map k l)) = if b then List.length l else O).
  { intros p A k l b Hb. induction l as [|a l IH]; [now destruct b|].
    cbn [map filter]. rewrite Hb. destruct b; cbn; now rewrite IH. }
  rewrite (Hc is_circle _ SCircle cs true), (Hc is_circle _ STriangle ts false),
    (Hc is_circle _ SRect rs false), (Hc is_triangle _ SCircle cs false),
    (Hc is_triangle _ STriangle ts true), (Hc is_triangle _ SRect rs false),
    (Hc is_rect _ SCircle cs false), (Hc is_rect _ STriangle ts false),
    (Hc is_rect _ SRect rs true) by reflexivity.
  repeat split; lia.
Qed.

(** X6.  The script populates the scene with 9 circles, then 8 triangles,
    then 6 rectangles, 5 strokes and 3 groups; and whatever frames and API
    calls follow, for any source and any surface, the scene keeps exactly
    9 circles, 8 triangles, 6 rectangles, 5 strokes and 3 groups: no record
    is ever added or removed. *)
Theorem scene_census (e : Env) (src : Source) (now : number) (evs : list Event) :
  (exists cs ts rs,
     shapes (start e src now) = map SCircle cs ++ map STriangle ts ++ map SRect rs /\
     List.length cs = 9%nat /\ List.length ts = 8%nat /\ List.length rs = 6%nat) /\
  let s := run_events evs (start e src now) in
  List.length (filter is_circle (shapes s)) = 9%nat /\
  List.length (filter is_triangle (shapes s)) = 8%nat /\
  List.length (filter is_rect (shapes s)) = 6%nat /\
  List.length (shapes s) = 23%nat /\
  List.length (strokes s) = 5%nat /\
  List.length (groups s) = 3%nat.
Proof.
  destruct (populate_census e src) as (cs & ts & rs & sks & gs & Hp & H1 & H2 & H3 & H4 & H5).
  assert (Hs : shapes (start e src now) = map SCircle cs ++ map STriangle ts ++ map SRect rs
               /\ strokes (start e src now) = sks /\ groups (start e src now) = gs).
  { unfold start. rewrite Hp. now repeat split. }
  destruct Hs as (Hsh & Hsk & Hg).
  split; [now exists cs, ts, rs|]. cbv zeta.
  destruct (filter_kind_app cs ts rs) as (F1 & F2 & F3).
  rewrite !run_events_count by (intros; apply frame_shape_same_kind).
  rewrite Hsh, F1, F2, F3, run_events_strokes, Hsk.
  repeat split; try assumption.
  - rewrite <- (length_map (fun _ => tt)).
    assert (Hu : forall l : list Shape,
               map (fun _ => tt) l = flat_map (fun _ => [tt]) l)
      by (induction l as [|a l IH]; cbn; [reflexivity | now rewrite IH]).
    rewrite Hu.
    rewrite (Permutation_length
               (run_events_flat_map (fun _ => [tt]) evs (start e src now)
                  (fun _ _ _ => eq_refl))).
    rewrite <- Hu, length_map, Hsh, !length_app, !length_map. lia.
  - rewrite (run_events_inv (fun a => List.length (groups a)) evs (start e src now)).
    + now rewrite Hg.
    + intros n a. apply frame_groups_length.
    + intros a. now repeat split.
Qed.

(** ** The background hatch *)

Lemma hatch_log (e : Env) (st : number) (n : nat) (x : number) :
  log_of (hatch e st (S n) x)
  = [BeginPath; MoveTo x 0; LineTo (nadd x (height e)) (height e); StrokePath]
      ++ log_of (hatch e st n (nadd x st)).
Proof.
  unfold log_of at 1. cbn [hatch]. unfold bind, emit. cbn [app snd].
  now rewrite (appends_hatch e st n (nadd x st) _).
Qed.

Lemma hatch_lines (e : Env) (w h st : R) (n : nat) (x0 : R) :
  width e = Fin w -> height e = Fin h -> 0 <= st -> - h <= x0 ->
  (forall k, (k < n)%nat -> x0 + INR k * st < w) ->
  Forall (hatch_cmd_ok w h) (log_of (hatch e (Fin st) n (Fin x0))) /\
  List.length (filter is_stroke_cmd (log_of (hatch e (Fin st) n (Fin x0)))) = n.
Proof.
  intros Hw Hh Hst. revert x0. induction n as [|n IH]; intros x0 Hx0 Hk.
  - split; [constructor | reflexivity].
  - rewrite hatch_log, Hh. cbn [nadd lift2].
    destruct (IH (x0 + st)) as [IHf IHc]; [lra | |].
    { intros k Hlt. specialize (Hk (S k) (proj1 (Nat.succ_lt_mono k n) Hlt)).
      rewrite S_INR in Hk. lra. }
    pose proof (Hk O (Nat.lt_0_succ n)) as H0. cbn [INR] in H0.
    split.
    + apply Forall_cons; [exact I|].
      apply Forall_cons; [cbn; repeat split; lra|].
      apply Forall_cons; [cbn; repeat split; lra|].
      apply Forall_cons; [exact I | exact IHf].
    + cbn [app filter is_stroke_cmd List.length]. now rewrite IHc.
Qed.

(** X7.  On a surface of finite size the hatch step is an amount between
    20 and 60, so the loop ends; it strokes one line for each natural
    [k] with [-height + k * step < width] and no other; every line starts
    on the top edge left of [width] and ends on the bottom edge. *)
Theorem drawHatch_lines (e : Env) (w h : R) :
  width e = Fin w -> height e = Fin h -> 0 <= h ->
  exists st,
    Math_max 20 (Math_min 60 (Math_floor (ndiv (nadd (width e) (height e)) 60)))
      = Fin st /\
    20 <= st <= 60 /\
    (forall k, (k < List.length (filter is_stroke_cmd (log_of (drawHatch e))))%nat
               <-> - h + INR k * st < w) /\
    Forall (hatch_cmd_ok w h) (log_of (drawHatch e)).
Proof.
  intros Hw Hh Hhp.
  set (st := Rmax 20 (Rmin 60 (IZR (Int_part ((w + h) / 60))))).
  assert (Hst : 20 <= st <= 60).
  { unfold st. split; [apply Rmax_l|].
    apply Rmax_lub; [lra | apply Rmin_l]. }
  assert (Hstep : Math_max 20 (Math_min 60 (Math_floor (ndiv (nadd (width e) (height e)) 60)))
                  = Fin st).
  { rewrite Hw, Hh. cbn [nadd lift2]. rewrite ndiv_Fin by lra. reflexivity. }
  exists st. split; [exact Hstep|]. split; [exact Hst|].
  assert (Hlog : log_of (drawHatch e)
                 = [Save; SetGlobalAlpha 0.04; SetStrokeStyle (Solid (Token "#000"));
                    SetLineWidth 1]
                     ++ log_of (hatch e (Fin st)
                                  (loop_count (ndiv (nadd (Fin w) (Fin h)) (Fin st)))
                                  (Fin (- h)))
                     ++ [Restore]).
  { unfold log_of at 1, drawHatch. rewrite Hstep. rewrite Hw, Hh.
    unfold bind, emit. cbn [app snd nneg].
    now rewrite (appends_hatch e (Fin st) _ (Fin (- h)) _). }
  destruct (hatch_lines e w h st
              (loop_count (ndiv (nadd (Fin w) (Fin h)) (Fin st))) (- h) Hw Hh)
    as [Hf Hc]; [lra | lra | |].
  { intros k Hk. apply (hatch_rounds w h st k); [lra | exact Hk]. }
  rewrite Hlog. split.
  - intros k. cbn [app filter is_stroke_cmd].
    rewrite filter_app, length_app, Hc. cbn [filter is_stroke_cmd List.length].
    rewrite Nat.add_0_r. apply hatch_rounds. lra.
  - repeat (apply Forall_cons; [exact I|]).
    apply Forall_app. split; [exact Hf | repeat constructor].
Qed.

Lemma drawHatch_lines_witness :
  exists st,
    Math_max 20 (Math_min 60 (Math_floor (ndiv (nadd 300 200) 60))) = Fin st /\
    20 <= st <= 60.
Proof.
  destruct (drawHatch_lines (mkEnv 300 200) 300 200 eq_refl eq_refl) as (st & H1 & H2 & _);
    [lra|].
  exists st. split; [exact H1 | exact H2].
Defined.

(** ** Circles on the surface *)

(** X8.  Whatever the position and velocity of a circle of radius
    [r >= 0], after [drawCircle] its centre lies in the surface padded by
    [r] on every side. *)
Theorem drawCircle_in_padded_viewport
    (w h x y r vx vy : R) (fill : string) (stroke : option string)
    (sw wob ph t : number) (log : list Cmd) :
  0 <= r -> 0 <= w -> 0 <= h ->
  let c' := fst (drawCircle (mkEnv w h)
                   (Circle.mk x y r fill stroke sw vx vy wob ph) t log) in
  exists x' y',
    Circle.x c' = Fin x' /\ Circle.y c' = Fin y' /\
    - r <= x' <= w + r /\ - r <= y' <= h + r.
Proof.
  intros Hr Hw Hh. cbv zeta. rewrite drawCircle_result.
  unfold drawCircle_move. cbn. decide_lt.
  all: do 2 eexists; (split; [reflexivity|]); (split; [reflexivity|]); lra.
Qed.

Lemma drawCircle_in_padded_viewport_witness :
  exists x' y',
    Circle.x (fst (drawCircle (mkEnv 300 200)
                     (Circle.mk 500 (-90) 20 "#FFFFFF" None 0 3 (-4) 1 0) 0 [])) = Fin x' /\
    Circle.y (fst (drawCircle (mkEnv 300 200)
                     (Circle.mk 500 (-90) 20 "#FFFFFF" None 0 3 (-4) 1 0) 0 [])) = Fin y' /\
    - 20 <= x' <= 300 + 20 /\ - 20 <= y' <= 200 + 20.
Proof.
  apply (drawCircle_in_padded_viewport 300 200 500 (-90) 20 3 (-4)); lra.
Defined.



(** ** Triangles and rectangles *)

Lemma drawTriangle_result (s : Triangle.t) (t : number) (log : list Cmd) :
  fst (drawTriangle s t log)
  = Triangle.set_rotation
      (nadd (js_or (Triangle.rotation s) (Fin 0)) (Triangle.rotationSpeed s)) s.
Proof.
  rewrite (appends_drawTriangle s t log).
  unfold result_of, drawTriangle, bind, emit, when, ret.
  cbn [Triangle.stroke Triangle.set_rotation].
  destruct (truthy_str (Triangle.stroke s)); reflexivity.
Qed.

Lemma drawRect_result (s : Rect.t) (t : number) (log : list Cmd) :
  fst (drawRect s t log)
  = Rect.set_rotation
      (nadd (js_or (Rect.rotation s) (Fin 0)) (Rect.rotationSpeed s)) s.
Proof.
  rewrite (appends_drawRect s t log).
  unfold result_of, drawRect, bind, emit, when, ret.
  cbn [Rect.stroke Rect.set_rotation].
  destruct (truthy_str (Rect.stroke s)); reflexivity.
Qed.

Lemma js_or_finite (a : R) : js_or (Fin a) (Fin 0) = Fin a.
Proof.
  unfold js_or, truthy. destruct (Req_dec_T a 0); [now subst | reflexivity].
Qed.

(** X10.  [drawTriangle] writes the rotation and nothing else: a finite
    rotation is advanced by the rotation speed, a [NaN] rotation is
    replaced by the rotation speed alone ([s.rotation || 0]); position,
    size, skew, colours and speed are returned as they were, whatever the
    time. *)
Theorem drawTriangle_rotates_only (s : Triangle.t) (t : number) (log : list Cmd) :
  let s' := fst (drawTriangle s t log) in
  Triangle.x s' = Triangle.x s /\ Triangle.y s' = Triangle.y s /\
  Triangle.size s' = Triangle.size s /\ Triangle.skew s' = Triangle.skew s /\
  Triangle.rotationSpeed s' = Triangle.rotationSpeed s /\
  Triangle.fill s' = Triangle.fill s /\ Triangle.stroke s' = Triangle.stroke s /\
  Triangle.strokeWidth s' = Triangle.strokeWidth s /\
  Triangle.phase s' = Triangle.phase s /\
  (forall a, Triangle.rotation s = Fin a ->
     Triangle.rotation s' = nadd (Fin a) (Triangle.rotationSpeed s)) /\
  (Triangle.rotation s = NaN ->
     Triangle.rotation s' = nadd (Fin 0) (Triangle.rotationSpeed s)).
Proof.
  cbv zeta. rewrite drawTriangle_result. cbn.
  repeat split; try reflexivity.
  - intros a ->. now rewrite js_or_finite.
  - intros ->. reflexivity.
Qed.

Lemma drawTriangle_rotates_only_witness :
  Triangle.rotation
    (fst (drawTriangle
            (Triangle.mk 50 60 40 1 0.01 "#FFFFFF" (Some "#000000"%string) 1 0 Undefined)
            0 []))
  = nadd (Fin 1) (Fin 0.01).
Proof.
  apply (drawTriangle_rotates_only
           (Triangle.mk 50 60 40 1 0.01 "#FFFFFF" (Some "#000000"%string) 1 0 Undefined)
           0 []).
  reflexivity.
Defined.

Lemma frame_shape_rect (e : Env) (t : number) (r : Rect.t) :
  result_of (frame_shape e t (SRect r))
  = SRect (Rect.set_rotation
             (nadd (js_or (Rect.rotation r) (Fin 0)) (Rect.rotationSpeed r)) r).
Proof.
  cbn [frame_shape]. rewrite bind_result by auto with draw.
  unfold result_of at 1, ret. cbn [fst]. f_equal. apply drawRect_result.
Qed.

Lemma frame_shape_rect_geometry (e : Env) (t : number) (sh : Shape) :
  rect_geometry [result_of (frame_shape e t sh)] = rect_geometry [sh].
Proof.
  destruct sh as [c|tr|r].
  - destruct (frame_shape_kind e t (SCircle c)) as [c' ->]. reflexivity.
  - destruct (frame_shape_kind e t (STriangle tr)) as [c' ->]. reflexivity.
  - rewrite frame_shape_rect. reflexivity.
Qed.

(** X11.  [drawRect] writes the rotation and nothing else, and no other
    code writes to a rectangle: through any run of frames and API calls,
    from any state, the rectangles of the scene keep their position, width
    and height (the frame only reorders the list). *)
Theorem rects_never_move (s : State) (evs : list Event)
    (r : Rect.t) (t : number) (log : list Cmd) :
  let r' := fst (drawRect r t log) in
  (Rect.x r' = Rect.x r /\ Rect.y r' = Rect.y r /\
   Rect.w r' = Rect.w r /\ Rect.h r' = Rect.h r /\
   Rect.rotationSpeed r' = Rect.rotationSpeed r /\
   Rect.fill r' = Rect.fill r /\ Rect.stroke r' = Rect.stroke r /\
   Rect.strokeWidth r' = Rect.strokeWidth r /\
   Rect.rotation r' = nadd (js_or (Rect.rotation r) (Fin 0)) (Rect.rotationSpeed r)) /\
  Permutation (rect_geometry (shapes (run_events evs s))) (rect_geometry (shapes s)).
Proof.
  cbv zeta. rewrite drawRect_result. split; [now repeat split|].
  unfold rect_geometry. apply run_events_flat_map.
  intros e t0 sh. pose proof (frame_shape_rect_geometry e t0 sh) as H.
  unfold rect_geometry in H. cbn [flat_map] in H. now rewrite !app_nil_r in H.
Qed.

Lemma drawCircle_move_core (e : Env) (c : Circle.t) :
  circle_core (drawCircle_move e c) = circle_core c.
Proof.
  unfold drawCircle_move.
  repeat match goal with
         | |- context [if ?b then _ else _] => destruct b
         end; reflexivity.
Qed.

Lemma frame_shape_circle (e : Env) (t : number) (c : Circle.t) :
  result_of (frame_shape e t (SCircle c))
  = SCircle
      (drawCircle_move e
         (Circle.set_y
            (nadd (Circle.y c)
               (nmul (nmul (Math_cos
                  (nadd (nmul t (Fin 0.14))
                     (nmul (nsub
                        (nadd (Circle.x c)
                           (nmul (nmul (Math_sin
                              (nadd (nmul t (Fin 0.2))
                                 (nmul (nadd (Circle.x c) (Circle.y c)) (Fin 0.001))))
                              (Fin 0.02)) (parallax e (SCircle c))))
                        (Circle.y c)) (Fin 0.001)))) (Fin 0.02))
                  (parallax e (SCircle c))))
            (Circle.set_x
               (nadd (Circle.x c)
                  (nmul (nmul (Math_sin
                     (nadd (nmul t (Fin 0.2))
                        (nmul (nadd (Circle.x c) (Circle.y c)) (Fin 0.001))))
                     (Fin 0.02)) (parallax e (SCircle c))))
               c))).
Proof.
  cbn [frame_shape]. rewrite bind_result by auto with draw.
  unfold result_of at 1, ret. cbn [fst]. f_equal. apply drawCircle_result.
Qed.

Lemma frame_shape_circle_core (e : Env) (t : number) (sh : Shape) :
  circle_cores [result_of (frame_shape e t sh)] = circle_cores [sh].
Proof.
  destruct sh as [c|tr|r].
  - rewrite frame_shape_circle. unfold circle_cores. cbn [flat_map].
    now rewrite drawCircle_move_core.
  - destruct (frame_shape_kind e t (STriangle tr)) as [c' ->]. reflexivity.
  - destruct (frame_shape_kind e t (SRect r)) as [c' ->]. reflexivity.
Qed.

(** X12.  The frame moves circles and changes nothing else about them:
    through any run of frames and API calls, from any state, the circles of
    the scene keep their radius, colours, stroke width, velocity, wobble
    and phase. *)
Theorem circles_keep_core (s : State) (evs : list Event) :
  Permutation (circle_cores (shapes (run_events evs s))) (circle_cores (shapes s)).
Proof.
  unfold circle_cores. apply run_events_flat_map.
  intros e t sh. pose proof (frame_shape_circle_core e t sh) as H.
  unfold circle_cores in H. cbn [flat_map] in H. now rewrite !app_nil_r in H.
Qed.

Lemma drawCircle_move_in_view (e : Env) (w h : R) (c : Circle.t) :
  width e = Fin w -> height e = Fin h -> 0 <= w -> 0 <= h ->
  (exists x y r vx vy,
     Circle.x c = Fin x /\ Circle.y c = Fin y /\ Circle.r c = Fin r /\
     Circle.vx c = Fin vx /\ Circle.vy c = Fin vy /\ 0 <= r) ->
  circle_in_view w h (SCircle (drawCircle_move e c)).
Proof.
  intros Hw Hh Hwp Hhp (x & y & r & vx & vy & Hx & Hy & Hr & Hvx & Hvy & Hrp).
  destruct c as [cx cy cr cf cs csw cvx cvy cwob cph]. cbn in Hx, Hy, Hr, Hvx, Hvy.
  subst. unfold drawCircle_move. rewrite Hw, Hh. cbn. decide_lt.
  all: do 5 eexists; repeat (split; [reflexivity|]); repeat split; lra.
Qed.

Lemma frame_shape_in_view (e : Env) (w h t : R) (sh : Shape) :
  width e = Fin w -> height e = Fin h -> 0 <= w -> 0 < h ->
  circle_in_view w h sh ->
  circle_in_view w h (result_of (frame_shape e (Fin t) sh)).
Proof.
  intros Hw Hh Hwp Hhp Hin. destruct sh as [c|tr|r].
  - rewrite frame_shape_circle.
    destruct Hin as (x & y & r & vx & vy & Hx & Hy & Hr & Hvx & Hvy & Hrp & _).
    rewrite (parallax_finite e (SCircle c) y h Hy Hh) by lra.
    apply (drawCircle_move_in_view e w h); try assumption; try lra.
    destruct c as [cx cy cr cf cs csw cvx cvy cwob cph]. cbn in Hx, Hy, Hr, Hvx, Hvy.
    subst. cbn. do 5 eexists. repeat (split; [reflexivity|]). exact Hrp.
  - destruct (frame_shape_kind e (Fin t) (STriangle tr)) as [c' ->]. exact I.
  - destruct (frame_shape_kind e (Fin t) (SRect r)) as [c' ->]. exact I.
Qed.

Lemma frame_in_view (w h n : R) (s : State) :
  0 <= w -> 0 < h -> in_view_state w h s -> in_view_state w h (frame (Fin n) s).
Proof.
  intros Hwp Hhp (Hw & Hh & [l Hl] & [c Hc] & Hin).
  destruct (running s) eqn:Hrun.
  - rewrite (frame_running (Fin n) s Hrun). cbv zeta.
    assert (Ht : frame_time (Fin n) s = Fin (c + Rmin 40 (n - l) * 0.001))
      by (unfold frame_time; now rewrite Hl, Hc).
    unfold in_view_state.
    destruct (result_of (drawStrokes _ _));
      cbn [env last time shapes]; rewrite Ht;
      (split; [exact Hw|]); (split; [exact Hh|]);
      (split; [now exists n|]); (split; [now eexists|]); [|exact Hin].
    rewrite forEach_result by apply appends_frame_shape.
    apply Forall_map.
    assert (Hsorted : Forall (circle_in_view w h) (sort_shapes (shapes s))).
    { eapply Permutation_Forall; [|exact Hin]. symmetry. apply sort_shapes_perm. }
    revert Hsorted. apply Forall_impl. intros sh.
    now apply frame_shape_in_view.
  - rewrite (frame_paused (Fin n) s Hrun).
    unfold in_view_state. cbn. repeat split; try assumption; eauto.
Qed.

Lemma step_in_view (w h : R) (s : State) (ev : Event) :
  0 <= w -> 0 < h -> finite_event ev ->
  in_view_state w h s -> in_view_state w h (step s ev).
Proof.
  intros Hwp Hhp Hev Hs.
  destruct ev as [[|n]| |[|n]|[|n]|]; cbn in Hev; try contradiction; cbn [step].
  - unfold tick.
    assert (H0 : in_view_state w h (set_raf O s)) by (destruct s; exact Hs).
    revert H0. generalize (set_raf O s). intros a Ha.
    induction (raf s) as [|k IH]; [exact Ha|].
    rewrite Nat.iter_succ. now apply frame_in_view.
  - destruct s; exact Hs.
  - destruct Hs as (Hw & Hh & _ & Hc & Hin). destruct s.
    unfold in_view_state. cbn in *. repeat split; eauto.
  - destruct Hs as (Hw & Hh & _ & Hc & Hin). destruct s.
    unfold in_view_state. cbn in *. repeat split; eauto.
  - destruct s; exact Hs.
Qed.

Lemma makeCircle_in_view (e : Env) (src : Source) (w h : R) :
  width e = Fin w -> height e = Fin h -> 0 < w -> 0 < h -> unit_source src ->
  circle_in_view w h (SCircle (fst (makeCircle e src))).
Proof.
  intros Hw Hh Hwp Hhp Hsrc. rewrite (makeCircle_value e src w h Hw Hh).
  pose proof (Hsrc 0%nat). pose proof (Hsrc 1%nat). pose proof (Hsrc 2%nat).
  cbn. do 5 eexists. repeat (split; [reflexivity|]). repeat split; nra.
Qed.

Lemma start_in_view (e : Env) (src : Source) (w h now0 : R) :
  width e = Fin w -> height e = Fin h -> 0 < w -> 0 < h -> unit_source src ->
  in_view_state w h (start e src (Fin now0)).
Proof.
  intros Hw Hh Hwp Hhp Hsrc.
  assert (Hcs : exists cs ts rs sks gs,
             fst (populate e src)
             = (map SCircle cs ++ map STriangle ts ++ map SRect rs, sks, gs) /\
             Forall (fun c => circle_in_view w h (SCircle c)) cs).
  { unfold populate, replicateM. unfold bind at 1.
    pose proof (forEach_Forall (fun c => circle_in_view w h (SCircle c))
                  (fun _ : nat => makeCircle e) (seq 0 9)
                  (fun _ => keeps_unit_makeCircle e)
                  (fun _ s Hs => makeCircle_in_view e s w h Hw Hh Hwp Hhp Hs)
                  src Hsrc) as Hc.
    destruct (forEach _ (seq 0 9) src) as [cs s1].
    unfold bind at 1. destruct (forEach _ (seq 0 8) s1) as [ts s2].
    unfold bind at 1. destruct (forEach _ (seq 0 6) s2) as [rs s3].
    unfold bind at 1. destruct (forEach _ (seq 0 5) s3) as [sks s4].
    unfold bind at 1. destruct (forEach _ (seq 0 3) s4) as [gs s5].
    exists cs, ts, rs, sks, gs. split; [reflexivity | exact Hc]. }
  destruct Hcs as (cs & ts & rs & sks & gs & Hp & Hc).
  unfold start. rewrite Hp. unfold in_view_state. cbn [env last time shapes].
  repeat split; try assumption; eauto.
  rewrite !Forall_app. repeat split.
  - apply Forall_map. exact Hc.
  - apply Forall_map. apply Forall_forall. intros; exact I.
  - apply Forall_map. apply Forall_forall. intros; exact I.
Qed.

(** X13.  The wrap-around invariant.  From the scene the script starts
    with, on a surface of finite positive size, through any run of frames
    and API calls with finite timestamps, every circle has a finite centre
    within the surface padded by its radius: [-r <= x <= width + r] and
    [-r <= y <= height + r]. *)
Theorem circles_stay_in_view
    (e : Env) (src : Source) (w h now0 : R) (evs : list Event) :
  unit_source src -> width e = Fin w -> height e = Fin h -> 0 < w -> 0 < h ->
  Forall finite_event evs ->
  Forall (circle_in_view w h) (shapes (run_events evs (start e src (Fin now0)))).
Proof.
  intros Hsrc Hw Hh Hwp Hhp Hevs.
  pose proof (start_in_view e src w h now0 Hw Hh Hwp Hhp Hsrc) as H0.
  revert H0. generalize (start e src (Fin now0)). unfold run_events.
  induction Hevs as [|ev evs Hev Hevs IH]; intros s Hs.
  - apply Hs.
  - cbn [fold_left]. apply IH. apply step_in_view; try assumption; lra.
Qed.

Lemma circles_stay_in_view_witness :
  Forall (circle_in_view 300 200)
    (shapes (run_events [Tick 16; Pause; Tick 32; Toggle 40; Tick 48]
               (start (mkEnv 300 200) (fun _ => 0.5) (Fin 0)))).
Proof.
  apply (circles_stay_in_view (mkEnv 300 200) (fun _ => 0.5) 300 200 0);
    try reflexivity; try lra.
  - intros n; lra.
  - repeat constructor.
Defined.

(** ** Save and restore *)

Lemma depth_after_app (d : nat) (l1 l2 : list Cmd) :
  depth_after d (l1 ++ l2)
  = match depth_after d l1 with
    | Some d' => depth_after d' l2
    | None => None
    end.
Proof.
  revert d. induction l1 as [|c l1 IH]; intros d; [reflexivity|].
  destruct c; cbn [app depth_after]; try apply IH.
  destruct d; [reflexivity | apply IH].
Qed.

Lemma balanced_nil : balanced [].
Proof. intros d. reflexivity. Qed.

Lemma balanced_app (l1 l2 : list Cmd) :
  balanced l1 -> balanced l2 -> balanced (l1 ++ l2).
Proof. intros H1 H2 d. now rewrite depth_after_app, H1. Qed.

Lemma balanced_flat_map {A : Type} (f : A -> list Cmd) (l : list A) :
  (forall a, balanced (f a)) -> balanced (flat_map f l).
Proof.
  intros Hf. induction l as [|a l IH]; [apply balanced_nil|].
  cbn [flat_map]. now apply balanced_app.
Qed.

Lemma balanced_wrap (l : list Cmd) :
  balanced l -> balanced (Save :: l ++ [Restore]).
Proof.
  intros H d. cbn [depth_after]. now rewrite depth_after_app, H.
Qed.

Lemma balanced_hatch (e : Env) (st : number) (n : nat) (x : number) :
  balanced (log_of (hatch e st n x)).
Proof.
  revert x. induction n as [|n IH]; intros x; [apply balanced_nil|].
  rewrite hatch_log. intros d. cbn [app depth_after]. apply IH.
Qed.

Lemma balanced_map_neutral {A : Type} (f : A -> Cmd) (l : list A) :
  (forall a d, depth_after d [f a] = Some d) -> balanced (map f l).
Proof.
  intros Hf. rewrite <- flat_map_singleton. apply balanced_flat_map.
  intros a d. apply Hf.
Qed.

Lemma balanced_drawStroke (k : Stroke.t) (t : number) :
  stroke_ok k -> balanced (log_of (drawStroke k t)).
Proof.
  unfold stroke_ok. intros Hk.
  destruct (Stroke.points k) as [|p0 rest] eqn:Hp; [contradiction|].
  rewrite (drawStroke_log k t p0 rest Hp). cbv zeta.
  intros d. cbn [app depth_after]. rewrite depth_after_app.
  rewrite balanced_map_neutral by reflexivity. reflexivity.
Qed.

Lemma balanced_drawChild (t : number) (c : Child.t) :
  balanced (log_of (drawChild t c)).
Proof.
  unfold log_of, drawChild, bind, emit, when, ret.
  destruct (Child.kind c), (truthy_str (Child.stroke c)); intros d; reflexivity.
Qed.

Lemma balanced_drawGroup (g : Group.t) (t : number) :
  balanced (log_of (drawGroup g t)).
Proof.
  rewrite drawGroup_log. intros d. cbn [app depth_after]. rewrite depth_after_app.
  rewrite (balanced_flat_map _ _ (balanced_drawChild t)). reflexivity.
Qed.

Lemma balanced_drawCircle (e : Env) (c : Circle.t) (t : number) :
  balanced (log_of (drawCircle e c t)).
Proof.
  unfold log_of, drawCircle, bind, emit, when, ret.
  destruct (ngt (Circle.strokeWidth (drawCircle_move e c)) (Fin 0));
    intros d; reflexivity.
Qed.

Lemma balanced_drawTriangle (s : Triangle.t) (t : number) :
  balanced (log_of (drawTriangle s t)).
Proof.
  unfold log_of, drawTriangle, bind, emit, when, ret.
  cbn [Triangle.stroke Triangle.set_rotation].
  destruct (truthy_str (Triangle.stroke s)); intros d; reflexivity.
Qed.

Lemma balanced_drawRect (s : Rect.t) (t : number) :
  balanced (log_of (drawRect s t)).
Proof.
  unfold log_of, drawRect, bind, emit, when, ret.
  cbn [Rect.stroke Rect.set_rotation].
  destruct (truthy_str (Rect.stroke s)); intros d; reflexivity.
Qed.

Lemma balanced_drawBackgroundTexture (e : Env) :
  balanced (log_of (drawBackgroundTexture e)).
Proof.
  unfold drawBackgroundTexture. rewrite bind_log by auto with draw.
  apply balanced_app; [intros d; reflexivity|].
  destruct (drawHatch_log e) as (st & n & ->).
  intros d. cbn [app depth_after]. rewrite depth_after_app.
  now rewrite balanced_hatch.
Qed.

Lemma balanced_frame_shape (e : Env) (t : number) (sh : Shape) :
  balanced (log_of (frame_shape e t sh)).
Proof.
  destruct sh as [c|tr|r]; cbn [frame_shape]; rewrite bind_log by auto with draw;
    (apply balanced_app; [|apply balanced_nil]).
  - apply balanced_drawCircle.
  - apply balanced_drawTriangle.
  - apply balanced_drawRect.
Qed.

(** X14.  Every draw routine that returns leaves the save/restore stack of
    the context at the depth it found it, and never pops below that depth:
    the background, a circle, a triangle, a rectangle, a group with any
    children, a stroke with at least one point, and the three fixed
    decorations. *)
Theorem draw_routines_balanced (e : Env) (t : number) :
  balanced (log_of (drawBackgroundTexture e)) /\
  (forall c, balanced (log_of (drawCircle e c t))) /\
  (forall s, balanced (log_of (drawTriangle s t))) /\
  (forall s, balanced (log_of (drawRect s t))) /\
  (forall g, balanced (log_of (drawGroup g t))) /\
  (forall k, stroke_ok k -> balanced (log_of (drawStroke k t))) /\
  balanced (log_of (drawRing e t)) /\
  balanced (log_of (drawAccent e t)) /\
  balanced (log_of (drawSignature e t)).
Proof.
  split; [apply balanced_drawBackgroundTexture|].
  split; [intros; apply balanced_drawCircle|].
  split; [intros; apply balanced_drawTriangle|].
  split; [intros; apply balanced_drawRect|].
  split; [intros; apply balanced_drawGroup|].
  split; [intros; now apply balanced_drawStroke|].
  repeat split; intros d; reflexivity.
Qed.

Lemma draw_routines_balanced_witness :
  balanced (log_of (drawStroke
                      (Stroke.mk [mkPoint 0 0; mkPoint 10 10] "#FFFFFF" 2 0.001 0) 1)).
Proof.
  apply (proj1 (proj2 (proj2 (proj2 (proj2 (proj2
           (draw_routines_balanced (mkEnv 300 200) 1))))))).
  unfold stroke_ok. cbn. discriminate.
Defined.

Lemma frame_running_log (now : number) (s : State) :
  running s = true -> Forall stroke_ok (strokes s) ->
  ctx (frame now s)
  = ctx s ++ [ClearRect 0 0 (width (env s)) (height (env s))]
      ++ log_of (drawBackgroundTexture (env s))
      ++ log_of (drawRing (env s) (frame_time now s))
      ++ flat_map (fun g => log_of (drawGroup g (frame_time now s))) (groups s)
      ++ flat_map (fun k => log_of (drawStroke k (frame_time now s))) (strokes s)
      ++ flat_map (fun sh => log_of (frame_shape (env s) (frame_time now s) sh))
                  (sort_shapes (shapes s))
      ++ log_of (drawAccent (env s) (frame_time now s))
      ++ log_of (drawSignature (env s) (frame_time now s)).
Proof.
  intros Hrun Hok. rewrite (frame_running now s Hrun). cbv zeta.
  destruct (drawStrokes_returns (frame_time now s) (strokes s) Hok) as [-> ->].
  cbn [ctx]. rewrite !forEach_log by auto with draw.
  now rewrite <- !app_assoc.
Qed.

(** X15.  A running frame on drawable strokes appends to the context a
    non-empty list of commands that is balanced as a whole: after the
    frame the save/restore stack is as deep as before it, so no transform,
    alpha or style set for one layer leaks into the next frame. *)
Theorem frame_balanced (now : number) (s : State) :
  running s = true -> Forall stroke_ok (strokes s) ->
  exists c cmds,
    ctx (frame now s) = ctx s ++ c :: cmds /\
    balanced (c :: cmds).
Proof.
  intros Hrun Hok. rewrite (frame_running_log now s Hrun Hok).
  do 2 eexists. split; [cbn [app]; reflexivity|].
  change (balanced ([ClearRect 0 0 (width (env s)) (height (env s))]
                      ++ log_of (drawBackgroundTexture (env s))
      ++ log_of (drawRing (env s) (frame_time now s))
      ++ flat_map (fun g => log_of (drawGroup g (frame_time now s))) (groups s)
      ++ flat_map (fun k => log_of (drawStroke k (frame_time now s))) (strokes s)
      ++ flat_map (fun sh => log_of (frame_shape (env s) (frame_time now s) sh))
                  (sort_shapes (shapes s))
      ++ log_of (drawAccent (env s) (frame_time now s))
      ++ log_of (drawSignature (env s) (frame_time now s)))).
  apply balanced_app; [intros d; reflexivity|].
  apply balanced_app; [apply balanced_drawBackgroundTexture|].
  apply balanced_app; [intros d; reflexivity|].
  apply balanced_app; [apply balanced_flat_map; intros; apply balanced_drawGroup|].
  apply balanced_app.
  { clear Hrun. induction Hok as [|k l Hk Hl IH]; [apply balanced_nil|].
    cbn [flat_map]. apply balanced_app; [now apply balanced_drawStroke | exact IH]. }
  apply balanced_app; [apply balanced_flat_map; intros; apply balanced_frame_shape|].
  apply balanced_app; intros d; reflexivity.
Qed.

Lemma frame_balanced_witness :
  exists c cmds,
    ctx (frame 16 (mkState (mkEnv 300 200) [] [] [] true 0 0 [] 1 true true true))
      = [] ++ c :: cmds /\
    balanced (c :: cmds).
Proof.
  apply (frame_balanced 16
           (mkState (mkEnv 300 200) [] [] [] true 0 0 [] 1 true true true));
    [reflexivity | constructor].
Defined.

(** ** A stroke without points *)

Lemma drawStrokes_throws (t : number) (l : list Stroke.t) :
  Exists (fun k => Stroke.points k = []) l -> result_of (drawStrokes t l) = false.
Proof.
  induction l as [|k l IH]; intros Hex; [inversion Hex|].
  cbn [drawStrokes]. rewrite bind_result; auto with draw;
    try (intros []; auto with draw).
  destruct (Stroke.points k) as [|p0 rest] eqn:Hp.
  - now rewrite (drawStroke_throws k t Hp).
  - rewrite (drawStroke_returns k t) by (unfold stroke_ok; rewrite Hp; discriminate).
    apply IH. inversion Hex as [? ? Hk|? ? Hl]; subst; [congruence | exact Hl].
Qed.

Lemma frame_groups_running (now : number) (s : State) :
  running s = true -> groups (frame now s) = map turn (groups s).
Proof.
  intros Hrun. rewrite (frame_running now s Hrun). cbv zeta.
  assert (H : result_of (forEach (fun g => drawGroup g (frame_time now s)) (groups s))
              = map turn (groups s)).
  { rewrite forEach_result by (intros; apply appends_drawGroup).
    apply map_ext. intros g. unfold result_of. apply drawGroup_result. }
  destruct (result_of (drawStrokes _ _)); cbn [groups]; exact H.
Qed.

Lemma tick_dead (now : number) (s : State) : raf s = O -> tick now s = s.
Proof. intros H. unfold tick. rewrite H. destruct s; cbn in *. now subst. Qed.

(** X16.  [drawStroke] reads [pts[0]] without a guard.  If some stroke of
    a running state has an empty [points] array, the frame throws while
    drawing the strokes: by then [last], the clock and the groups have
    been updated, but the shapes are not touched, the routine leaves one
    [save] unmatched, and the callback is not re-armed; with one callback
    queued, the animation is dead from that display frame on. *)
Theorem frame_dies_on_empty_stroke (now : number) (s : State) (k : Stroke.t) :
  running s = true -> In k (strokes s) -> Stroke.points k = [] ->
  raf (frame now s) = raf s /\
  shapes (frame now s) = shapes s /\
  last (frame now s) = now /\
  time (frame now s) = frame_time now s /\
  groups (frame now s) = map turn (groups s) /\
  (forall d t, depth_after d (log_of (drawStroke k t)) = Some (S d)) /\
  (raf s = 1%nat ->
   raf (tick now s) = O /\ forall nows, ticks nows (tick now s) = tick now s).
Proof.
  intros Hrun Hin Hk.
  assert (Hex : forall a, strokes a = strokes s ->
                  Exists (fun k => Stroke.points k = []) (strokes a)).
  { intros a ->. apply Exists_exists. now exists k. }
  assert (Hraf : forall a, running a = true -> strokes a = strokes s ->
                   raf (frame now a) = raf a /\ shapes (frame now a) = shapes a /\
                   time (frame now a) = frame_time now a).
  { intros a Ha Hs. rewrite (frame_running now a Ha). cbv zeta.
    rewrite (drawStrokes_throws _ _ (Hex a Hs)). now repeat split. }
  destruct (Hraf s Hrun eq_refl) as (H1 & H2 & H3).
  split; [exact H1|]. split; [exact H2|]. split; [apply frame_last|].
  split; [exact H3|]. split; [now apply frame_groups_running|]. split.
  - intros d t. unfold log_of, drawStroke, bind, emit, ret. rewrite Hk. reflexivity.
  - intros Hq.
    assert (Ht : tick now s = frame now (set_raf O s))
      by (unfold tick; rewrite Hq; reflexivity).
    rewrite Ht.
    destruct (Hraf (set_raf O s)) as (Q1 & _); [now destruct s | now destruct s|].
    assert (Q0 : raf (frame now (set_raf O s)) = O) by (rewrite Q1; now destruct s).
    split; [exact Q0|].
    intros nows. induction nows as [|n nows IH]; [reflexivity|].
    cbn [ticks fold_left]. rewrite (tick_dead n _ Q0). exact IH.
Qed.

Lemma frame_dies_on_empty_stroke_witness :
  raf (frame 16 (mkState (mkEnv 300 200) [] [Stroke.mk [] "#FFFFFF" 2 0.001 0] []
                   true 0 0 [] 1 true true true)) = 1%nat.
Proof.
  apply (frame_dies_on_empty_stroke 16
           (mkState (mkEnv 300 200) [] [Stroke.mk [] "#FFFFFF" 2 0.001 0] []
              true 0 0 [] 1 true true true)
           (Stroke.mk [] "#FFFFFF" 2 0.001 0));
    [reflexivity | now left | reflexivity].
Defined.

(** X17.  [drawStroke] on a stroke of [n >= 1] points issues one [moveTo]
    and [n - 1] quadratic curves, one for each further point in order, all
    displaced by the same offset; with a finite time, drift and phase that
    offset has length exactly 6, so a stroke only circles around its
    stored position and is never deformed. *)
Theorem drawStroke_path
    (points : list Point) (p0 : Point) (rest : list Point)
    (color : string) (sw : number) (drift phase t : R) :
  points = p0 :: rest ->
  exists dx dy,
    dx * dx + dy * dy = 36 /\
    log_of (drawStroke (Stroke.mk points color sw drift phase) t)
    = [Save; SetLineJoin "round"; SetLineCap "round"; BeginPath;
       MoveTo (nadd (px p0) (Fin dx)) (nadd (py p0) (Fin dy))]
        ++ map (fun p => QuadraticCurveTo
                           (nadd (nsub (px p) 10) (Fin dx)) (nadd (nsub (py p) 10) (Fin dy))
                           (nadd (px p) (Fin dx)) (nadd (py p) (Fin dy))) rest
        ++ [SetStrokeStyle (Solid (Token color)); SetLineWidth sw;
            SetGlobalAlpha 0.9; StrokePath; Restore].
Proof.
  intros Hp.
  exists (sin (t * drift + phase) * 6), (cos (t * drift + phase) * 6).
  split.
  - pose proof (sin2_cos2 (t * drift + phase)) as H. unfold Rsqr in H. nra.
  - now rewrite (drawStroke_log (Stroke.mk points color sw drift phase) (Fin t)
                  p0 rest Hp).
Qed.

Lemma drawStroke_path_witness :
  exists dx dy,
    dx * dx + dy * dy = 36 /\
    log_of (drawStroke (Stroke.mk [mkPoint 0 0; mkPoint 10 10] "#FFFFFF" 2 0.001 0) 1)
    = [Save; SetLineJoin "round"; SetLineCap "round"; BeginPath;
       MoveTo (nadd 0 (Fin dx)) (nadd 0 (Fin dy))]
        ++ map (fun p => QuadraticCurveTo
                           (nadd (nsub (px p) 10) (Fin dx)) (nadd (nsub (py p) 10) (Fin dy))
                           (nadd (px p) (Fin dx)) (nadd (py p) (Fin dy))) [mkPoint 10 10]
        ++ [SetStrokeStyle (Solid (Token "#FFFFFF")); SetLineWidth 2;
            SetGlobalAlpha 0.9; StrokePath; Restore].
Proof.
  apply (drawStroke_path [mkPoint 0 0; mkPoint 10 10] (mkPoint 0 0) [mkPoint 10 10]
           "#FFFFFF" 2 0.001 0 1).
  reflexivity.
Defined.

(** ** The chain of callbacks, the clock and the rotation of groups *)

Lemma tick_running_step (now : number) (s : State) :
  running s = true -> raf s = 1%nat -> Forall stroke_ok (strokes s) ->
  running (tick now s) = true /\ raf (tick now s) = 1%nat /\
  strokes (tick now s) = strokes s /\
  groups (tick now s) = map turn (groups s) /\
  time (tick now s) = frame_time now s /\ last (tick now s) = now.
Proof.
  intros Hrun Hq Hok.
  assert (Ht : tick now s = frame now (set_raf O s))
    by (unfold tick; rewrite Hq; reflexivity).
  rewrite Ht.
  assert (Hrun0 : running (set_raf O s) = true) by (now destruct s).
  assert (Hok0 : Forall stroke_ok (strokes (set_raf O s))) by (now destruct s).
  split; [|split; [|split; [|split; [|split]]]].
  - rewrite (frame_running now _ Hrun0). cbv zeta.
    now destruct (result_of (drawStrokes _ _)).
  - rewrite (frame_running now _ Hrun0). cbv zeta.
    destruct (drawStrokes_returns (frame_time now (set_raf O s)) _ Hok0) as [-> _].
    now destruct s.
  - rewrite frame_strokes. now destruct s.
  - rewrite (frame_groups_running now _ Hrun0). now destruct s.
  - rewrite (frame_running now _ Hrun0). cbv zeta.
    destruct (result_of (drawStrokes _ _)); now destruct s.
  - apply frame_last.
Qed.






Lemma start_strokes_ok (e : Env) (src : Source) (now : number) :
  unit_source src -> Forall stroke_ok (strokes (start e src now)).
Proof.
  intros Hsrc. unfold start, populate, replicateM.
  unfold bind at 1.
  pose proof (keeps_unit_forEach (fun _ : nat => makeCircle e) (seq 0 9)
                (fun _ => keeps_unit_makeCircle e) src Hsrc) as H1.
  destruct (forEach _ (seq 0 9) src) as [cs s1]. cbn [snd] in H1.
  unfold bind at 1.
  pose proof (keeps_unit_forEach (fun _ : nat => makeTriangle e) (seq 0 8)
                (fun _ => keeps_unit_makeTriangle e) s1 H1) as H2.
  destruct (forEach _ (seq 0 8) s1) as [ts s2]. cbn [snd] in H2.
  unfold bind at 1.
  pose proof (keeps_unit_forEach (fun _ : nat => makeRect e) (seq 0 6)
                (fun _ => keeps_unit_makeRect e) s2 H2) as H3.
  destruct (forEach _ (seq 0 6) s2) as [rs s3]. cbn [snd] in H3.
  unfold bind at 1.
  pose proof (forEach_Forall stroke_ok (fun _ : nat => makeStroke e) (seq 0 5)
                (fun _ => keeps_unit_makeStroke e)
                (fun _ s Hs => makeStroke_ok e s Hs) s3 H3) as Hk.
  destruct (forEach _ (seq 0 5) s3) as [sks s4]. cbn [fst] in Hk.
  unfold bind at 1. destruct (forEach _ (seq 0 3) s4) as [gs s5].
  exact Hk.
Qed.

(** X19.  From the start of the script on, through any run of frames and
    API calls, exactly one [frame] callback is queued between display
    frames: the chain neither dies nor multiplies. *)
Theorem one_callback_queued (e : Env) (src : Source) (now : number) (evs : list Event) :
  unit_source src ->
  raf (run_events evs (start e src now)) = 1%nat.
Proof.
  intros Hsrc.
  assert (H : forall s, raf s = 1%nat -> Forall stroke_ok (strokes s) ->
                raf (run_events evs s) = 1%nat).
  { unfold run_events. induction evs as [|ev evs IH]; intros s Hq Hok; [exact Hq|].
    cbn [fold_left]. apply IH.
    - destruct ev as [n| |n|n|]; cbn [step]; try (now destruct s).
      destruct (running s) eqn:Hrun.
      + apply (tick_running_step n s Hrun Hq Hok).
      + destruct (tick_paused n s Hrun) as (_ & -> & _). exact Hq.
    - destruct ev as [n| |n|n|]; cbn [step]; try (now destruct s).
      now rewrite tick_strokes. }
  apply H.
  - unfold start. now destruct (fst (populate e src)) as [[ss sks] gs].
  - now apply start_strokes_ok.
Qed.

Lemma one_callback_queued_witness :
  raf (run_events [Tick 16; Pause; Tick 32; Destroy; Tick 48]
         (start (mkEnv 300 200) (fun _ => 0.5) 0)) = 1%nat.
Proof.
  apply (one_callback_queued (mkEnv 300 200) (fun _ => 0.5) 0).
  intros n; lra.
Defined.

(** X20.  One call of [frame] never advances the clock by more than 0.04
    seconds, however long ago the previous call was (it adds exactly 0.04
    once 40 ms or more have passed); it does not move the clock backwards
    unless the timestamp handed in precedes [last]; and it leaves the clock
    alone while paused. *)
Theorem frame_clock_step (n l c : R) (s : State) :
  last s = Fin l -> time s = Fin c ->
  exists c',
    time (frame (Fin n) s) = Fin c' /\
    c' <= c + 0.04 /\
    (l <= n -> c <= c') /\
    (running s = true -> 40 <= n - l -> c' = c + 0.04) /\
    (running s = true -> n - l <= 40 -> c' = c + (n - l) * 0.001) /\
    (running s = false -> c' = c).
Proof.
  intros Hl Hc. destruct (running s) eqn:Hrun.
  - exists (c + Rmin 40 (n - l) * 0.001).
    assert (Ht : time (frame (Fin n) s) = Fin (c + Rmin 40 (n - l) * 0.001)).
    { rewrite (frame_running (Fin n) s Hrun). cbv zeta.
      assert (Hf : frame_time (Fin n) s = Fin (c + Rmin 40 (n - l) * 0.001))
        by (unfold frame_time; now rewrite Hl, Hc).
      destruct (result_of (drawStrokes _ _)); cbn [time]; exact Hf. }
    split; [exact Ht|].
    pose proof (Rmin_l 40 (n - l)). pose proof (Rmin_r 40 (n - l)).
    split; [lra|]. split; [|split; [|split]].
    + intros Hln. unfold Rmin. destruct (Rle_dec 40 (n - l)); lra.
    + intros _ H40. rewrite Rmin_left by lra. lra.
    + intros _ H40. rewrite Rmin_right by lra. lra.
    + discriminate.
  - exists c. rewrite (frame_paused (Fin n) s Hrun).
    split; [now destruct s|]. repeat split; try lra; discriminate.
Qed.

Lemma frame_clock_step_witness :
  exists c',
    time (frame (Fin 5000)
            (mkState (mkEnv 300 200) [] [] [] true 100 2 [] 1 true true true)) = Fin c' /\
    c' <= 2 + 0.04.
Proof.
  destruct (frame_clock_step 5000 100 2
              (mkState (mkEnv 300 200) [] [] [] true 100 2 [] 1 true true true)
              eq_refl eq_refl) as (c' & H1 & H2 & _).
  exists c'. split; [exact H1 | exact H2].
Defined.

(** ** Pausing, resuming and tearing down *)

Lemma ticks_paused (nows : list number) (s : State) :
  running s = false ->
  running (ticks nows s) = false /\ raf (ticks nows s) = raf s /\
  ctx (ticks nows s) = ctx s /\ shapes (ticks nows s) = shapes s /\
  strokes (ticks nows s) = strokes s /\ groups (ticks nows s) = groups s /\
  time (ticks nows s) = time s /\ env (ticks nows s) = env s.
Proof.
  revert s. induction nows as [|n nows IH]; intros s Hrun; [now repeat split|].
  cbn [ticks fold_left].
  destruct (tick_paused n s Hrun) as (H1 & H2 & H3 & H4 & H5 & H6 & H7 & H8).
  destruct (IH (tick n s) H1) as (I1 & I2 & I3 & I4 & I5 & I6 & I7 & I8).
  unfold ticks in *. rewrite I2, I3, I4, I5, I6, I7, I8. now repeat split.
Qed.

(** X21.  A pause costs no animation time.  However many display frames
    pass between [pause] and [resume], the context, the scene and the
    clock stay as they were, and the first frame after [resume] advances
    the clock by the time since the call of [resume] only (at most 40
    ms). *)
Theorem pause_resume_clock (s : State) (nows : list number) (now now' : number) :
  raf s = 1%nat -> Forall stroke_ok (strokes s) ->
  let paused := ticks nows (pause s) in
  ctx paused = ctx s /\ shapes paused = shapes s /\ groups paused = groups s /\
  time paused = time s /\
  running (resume now paused) = true /\
  time (tick now' (resume now paused))
    = nadd (time s) (nmul (Math_min 40 (nsub now' now)) 0.001).
Proof.
  intros Hq Hok. cbv zeta.
  destruct (ticks_paused nows (pause s) eq_refl)
    as (_ & P2 & P3 & P4 & P5 & P6 & P7 & _).
  split; [exact P3|]. split; [exact P4|]. split; [exact P6|]. split; [exact P7|].
  split; [reflexivity|].
  set (p := ticks nows (pause s)) in *.
  destruct (tick_running_step now' (resume now p)) as (_ & _ & _ & _ & Ht & _).
  - reflexivity.
  - cbn. rewrite P2. exact Hq.
  - cbn. rewrite P5. exact Hok.
  - rewrite Ht. unfold frame_time. cbn [time last resume set_last set_running].
    now rewrite P7.
Qed.

Lemma pause_resume_clock_witness :
  time (tick 5016 (resume 5000 (ticks [Fin 16; Fin 32; Fin 2000]
          (pause (mkState (mkEnv 300 200) [] [] [] true 0 2 [] 1 true true true)))))
  = nadd (Fin 2) (nmul (Math_min 40 (nsub 5016 5000)) 0.001).
Proof.
  apply (pause_resume_clock
           (mkState (mkEnv 300 200) [] [] [] true 0 2 [] 1 true true true)
           [Fin 16; Fin 32; Fin 2000] 5000 5016);
    [reflexivity | constructor].
Defined.

Lemma frame_flags (now : number) (s : State) :
  apiInstalled (frame now s) = apiInstalled s /\
  resizeListening (frame now s) = resizeListening s /\
  canvasAttached (frame now s) = canvasAttached s.
Proof.
  destruct (running s) eqn:Hrun.
  - rewrite (frame_running now s Hrun). cbv zeta.
    now destruct (result_of (drawStrokes _ _)).
  - rewrite (frame_paused now s Hrun). now destruct s.
Qed.

Lemma tick_flags (now : number) (s : State) :
  apiInstalled (tick now s) = apiInstalled s /\
  resizeListening (tick now s) = resizeListening s /\
  canvasAttached (tick now s) = canvasAttached s.
Proof.
  unfold tick.
  rewrite (iter_preserves _ apiInstalled _ _ (fun a => proj1 (frame_flags now a))).
  rewrite (iter_preserves _ resizeListening _ _
             (fun a => proj1 (proj2 (frame_flags now a)))).
  rewrite (iter_preserves _ canvasAttached _ _
             (fun a => proj2 (proj2 (frame_flags now a)))).
  now destruct s.
Qed.

(** X22.  After [destroy] nothing the page itself can do brings the
    sketch back: through any run of display frames, clicks on the canvas
    and window resizes, the context receives no command, the scene, the
    clock and the surface size keep their values and the flag stays off.
    (A click then finds no API object and only throws; the resize listener
    is gone.)  Before [destroy], a click is a [toggle]. *)
Theorem destroyed_is_inert (s : State) (evs : list HostEvent) :
  let s' := run_host evs (destroy s) in
  (ctx s' = ctx s /\ shapes s' = shapes s /\ strokes s' = strokes s /\
   groups s' = groups s /\ time s' = time s /\ env s' = env s /\
   running s' = false /\ apiInstalled s' = false /\
   resizeListening s' = false /\ canvasAttached s' = false) /\
  (forall now, apiInstalled s = true -> on_click now s = toggle now s).
Proof.
  cbv zeta. split; [|intros now H; unfold on_click; now rewrite H].
  assert (H : forall a,
            running a = false -> apiInstalled a = false ->
            resizeListening a = false -> canvasAttached a = false ->
            let a' := run_host evs a in
            ctx a' = ctx a /\ shapes a' = shapes a /\ strokes a' = strokes a /\
            groups a' = groups a /\ time a' = time a /\ env a' = env a /\
            running a' = false /\ apiInstalled a' = false /\
            resizeListening a' = false /\ canvasAttached a' = false).
  { unfold run_host. induction evs as [|ev evs IH]; intros a Hr Ha Hl Hc;
      [now repeat split|].
    cbn [fold_left]. destruct ev as [n|n|d w h]; cbn [host_step].
    - destruct (tick_paused n a Hr) as (T1 & _ & T3 & T4 & T5 & T6 & T7 & T8).
      destruct (tick_flags n a) as (F1 & F2 & F3).
      destruct (IH (tick n a)) as (I1 & I2 & I3 & I4 & I5 & I6 & I7);
        try congruence.
      cbv zeta in *. rewrite I1, I2, I3, I4, I5, I6. now repeat split.
    - unfold on_click. rewrite Ha. now apply IH.
    - unfold on_resize. rewrite Hl. now apply IH. }
  apply (H (destroy s)); reflexivity.
Qed.

(** ** The surface *)

Lemma Math_round_near (x : R) :
  exists z, Math_round (Fin x) = Fin (IZR z) /\ x - 0.5 < IZR z <= x + 0.5.
Proof.
  exists (Int_part (x + 0.5)). split; [reflexivity|].
  destruct (base_Int_part (x + 0.5)). lra.
Qed.

(** X23.  [DPR] is a finite number not below 1 whatever
    [window.devicePixelRatio] holds ([undefined], [NaN] and 0 give 1).
    With it, [resize] sets a surface at least 300 wide and 200 high and
    not smaller than the window, a canvas whose pixel size is the surface
    size times [DPR] rounded to the nearest integer, hence at least 300 by
    200 pixels, and a context scale of [DPR] on both axes. *)
Theorem resize_clamps (v : value) (iw ih : R) :
  exists d w h cw ch,
    DPR v = Fin d /\ 1 <= d /\
    (forall x, v = Num (Fin x) -> 1 <= x -> d = x) /\
    resize (DPR v) (Fin iw) (Fin ih)
      = (mkEnv (Fin w) (Fin h), mkCanvas (Fin (IZR cw)) (Fin (IZR ch)) (Fin d) (Fin d)) /\
    w = Rmax 300 iw /\ h = Rmax 200 ih /\
    300 <= w /\ 200 <= h /\ iw <= w /\ ih <= h /\
    w * d - 0.5 < IZR cw <= w * d + 0.5 /\
    h * d - 0.5 < IZR ch <= h * d + 0.5 /\
    (300 <= cw)%Z /\ (200 <= ch)%Z.
Proof.
  assert (Hd : exists d, DPR v = Fin d /\ 1 <= d /\
                 (forall x, v = Num (Fin x) -> 1 <= x -> d = x)).
  { unfold DPR. destruct v as [|[|x]].
    - exists (Rmax 1 1). split; [reflexivity|]. split; [apply Rmax_l|]. discriminate.
    - exists (Rmax 1 1). split; [reflexivity|]. split; [apply Rmax_l|]. discriminate.
    - unfold js_or, truthy. destruct (Req_dec_T x 0).
      + exists (Rmax 1 1). split; [reflexivity|]. split; [apply Rmax_l|].
        intros y Hy Hy1. injection Hy as <-. lra.
      + exists (Rmax 1 x). split; [reflexivity|]. split; [apply Rmax_l|].
        intros y Hy Hy1. injection Hy as <-. now apply Rmax_right. }
  destruct Hd as (d & Hd & Hd1 & Hdx).
  set (w := Rmax 300 iw). set (h := Rmax 200 ih).
  assert (Hw : 300 <= w /\ iw <= w) by (unfold w; split; [apply Rmax_l | apply Rmax_r]).
  assert (Hh : 200 <= h /\ ih <= h) by (unfold h; split; [apply Rmax_l | apply Rmax_r]).
  destruct (Math_round_near (w * d)) as (cw & Hcw & Bcw).
  destruct (Math_round_near (h * d)) as (ch & Hch & Bch).
  exists d, w, h, cw, ch. rewrite Hd.
  split; [reflexivity|]. split; [exact Hd1|]. split; [exact Hdx|].
  split.
  { unfold resize. cbn [Math_max lift2 nmul]. fold w h. now rewrite Hcw, Hch. }
  assert (Hwd : 300 <= w * d) by nra.
  assert (Hhd : 200 <= h * d) by nra.
  repeat split; try lra.
  - assert (H : (299 < cw)%Z) by (apply lt_IZR; lra). lia.
  - assert (H : (199 < ch)%Z) by (apply lt_IZR; lra). lia.
Qed.

(** [Math.max] does not catch a [NaN]: a window that reports no width
    gives a [NaN] surface width. *)
Lemma resize_NaN (d ih : number) : width (fst (resize d NaN ih)) = NaN.
Proof. reflexivity. Qed.

(** ** More on the colour helper *)

Lemma hex_digit_range (c : ascii) (v : Z) :
  hex_digit c = Some v -> (0 <= v <= 15)%Z.
Proof.
  intros H.
  destruct c as [[] [] [] [] [] [] [] []]; vm_compute in H;
    first [ discriminate H | injection H as <-; lia ].
Qed.

Lemma parseInt16_Z_pair (a b : ascii) (va vb : Z) :
  hex_digit a = Some va -> hex_digit b = Some vb ->
  parseInt16_Z (String a (String b EmptyString)) = Some (16 * va + vb)%Z.
Proof.
  intros Ha Hb.
  destruct a as [[] [] [] [] [] [] [] []]; vm_compute in Ha;
    first [ discriminate Ha
          | injection Ha as <-;
            destruct b as [[] [] [] [] [] [] [] []]; vm_compute in Hb;
            first [ discriminate Hb | injection Hb as <-; vm_compute; reflexivity ] ].
Qed.

(** X24.  A token of six hexadecimal digits, with or without the leading
    [#], is read two digits at a time: each channel is 16 times the first
    digit plus the second, an integer from 0 to 255, and the opacity handed
    in is the alpha channel. *)
Theorem hexToRgba_six_digits
    (a b c d e f : ascii) (va vb vc vd ve vf : Z) (alpha : number) :
  hex_digit a = Some va -> hex_digit b = Some vb -> hex_digit c = Some vc ->
  hex_digit d = Some vd -> hex_digit e = Some ve -> hex_digit f = Some vf ->
  let token := String a (String b (String c (String d (String e (String f EmptyString))))) in
  hexToRgba (String "#" token) alpha
    = Rgba (IZR (16 * va + vb)) (IZR (16 * vc + vd)) (IZR (16 * ve + vf)) alpha /\
  hexToRgba token alpha = hexToRgba (String "#" token) alpha /\
  (0 <= 16 * va + vb <= 255)%Z /\ (0 <= 16 * vc + vd <= 255)%Z /\
  (0 <= 16 * ve + vf <= 255)%Z.
Proof.
  intros Ha Hb Hc Hd He Hf token.
  pose proof (hex_digit_range a va Ha). pose proof (hex_digit_range b vb Hb).
  pose proof (hex_digit_range c vc Hc). pose proof (hex_digit_range d vd Hd).
  pose proof (hex_digit_range e ve He). pose proof (hex_digit_range f vf Hf).
  assert (Hhash : forall x v, hex_digit x = Some v -> Ascii.eqb "#" x = false).
  { intros x v Hx.
    destruct x as [[] [] [] [] [] [] [] []]; vm_compute in Hx;
      first [ discriminate Hx | reflexivity ]. }
  assert (H6 : hexToRgba (String "#" token) alpha
               = Rgba (IZR (16 * va + vb)) (IZR (16 * vc + vd)) (IZR (16 * ve + vf)) alpha).
  { unfold hexToRgba, parseInt16, token. cbn [remove_first Ascii.eqb Bool.eqb].
    cbn [String.length Nat.eqb slice String.substring Nat.sub].
    now rewrite (parseInt16_Z_pair a b va vb Ha Hb), (parseInt16_Z_pair c d vc vd Hc Hd),
      (parseInt16_Z_pair e f ve vf He Hf). }
  split; [exact H6|]. split; [|repeat split; lia].
  rewrite H6. unfold hexToRgba, parseInt16, token.
  cbn [remove_first]. rewrite (Hhash a va Ha), (Hhash b vb Hb), (Hhash c vc Hc),
    (Hhash d vd Hd), (Hhash e ve He), (Hhash f vf Hf).
  cbn [remove_first String.length Nat.eqb slice String.substring Nat.sub].
  now rewrite (parseInt16_Z_pair a b va vb Ha Hb), (parseInt16_Z_pair c d vc vd Hc Hd),
    (parseInt16_Z_pair e f ve vf He Hf).
Qed.

Lemma hexToRgba_six_digits_witness :
  hexToRgba "#3A7CA5" 0.6 = Rgba (IZR (16 * 3 + 10)) (IZR (16 * 7 + 12))
                                 (IZR (16 * 10 + 5)) 0.6.
Proof.
  apply (hexToRgba_six_digits "3" "A" "7" "C" "A" "5" 3 10 7 12 10 5 0.6);
    reflexivity.
Defined.

Lemma hex_prefix_bound (s : string) (acc : option Z) (z : Z) :
  hex_prefix acc s = Some z ->
  (0 <= match acc with Some a => a | None => 0 end)%Z ->
  (0 <= z < (match acc with Some a => a | None => 0 end + 1) * 16 ^ Z.of_nat (String.length s))%Z.
Proof.
  revert acc z. induction s as [|c s IH]; intros acc z H Hacc.
  - cbn in H. subst acc. cbn [String.length Z.of_nat]. lia.
  - cbn [hex_prefix] in H. cbn [String.length].
    rewrite Nat2Z.inj_succ, Z.pow_succ_r by lia.
    destruct (hex_digit c) as [d|] eqn:Hd.
    + pose proof (hex_digit_range c d Hd) as Hr.
      set (a := match acc with Some a => a | None => 0%Z end) in *.
      specialize (IH _ _ H). cbv beta iota in IH.
      assert (HP : (0 <= 16 ^ Z.of_nat (String.length s))%Z) by (apply Z.pow_nonneg; lia).
      assert (H0 : (0 <= 16 * a + d)%Z) by lia.
      specialize (IH H0). set (P := (16 ^ Z.of_nat (String.length s))%Z) in *.
      assert ((16 * a + d + 1) * P <= (16 * a + 16) * P)%Z
        by (apply Z.mul_le_mono_nonneg_r; lia).
      lia.
    + subst acc.
      assert (0 < 16 ^ Z.of_nat (String.length s))%Z by (apply Z.pow_pos_nonneg; lia).
      nia.
Qed.

Lemma skip_spaces_length (s : string) :
  (String.length (skip_spaces s) <= String.length s)%nat.
Proof.
  induction s as [|c s IH]; cbn [skip_spaces]; [lia|].
  destruct (is_space c); cbn [String.length]; lia.
Qed.

Lemma strip_0x_length (s : string) :
  (String.length (strip_0x s) <= String.length s)%nat.
Proof.
  destruct s as [|c [|d s]]; cbn [strip_0x String.length]; try lia.
  - destruct c as [[] [] [] [] [] [] [] []]; cbn; lia.
  - destruct c as [[] [] [] [] [] [] [] []]; cbn; try lia;
      destruct d as [[] [] [] [] [] [] [] []]; cbn; lia.
Qed.

Lemma parseInt16_Z_two (s : string) (z : Z) :
  (String.length s <= 2)%nat -> parseInt16_Z s = Some z -> (-15 <= z <= 255)%Z.
Proof.
  intros Hlen H. unfold parseInt16_Z in H.
  pose proof (skip_spaces_length s) as Hs.
  assert (Hb : forall t v, (String.length t <= 2)%nat ->
                 hex_prefix None (strip_0x t) = Some v -> (0 <= v <= 255)%Z).
  { intros t v Ht Hv. pose proof (strip_0x_length t) as Hl.
    apply hex_prefix_bound in Hv; [|lia]. cbv beta iota in Hv.
    assert (Hp : (16 ^ Z.of_nat (String.length (strip_0x t)) <= 16 ^ 2)%Z)
      by (apply Z.pow_le_mono_r; lia).
    change (16 ^ 2)%Z with 256%Z in Hp. lia. }
  assert (Hb1 : forall t v, (String.length t <= 1)%nat ->
                  hex_prefix None (strip_0x t) = Some v -> (0 <= v <= 15)%Z).
  { intros t v Ht Hv. pose proof (strip_0x_length t) as Hl.
    apply hex_prefix_bound in Hv; [|lia]. cbv beta iota in Hv.
    assert (Hp : (16 ^ Z.of_nat (String.length (strip_0x t)) <= 16 ^ 1)%Z)
      by (apply Z.pow_le_mono_r; lia).
    change (16 ^ 1)%Z with 16%Z in Hp. lia. }
  destruct (skip_spaces s) as [|c t] eqn:Hsk.
  - cbn in H. discriminate.
  - cbn [String.length] in Hs.
    assert (Hcases :
              (c = "-"%char /\ option_map (Z.mul (-1)) (hex_prefix None (strip_0x t)) = Some z) \/
              (c = "+"%char /\ option_map (Z.mul 1) (hex_prefix None (strip_0x t)) = Some z) \/
              (option_map (Z.mul 1) (hex_prefix None (strip_0x (String c t))) = Some z)).
    { destruct c as [[] [] [] [] [] [] [] []];
        first [ left; split; [reflexivity | exact H]
              | right; left; split; [reflexivity | exact H]
              | right; right; exact H ]. }
    destruct Hcases as [[_ Hz] | [[_ Hz] | Hz]].
    + destruct (hex_prefix None (strip_0x t)) as [v|] eqn:Hv; [|discriminate].
      assert (Hzv : z = (-1 * v)%Z) by (cbv [option_map] in Hz; congruence).
      specialize (Hb1 t v ltac:(lia) Hv). lia.
    + destruct (hex_prefix None (strip_0x t)) as [v|] eqn:Hv; [|discriminate].
      assert (Hzv : z = (1 * v)%Z) by (cbv [option_map] in Hz; congruence).
      specialize (Hb1 t v ltac:(lia) Hv). lia.
    + destruct (hex_prefix None (strip_0x (String c t))) as [v|] eqn:Hv; [|discriminate].
      assert (Hzv : z = (1 * v)%Z) by (cbv [option_map] in Hz; congruence).
      specialize (Hb (String c t) v ltac:(cbn [String.length]; lia) Hv). lia.
Qed.

Lemma substring_length_le (n m : nat) (s : string) :
  (String.length (String.substring n m s) <= m)%nat.
Proof.
  revert n m. induction s as [|c s IH]; intros n m.
  - destruct n, m; cbn; lia.
  - destruct n as [|n]; [destruct m as [|m]|]; cbn [String.substring String.length].
    + lia.
    + specialize (IH O m). lia.
    + apply IH.
Qed.

Lemma substring_past_end (n m : nat) (s : string) :
  (String.length s <= n)%nat -> String.substring n m s = EmptyString.
Proof.
  revert n m. induction s as [|c s IH]; intros n m Hlen.
  - destruct n, m; reflexivity.
  - destruct n as [|n]; cbn [String.length] in Hlen; [lia|].
    cbn [String.substring]. apply IH. lia.
Qed.

Lemma char_at_length (i : nat) (s : string) :
  (String.length (char_at i s) <= 1)%nat.
Proof. unfold char_at. destruct (String.get i s); cbn; lia. Qed.

Lemma append_length (s1 s2 : string) :
  String.length (s1 ++ s2)%string = (String.length s1 + String.length s2)%nat.
Proof. induction s1 as [|c s1 IH]; cbn; [reflexivity | now rewrite IH]. Qed.

Lemma parseInt16_channel (s : string) :
  (String.length s <= 2)%nat -> channel_ok (parseInt16 s).
Proof.
  intros Hlen. unfold parseInt16, channel_ok.
  destruct (parseInt16_Z s) as [z|] eqn:Hz; cbn [number_of_parse]; [right | now left].
  exists z. split; [reflexivity | now apply (parseInt16_Z_two s)].
Qed.

(** X25.  [hexToRgba] accepts every string: it returns an [rgba] colour
    whose alpha is the opacity handed in and whose channels are each
    [NaN] or an integer from -15 to 255, never more.  A token that, once
    the first [#] is dropped, has fewer than five characters and not
    exactly three has a [NaN] blue channel. *)
Theorem hexToRgba_any_input (hex : string) (alpha : number) :
  exists r g b,
    hexToRgba hex alpha = Rgba r g b alpha /\
    channel_ok r /\ channel_ok g /\ channel_ok b /\
    ((String.length (remove_first "#" hex) <= 4)%nat ->
     String.length (remove_first "#" hex) <> 3%nat -> b = NaN).
Proof.
  unfold hexToRgba. set (h := remove_first "#" hex).
  destruct (Nat.eqb (String.length h) 3) eqn:H3.
  - do 3 eexists. split; [reflexivity|].
    repeat split;
      try (apply parseInt16_channel; rewrite append_length;
           pose proof (char_at_length 0 h); pose proof (char_at_length 1 h);
           pose proof (char_at_length 2 h); lia).
    intros _ Hne. apply Nat.eqb_eq in H3. contradiction.
  - do 3 eexists. split; [reflexivity|].
    repeat split;
      try (apply parseInt16_channel; unfold slice; apply substring_length_le).
    intros Hle _. unfold slice. now rewrite substring_past_end.
Qed.

Lemma hexToRgba_any_input_witness :
  exists r g b,
    hexToRgba "#ab" 1 = Rgba r g b 1 /\ b = NaN.
Proof.
  destruct (hexToRgba_any_input "#ab" 1) as (r & g & b & H & _ & _ & _ & Hb).
  exists r, g, b. split; [exact H|]. apply Hb; cbn; [lia | discriminate].
Defined.

(** ** The order of the shapes *)

Lemma sort_shapes_sorted_id (l : list Shape) :
  Sorted (fun a b => sort_key a <= sort_key b) l -> sort_shapes l = l.
Proof.
  induction 1 as [|a l Hl IH Hd]; [reflexivity|].
  cbn [sort_shapes]. rewrite IH.
  destruct Hd as [|b l' Hab]; [reflexivity|].
  cbn [insert_shape]. now rewrite (proj2 (compare_y_not_gt a b) Hab).
Qed.

(** X26.  The sort of the frame is stable and does no more than needed:
    a list of shapes already in non-decreasing order of [y || 0], ties
    included, comes out exactly as it went in, so sorting twice is sorting
    once; and a running frame on such a scene draws and stores the shapes
    in the order they were stored. *)
Theorem sort_shapes_stable (l : list Shape) (now : number) (s : State) :
  (Sorted (fun a b => sort_key a <= sort_key b) l -> sort_shapes l = l) /\
  sort_shapes (sort_shapes l) = sort_shapes l /\
  (running s = true -> Forall stroke_ok (strokes s) ->
   Sorted (fun a b => sort_key a <= sort_key b) (shapes s) ->
   shapes (frame now s)
   = map (fun sh => result_of (frame_shape (env s) (frame_time now s) sh)) (shapes s)).
Proof.
  split; [apply sort_shapes_sorted_id|]. split.
  - apply sort_shapes_sorted_id, StronglySorted_Sorted, sort_shapes_sorted.
  - intros Hrun Hok Hs. rewrite (frame_running now s Hrun). cbv zeta.
    destruct (drawStrokes_returns (frame_time now s) (strokes s) Hok) as [-> _].
    cbn [shapes]. rewrite forEach_result by apply appends_frame_shape.
    now rewrite (sort_shapes_sorted_id _ Hs).
Qed.

Lemma sort_shapes_stable_witness :
  sort_shapes [SRect (Rect.mk 10 20 30 20 0 0 "#FFFFFF" None 1);
               SRect (Rect.mk 99 20 30 20 0 0 "#000000" None 1)]
  = [SRect (Rect.mk 10 20 30 20 0 0 "#FFFFFF" None 1);
     SRect (Rect.mk 99 20 30 20 0 0 "#000000" None 1)].
Proof.
  apply (sort_shapes_stable _ 0
           (mkState (mkEnv 300 200) [] [] [] true 0 0 [] 1 true true true)).
  apply Sorted_cons;
    [apply Sorted_cons; [apply Sorted_nil | apply HdRel_nil] | apply HdRel_cons].
  rewrite !(sort_key_finite _ 20) by reflexivity. lra.
Defined.

(** ** The two unused helpers *)

(** X27.  [clamp(v, a, b)] on finite numbers with [a <= b] returns a
    value between [a] and [b], [v] itself when [v] is already between
    them; with the bounds the wrong way round ([b < a]) it returns [a];
    a [NaN] argument gives [NaN]. *)
Theorem clamp_bounds (v a b : R) :
  exists c,
    clamp (Fin v) (Fin a) (Fin b) = Fin c /\
    (a <= b -> a <= c <= b) /\
    (a <= v <= b -> c = v) /\
    (v <= a -> c = a) /\
    (a <= b -> b <= v -> c = b) /\
    (b < a -> c = a) /\
    clamp NaN (Fin a) (Fin b) = NaN /\
    clamp (Fin v) NaN (Fin b) = NaN /\
    clamp (Fin v) (Fin a) NaN = NaN.
Proof.
  exists (Rmax a (Rmin b v)). split; [reflexivity|].
  unfold Rmax, Rmin.
  destruct (Rle_dec b v), (Rle_dec a _); repeat split; intros; try reflexivity; lra.
Qed.

Lemma clamp_bounds_witness :
  exists c, clamp (Fin 7) (Fin 0) (Fin 5) = Fin c /\ 0 <= c <= 5.
Proof.
  destruct (clamp_bounds 7 0 5) as (c & H & Hb & _).
  exists c. split; [exact H | apply Hb; lra].
Defined.



Lemma destroyed_is_inert_witness :
  on_click 5 (mkState (mkEnv 300 200) [] [] [] true 0 0 [] 1 true true true)
  = toggle 5 (mkState (mkEnv 300 200) [] [] [] true 0 0 [] 1 true true true).
Proof.
  apply (destroyed_is_inert
           (mkState (mkEnv 300 200) [] [] [] true 0 0 [] 1 true true true) []).
  reflexivity.
Defined.

(** ** How far a circle moves in one frame *)

Lemma parallax_range (y h : R) :
  0 < h -> 0 <= y <= h -> 0.96 <= 1 + (y / h - 0.5) * 0.08 <= 1.04.
Proof.
  intros Hh Hy.
  assert (H0 : 0 <= y / h) by (apply Rmult_le_pos; [lra | left; now apply Rinv_0_lt_compat]).
  assert (H1 : y / h <= 1).
  { apply (Rmult_le_reg_r h); [exact Hh|].
    unfold Rdiv. rewrite Rmult_assoc, Rinv_l by lra. lra. }
  lra.
Qed.

Lemma nudge_small (s p : R) :
  -1 <= s <= 1 -> 0.96 <= p <= 1.04 -> -0.0208 <= s * 0.02 * p <= 0.0208.
Proof.
  intros Hs Hp.
  assert (0 <= (1 - s) * p) by (apply Rmult_le_pos; lra).
  assert (0 <= (1 + s) * p) by (apply Rmult_le_pos; lra).
  lra.
Qed.

(** X29.  In one frame a circle inside the surface either is teleported
    to an edge of the padded surface or moves, on each axis, by its
    velocity plus a parallax nudge of at most 0.0208: the motion is
    continuous except for the wrap-around. *)
Theorem circle_frame_motion
    (e : Env) (w h t x y r vx vy : R) (fill : string) (stroke : option string)
    (sw wob ph : number) :
  width e = Fin w -> height e = Fin h -> 0 < h -> 0 <= y <= h ->
  exists c' x' y',
    result_of (frame_shape e (Fin t)
                 (SCircle (Circle.mk x y r fill stroke sw vx vy wob ph)))
      = SCircle c' /\
    Circle.x c' = Fin x' /\ Circle.y c' = Fin y' /\
    (x' = w + r \/ x' = - r \/ -0.0208 <= x' - (x + vx) <= 0.0208) /\
    (y' = h + r \/ y' = - r \/ -0.0208 <= y' - (y + vy) <= 0.0208).
Proof.
  intros Hw Hh Hhp Hy.
  rewrite frame_shape_circle.
  rewrite (parallax_finite e (SCircle (Circle.mk x y r fill stroke sw vx vy wob ph))
             y h eq_refl Hh) by lra.
  pose proof (parallax_range y h Hhp Hy) as Hp.
  set (p := 1 + (y / h - 0.5) * 0.08) in *.
  cbn [Circle.x Circle.y Circle.set_x Circle.set_y nadd nmul nsub lift2
       Math_sin Math_cos].
  pose proof (nudge_small _ p (SIN_bound (t * 0.2 + (x + y) * 0.001)) Hp) as Hdx.
  set (dx := sin (t * 0.2 + (x + y) * 0.001) * 0.02 * p) in *.
  pose proof (nudge_small _ p (COS_bound (t * 0.14 + (x + dx - y) * 0.001)) Hp) as Hdy.
  set (dy := cos (t * 0.14 + (x + dx - y) * 0.001) * 0.02 * p) in *.
  unfold drawCircle_move. rewrite Hw, Hh. cbn. decide_lt.
  all: do 3 eexists; (split; [reflexivity|]); (split; [reflexivity|]);
    (split; [reflexivity|]);
    split;
    first [ left; reflexivity
          | right; left; reflexivity
          | right; right; lra ].
Qed.

Lemma circle_frame_motion_witness :
  exists c' x' y',
    result_of (frame_shape (mkEnv 300 200) (Fin 1)
                 (SCircle (Circle.mk 100 50 20 "#FFFFFF" None 0 0.01 0.02 1 0)))
      = SCircle c' /\
    Circle.x c' = Fin x' /\ Circle.y c' = Fin y' /\
    (x' = 300 + 20 \/ x' = - 20 \/ -0.0208 <= x' - (100 + 0.01) <= 0.0208) /\
    (y' = 200 + 20 \/ y' = - 20 \/ -0.0208 <= y' - (50 + 0.02) <= 0.0208).
Proof.
  apply (circle_frame_motion (mkEnv 300 200) 300 200 1 100 50 20 0.01 0.02);
    try reflexivity; lra.
Defined.

Lemma resize_clamps_witness :
  exists d, DPR (Num (Fin 2)) = Fin d /\ d = 2.
Proof.
  destruct (resize_clamps (Num (Fin 2)) 1024 768)
    as (d & w & h & cw & ch & Hd & _ & Hx & _).
  exists d. split; [exact Hd | apply (Hx 2); [reflexivity | lra]].
Defined.

(** ** The children of a group on the canvas *)

Lemma drawChild_arcs (sc t : R) (c : Child.t) :
  0 < sc -> child_as_made sc c ->
  Forall (arc_below (52 * sc)) (log_of (drawChild (Fin t) c)).
Proof.
  intros Hsc (x & y & d & r & w & h & sw & Hx & Hy & _ & _ & Hr & Hrb & _).
  pose proof (SIN_bound (t * 0.9 + (x + y) * 0.01)) as [Hs Hs'].
  assert (Hrad : child_radius c (Fin t)
                 = Fin (r * (1 + 0.08 * sin (t * 0.9 + (x + y) * 0.01))))
    by (unfold child_radius; now rewrite Hr, Hx, Hy).
  set (s1 := sin (t * 0.9 + (x + y) * 0.01)) in *.
  assert (H1 : 0 <= r * (1 + s1)) by (apply Rmult_le_pos; lra).
  assert (H2 : 0 <= r * (1 - s1)) by (apply Rmult_le_pos; lra).
  unfold log_of, drawChild, bind, emit, when, ret. rewrite Hrad.
  destruct (Child.kind c), (truthy_str (Child.stroke c)); cbn [snd app];
    repeat (apply Forall_cons; [first [exact I | cbn; lra]|]);
    apply Forall_nil.
Qed.

(** X30.  For a group whose children are as [makeGroup] makes them,
    [drawGroup] hands the context only arcs of a finite, strictly positive
    radius, below 52 times the scale of the group, at any finite time:
    the pulse of a circle child stays within 8% of its stored radius. *)
Theorem drawGroup_arcs (sc t : R) (g : Group.t) :
  0 < sc -> Forall (child_as_made sc) (Group.children g) ->
  Forall (arc_below (52 * sc)) (log_of (drawGroup g (Fin t))).
Proof.
  intros Hsc Hch. rewrite drawGroup_log.
  repeat (apply Forall_cons; [exact I|]).
  apply Forall_app. split; [|repeat constructor].
  apply Forall_flat_map. revert Hch. apply Forall_impl.
  intros c Hc. now apply drawChild_arcs.
Qed.

Lemma drawGroup_arcs_witness :
  Forall (arc_below (52 * 1))
         (log_of (drawGroup
                    (Group.mk 100 100 0 0.001 1
                       [Child.mk KCircle 30 40 10 20 15 "#000000"%string None 1])
                    (Fin 3))).
Proof.
  apply (drawGroup_arcs 1 3
           (Group.mk 100 100 0 0.001 1
              [Child.mk KCircle 30 40 10 20 15 "#000000"%string None 1])); [lra|].
  apply Forall_cons; [|apply Forall_nil].
  exists 30, 40, 50, 10, 20, 15, 1. cbn.
  repeat split; try lra; try reflexivity; [|now left].
  do 6 right; now left.
Defined.
